(** * The ninja manifest parser (src/manifest_parser.cc)

    A shallow embedding of [ManifestParser] and of the parts of the graph
    store it drives, followed by the properties of the statement handlers:
    pool and rule registration, default targets, the reading of a build
    statement and the scope of its edge, output de-duplication, the linking
    of inputs, what a build statement keeps of the graph, the self-reference
    filter, dyndep validation, the indented lines and the chdir bracket of
    an inclusion, and the version check and the end of the top-level
    loop. *)

From stdpp Require Import base gmap strings list fin_maps.
From Stdlib Require Import ZArith Lia Ascii.

Local Open Scope Z_scope.

(** ** Tokens and template values *)

(** Modelled from the spec: [Lexer::Token] of lexer.h, the token kinds of
    the tokenizer contract (structural markers, identifier, [=], [:],
    single and double pipe, indentation, newline, error, end of input). *)
Inductive Token :=
| ERROR | BUILD | COLON | DEFAULT | EQUALS | IDENT | INCLUDE | INDENT
| NEWLINE | PIPE | PIPE2 | POOL | RULE | SUBNINJA | TEOF.

#[global] Instance Token_eq_dec : EqDecision Token.
Proof. solve_decision. Defined.

(** Modelled from the spec: [EvalString] of eval_env.h, an ordered sequence
    of fragments, each literal text ([RAW]) or a variable reference
    ([SPECIAL]). *)
Inductive Fragment :=
| RAW (text : string)
| SPECIAL (var : string).

Abbreviation EvalString := (list Fragment).

(** Modelled from the spec: [EvalString::empty]: no fragment at all. *)
Definition empty (e : EvalString) : bool :=
  match e with [] => true | _ => false end.

(** ** The graph store *)

(** Modelled from the spec: [Rule] of eval_env.h: its name and its bindings
    (a [map<string, EvalString>], indexed at lines 160-166). *)
Record Rule := mkRule {
  rule_name_ : string;
  rule_bindings_ : gmap string EvalString
}.

(** Modelled from the spec: [Pool] of state.h: a name and a depth. *)
Record Pool := mkPool {
  pool_name_ : string;
  depth_ : Z
}.

(** Modelled from the spec: [BindingEnv] of eval_env.h. Scopes live in the
    store ([scopes_] below) and are named by their index there, so a
    [BindingEnv*] is a [nat]; [rel_path_] and [abs_path_] are the directory
    prefix metadata of a scope made by a chdir inclusion. *)
Record BindingEnv := mkBindingEnv {
  bindings_ : gmap string string;
  rules_ : gmap string Rule;
  parent_ : option nat;
  rel_path_ : string;
  abs_path_ : string
}.

(** Modelled from the spec: [Node] of graph.h. A node is named by its
    canonical path (the interning invariant), so a [Node*] is that path;
    an [Edge*] is the index of the edge in [edges_]. *)
Record Node := mkNode {
  path_ : string;
  slash_bits_ : Z;
  node_env_ : nat;
  in_edge_ : option nat;
  out_edges_ : list nat;
  dyndep_pending_ : bool
}.

(** Modelled from the spec: [Edge] of graph.h. *)
Record Edge := mkEdge {
  rule_ : Rule;
  pool_ : Pool;
  edge_env_ : nat;
  inputs_ : list string;
  outputs_ : list string;
  implicit_deps_ : Z;
  order_only_deps_ : Z;
  implicit_outs_ : Z;
  dyndep_ : option string
}.

(** Modelled from the spec: [State] of state.h: the interning table, the
    pool table, the edge list, the scopes (index 0 is the root scope
    [State::bindings_]) and the default targets. *)
Record State := mkState {
  paths_ : gmap string Node;
  pools_ : gmap string Pool;
  edges_ : list Edge;
  scopes_ : list BindingEnv;
  defaults_ : list string
}.

Definition set_paths (f : gmap string Node -> gmap string Node) (st : State) : State :=
  mkState (f (paths_ st)) (pools_ st) (edges_ st) (scopes_ st) (defaults_ st).
Definition set_pools (f : gmap string Pool -> gmap string Pool) (st : State) : State :=
  mkState (paths_ st) (f (pools_ st)) (edges_ st) (scopes_ st) (defaults_ st).
Definition set_edges (f : list Edge -> list Edge) (st : State) : State :=
  mkState (paths_ st) (pools_ st) (f (edges_ st)) (scopes_ st) (defaults_ st).
Definition set_scopes (f : list BindingEnv -> list BindingEnv) (st : State) : State :=
  mkState (paths_ st) (pools_ st) (edges_ st) (f (scopes_ st)) (defaults_ st).
Definition set_defaults (f : list string -> list string) (st : State) : State :=
  mkState (paths_ st) (pools_ st) (edges_ st) (scopes_ st) (f (defaults_ st)).

(** Modelled from the spec: [State::kDefaultPool] and [State::kPhonyRule],
    the default pool and the built-in phony rule. *)
Definition kDefaultPool : Pool := mkPool EmptyString 0.
Definition kPhonyRule : Rule := mkRule "phony" ∅.

(** *** Scopes *)

(** Modelled from the spec: [BindingEnv::LookupVariable] of eval_env.cc:
    the first hit walking up the parents, the
    empty string when there is none. A parent is older than its child, so
    the walk is bounded by the number of scopes. *)
Fixpoint LookupVariable_from (n : nat) (scopes : list BindingEnv)
    (env : nat) (var : string) : string :=
  match n with
  | O => EmptyString
  | S n' =>
    match scopes !! env with
    | None => EmptyString
    | Some be =>
      match bindings_ be !! var with
      | Some v => v
      | None =>
        match parent_ be with
        | Some p => LookupVariable_from n' scopes p var
        | None => EmptyString
        end
      end
    end
  end.

Definition LookupVariable (st : State) (env : nat) (var : string) : string :=
  LookupVariable_from (length (scopes_ st)) (scopes_ st) env var.

(** Modelled from the spec: [EvalString::Evaluate] of eval_env.cc: every
    reference is replaced by the scope's lookup and the fragments are
    concatenated. *)
Fixpoint Evaluate (st : State) (env : nat) (e : EvalString) : string :=
  match e with
  | [] => EmptyString
  | RAW s :: e' => s +:+ Evaluate st env e'
  | SPECIAL v :: e' => LookupVariable st env v +:+ Evaluate st env e'
  end.

Definition map_env (f : BindingEnv -> BindingEnv) (env : nat) (st : State) : State :=
  set_scopes (alter f env) st.

(** Modelled from the spec: [BindingEnv::AddBinding]: into the local scope
    only, no overwrite protection. *)
Definition AddBinding (env : nat) (key val : string) (st : State) : State :=
  map_env (fun be => mkBindingEnv (<[key := val]> (bindings_ be)) (rules_ be)
                       (parent_ be) (rel_path_ be) (abs_path_ be)) env st.

(** Modelled from the spec: [BindingEnv::AddRule]: into the local scope
    only. *)
Definition AddRule (env : nat) (r : Rule) (st : State) : State :=
  map_env (fun be => mkBindingEnv (bindings_ be) (<[rule_name_ r := r]> (rules_ be))
                       (parent_ be) (rel_path_ be) (abs_path_ be)) env st.

(** Modelled from the spec: [BindingEnv::LookupRuleCurrentScope]: the rule
    lookup without parent traversal. *)
Definition LookupRuleCurrentScope (st : State) (env : nat) (name : string) : option Rule :=
  match scopes_ st !! env with
  | Some be => rules_ be !! name
  | None => None
  end.

(** Modelled from the spec: [BindingEnv::LookupRule]: the rule lookup
    through the parent chain. *)
Fixpoint LookupRule_from (n : nat) (scopes : list BindingEnv)
    (env : nat) (name : string) : option Rule :=
  match n with
  | O => None
  | S n' =>
    match scopes !! env with
    | None => None
    | Some be =>
      match rules_ be !! name with
      | Some r => Some r
      | None =>
        match parent_ be with
        | Some p => LookupRule_from n' scopes p name
        | None => None
        end
      end
    end
  end.

Definition LookupRule (st : State) (env : nat) (name : string) : option Rule :=
  LookupRule_from (length (scopes_ st)) (scopes_ st) env name.

(** Modelled from the spec: [new BindingEnv(parent)] and the constructor
    with the directory prefixes of a chdir scope: the new scope is appended
    to the store and its index returned. *)
Definition new_BindingEnv (parent : nat) (rel abs : string) (st : State) : nat * State :=
  (length (scopes_ st),
   set_scopes (fun sc => sc ++ [mkBindingEnv ∅ ∅ (Some parent) rel abs]) st).

(** Modelled from the spec: [BindingEnv::AsString]: the absolute directory
    prefix of the scope. *)
Definition AsString (st : State) (env : nat) : string :=
  match scopes_ st !! env with
  | Some be => abs_path_ be
  | None => EmptyString
  end.

(** *** Pools, nodes and edges *)

(** Modelled from the spec: [State::LookupPool] and [State::AddPool] on the
    pool table. *)
Definition LookupPool (st : State) (name : string) : option Pool :=
  pools_ st !! name.

Definition AddPool (p : Pool) (st : State) : State :=
  set_pools (<[pool_name_ p := p]>) st.

(** Modelled from the spec: [State::GetNode]: the node of a canonical path,
    created on first reference and reused afterwards. *)
Definition GetNode (path : string) (env : nat) (slash_bits : Z) (st : State) : State :=
  match paths_ st !! path with
  | Some _ => st
  | None => set_paths (<[path := mkNode path slash_bits env None [] false]>) st
  end.

(** An update of the node behind a [Node*], of the edge behind an
    [Edge*]. *)
Definition map_node (f : Node -> Node) (path : string) (st : State) : State :=
  set_paths (alter f path) st.

Definition map_edge (f : Edge -> Edge) (edge : nat) (st : State) : State :=
  set_edges (alter f edge) st.

(** Modelled from the spec: [Node::set_in_edge], [Node::AddOutEdge],
    [Node::set_dyndep_pending] and [Node::ResetEnv] of graph.h. *)
Definition set_in_edge (edge : nat) (n : Node) : Node :=
  mkNode (path_ n) (slash_bits_ n) (node_env_ n) (Some edge) (out_edges_ n) (dyndep_pending_ n).
Definition AddOutEdge (edge : nat) (n : Node) : Node :=
  mkNode (path_ n) (slash_bits_ n) (node_env_ n) (in_edge_ n) (out_edges_ n ++ [edge])
         (dyndep_pending_ n).
Definition set_dyndep_pending (b : bool) (n : Node) : Node :=
  mkNode (path_ n) (slash_bits_ n) (node_env_ n) (in_edge_ n) (out_edges_ n) b.
Definition ResetEnv (env : nat) (n : Node) : Node :=
  mkNode (path_ n) (slash_bits_ n) env (in_edge_ n) (out_edges_ n) (dyndep_pending_ n).

(** The assignments to the fields of an edge. *)
Definition set_edge_env (env : nat) (e : Edge) : Edge :=
  mkEdge (rule_ e) (pool_ e) env (inputs_ e) (outputs_ e) (implicit_deps_ e)
         (order_only_deps_ e) (implicit_outs_ e) (dyndep_ e).
Definition set_pool (p : Pool) (e : Edge) : Edge :=
  mkEdge (rule_ e) p (edge_env_ e) (inputs_ e) (outputs_ e) (implicit_deps_ e)
         (order_only_deps_ e) (implicit_outs_ e) (dyndep_ e).
Definition set_inputs (f : list string -> list string) (e : Edge) : Edge :=
  mkEdge (rule_ e) (pool_ e) (edge_env_ e) (f (inputs_ e)) (outputs_ e) (implicit_deps_ e)
         (order_only_deps_ e) (implicit_outs_ e) (dyndep_ e).
Definition set_outputs (f : list string -> list string) (e : Edge) : Edge :=
  mkEdge (rule_ e) (pool_ e) (edge_env_ e) (inputs_ e) (f (outputs_ e)) (implicit_deps_ e)
         (order_only_deps_ e) (implicit_outs_ e) (dyndep_ e).
Definition set_implicit_outs (n : Z) (e : Edge) : Edge :=
  mkEdge (rule_ e) (pool_ e) (edge_env_ e) (inputs_ e) (outputs_ e) (implicit_deps_ e)
         (order_only_deps_ e) n (dyndep_ e).
Definition set_deps_counts (implicit order_only : Z) (e : Edge) : Edge :=
  mkEdge (rule_ e) (pool_ e) (edge_env_ e) (inputs_ e) (outputs_ e) implicit
         order_only (implicit_outs_ e) (dyndep_ e).
Definition set_dyndep (d : option string) (e : Edge) : Edge :=
  mkEdge (rule_ e) (pool_ e) (edge_env_ e) (inputs_ e) (outputs_ e) (implicit_deps_ e)
         (order_only_deps_ e) (implicit_outs_ e) d.

(** The scope of an edge, the root scope for a dangling index. *)
Definition env_of_edge (st : State) (edge : nat) : nat :=
  match edges_ st !! edge with
  | Some e => edge_env_ e
  | None => O
  end.

(** Modelled from the spec: [State::AddEdge]: a new edge on the default
    pool and the root scope, appended to the edge list. *)
Definition AddEdge (r : Rule) (st : State) : nat * State :=
  (length (edges_ st),
   set_edges (fun es => es ++ [mkEdge r kDefaultPool O [] [] 0 0 0 None]) st).

(** Does the node of [path] have a producing edge? *)
Definition has_in_edge (st : State) (path : string) : bool :=
  match paths_ st !! path with
  | Some n => match in_edge_ n with Some _ => true | None => false end
  | None => false
  end.

(** Modelled from the spec: [State::AddOut]: intern the node; refuse it
    when it already has a producing edge (a node holds at most one),
    otherwise append it to the outputs and make the edge its producer. *)
Definition AddOut (edge : nat) (path : string) (slash_bits : Z) (st : State) : bool * State :=
  let st1 := GetNode path (env_of_edge st edge) slash_bits st in
  if has_in_edge st1 path then (false, st1)
  else (true, map_node (set_in_edge edge) path
                (map_edge (set_outputs (fun o => o ++ [path])) edge st1)).

(** Modelled from the spec: [State::AddIn]: intern the node, append it to
    the inputs and record the edge among its consumers. *)
Definition AddIn (edge : nat) (path : string) (slash_bits : Z) (st : State) : State :=
  let st1 := GetNode path (env_of_edge st edge) slash_bits st in
  map_node (AddOutEdge edge) path
    (map_edge (set_inputs (fun i => i ++ [path])) edge st1).

(** Modelled from the spec: [State::AddDefault]: by lookup only, an unknown
    path is an error. *)
Definition AddDefault (path : string) (st : State) : State + string :=
  match paths_ st !! path with
  | Some _ => inl (set_defaults (fun d => d ++ [path]) st)
  | None => inr ("unknown target '" +:+ path +:+ "'")
  end.

(** Modelled from the spec: [Rule::IsReservedBinding] of eval_env.cc, the
    fixed allow-list of rule binding names. *)
Definition IsReservedBinding (key : string) : bool :=
  bool_decide (key ∈ ["command"; "description"; "depfile"; "deps"; "dyndep";
                      "generator"; "msvc_deps_prefix"; "pool"; "restat";
                      "rspfile"; "rspfile_content"]).

(** Modelled from the spec: [Rule::AddBinding]. *)
Definition Rule_AddBinding (key : string) (val : EvalString) (r : Rule) : Rule :=
  mkRule (rule_name_ r) (<[key := val]> (rule_bindings_ r)).

(** [rule->bindings_[key]]: [operator[]] of the map, which inserts an empty
    value for a missing key and returns the stored one. *)
Definition Rule_index (key : string) (r : Rule) : EvalString * Rule :=
  match rule_bindings_ r !! key with
  | Some v => (v, r)
  | None => ([], mkRule (rule_name_ r) (<[key := []]> (rule_bindings_ r)))
  end.

(** ** Library and collaborator functions *)

(** [atol] of the C library: leading white space is skipped, an optional
    sign is read, then the longest run of decimal digits; the value is 0
    when there is no digit. Out of the range of [long] the C standard leaves
    the result open; the clamping of glibc's [strtol] is written out. *)
Definition isspace (c : Ascii.ascii) : bool :=
  let n := Ascii.nat_of_ascii c in
  bool_decide (n = 32 ∨ (9 ≤ n ∧ n ≤ 13))%nat.

Fixpoint skip_space (s : string) : string :=
  match s with
  | String c s' => if isspace c then skip_space s' else s
  | EmptyString => s
  end.

Definition digit_val (c : Ascii.ascii) : option Z :=
  let n := Z.of_nat (Ascii.nat_of_ascii c) in
  if (48 <=? n) && (n <=? 57) then Some (n - 48) else None.

Fixpoint digits (acc : Z) (s : string) : Z :=
  match s with
  | String c s' =>
    match digit_val c with
    | Some d => digits (10 * acc + d) s'
    | None => acc
    end
  | EmptyString => acc
  end.

Definition LONG_MAX : Z := 2 ^ 63 - 1.
Definition LONG_MIN : Z := - 2 ^ 63.

Definition atol (s : string) : Z :=
  let s := skip_space s in
  let v :=
    match s with
    | String "-"%char s' => - digits 0 s'
    | String "+"%char s' => digits 0 s'
    | _ => digits 0 s
    end in
  Z.max LONG_MIN (Z.min LONG_MAX v).

(** The narrowing of a [long] to the 32-bit [int] that receives it. *)
Definition to_int (z : Z) : Z :=
  (z + 2 ^ 31) mod 2 ^ 32 - 2 ^ 31.

(** [static_cast<size_t>] of an [int]. *)
Definition to_size_t (z : Z) : Z := z mod 2 ^ 64.

(** Modelled from the spec: the tokenizer ([Lexer] of lexer.h), an external
    collaborator taken by its operations: read, unread and peek a token,
    read an identifier, read a path expression (the empty template means no
    more paths on this line), read the rest of the line as a template, and
    describe an error with its source position. A read that fails returns
    the text it stores in the caller's error string. *)
Class Lexer (L : Type) := {
  Start : string -> string -> L;
  ReadToken : L -> Token * L;
  UnreadToken : L -> L;
  PeekToken : Token -> L -> bool * L;
  ReadIdent : L -> option string * L;
  ReadPath : L -> (EvalString + string) * L;
  ReadVarValue : L -> (EvalString + string) * L;
  Error : string -> L -> string;
  DescribeLastError : L -> string;
  TokenName : Token -> string;
  TokenErrorHint : Token -> string
}.

(** Modelled from the spec: the file-reading collaborator ([FileReader] of
    disk_interface.h): a named-buffer reader and a working-directory get/set
    pair, each returning success or an error message. *)
Class FileReader (FR : Type) := {
  ReadFile : string -> FR -> (string + string) * FR;
  Getcwd : FR -> (string + string) * FR;
  Chdir : string -> FR -> option string * FR
}.

(** Modelled from the spec: the functions of util.cc, graph.cc, eval_env.cc
    and version.cc that the parser calls, taken by their results.
    [CanonicalizePath] returns the canonical path and its separator marker
    or an error text; [Edge_GetBinding] and [Edge_GetUnescapedDyndep] read a
    binding of an edge in a store; [ApplyChdir] qualifies a path with the
    directory of a scope; [CheckNinjaVersion] answers whether the running
    tool accepts the required version: when it does not the check fails at
    once, the process exits. *)
Class Externals := {
  CanonicalizePath : string -> (string * Z) + string;
  Edge_GetBinding : State -> nat -> string -> string;
  Edge_GetUnescapedDyndep : State -> nat -> string;
  ApplyChdir : State -> nat -> string -> string;
  CheckNinjaVersion : string -> bool
}.

(** Modelled from the spec: [Edge::maybe_phonycycle_diagnostic] of graph.cc.
    The filter applies to a single-output edge and does not special-case by
    rule identity. *)
Definition maybe_phonycycle_diagnostic (e : Edge) : bool :=
  bool_decide (length (outputs_ e) = 1%nat).

(** Modelled from the spec: [ManifestParserOptions] of manifest_parser.h:
    the duplicate-output policy (error, or warn and drop) and the policy
    for self-referencing edges (warn and strip, or leave as it is). *)
Inductive DupeEdgeAction := kDupeEdgeActionWarn | kDupeEdgeActionError.
Inductive PhonyCycleAction := kPhonyCycleActionWarn | kPhonyCycleActionError.

Record ManifestParserOptions := mkOptions {
  dupe_edge_action_ : DupeEdgeAction;
  phony_cycle_action_ : PhonyCycleAction
}.

(** ** The parser *)

Section Parser.

Context {L FR : Type} {lexer : Lexer L} {file_reader : FileReader FR}
  {externals : Externals}.

(** A parser instance ([lexer_], [env_], [options_], [quiet_]) together
    with what it shares with its caller and its nested parsers: the graph
    store [state_], the file reader, the caller's error string [err_] and
    the warnings printed so far. *)
Record PState := mkPState {
  lexer_ : L;
  env_ : nat;
  options_ : ManifestParserOptions;
  quiet_ : bool;
  state_ : State;
  file_reader_ : FR;
  err_ : string;
  warnings_ : list string
}.

Definition set_lexer (l : L) (s : PState) : PState :=
  mkPState l (env_ s) (options_ s) (quiet_ s) (state_ s) (file_reader_ s) (err_ s) (warnings_ s).
Definition set_state (st : State) (s : PState) : PState :=
  mkPState (lexer_ s) (env_ s) (options_ s) (quiet_ s) st (file_reader_ s) (err_ s) (warnings_ s).
Definition set_file_reader (fr : FR) (s : PState) : PState :=
  mkPState (lexer_ s) (env_ s) (options_ s) (quiet_ s) (state_ s) fr (err_ s) (warnings_ s).
Definition set_err (e : string) (s : PState) : PState :=
  mkPState (lexer_ s) (env_ s) (options_ s) (quiet_ s) (state_ s) (file_reader_ s) e (warnings_ s).
Definition add_warning (w : string) (s : PState) : PState :=
  mkPState (lexer_ s) (env_ s) (options_ s) (quiet_ s) (state_ s) (file_reader_ s) (err_ s)
           (warnings_ s ++ [w]).

(** The outcome of running a piece of a member function: it completes
    with a value ([Val]), it executes a [return] of the enclosing function
    ([Ret]), the process exits ([Exit], the fatal version mismatch), or the
    loop bound of the model is used up ([Fuel]). *)
Inductive Res (A : Type) :=
| Val (a : A) (s : PState)
| Ret (b : bool) (s : PState)
| Exit (s : PState)
| Fuel.

Arguments Val {A} a s.
Arguments Ret {A} b s.
Arguments Exit {A} s.
Arguments Fuel {A}.

Definition M (A : Type) : Type := PState -> Res A.

Definition val {A} (a : A) : M A := fun s => Val a s.
Definition return_ {A} (b : bool) : M A := fun s => Ret b s.
Definition out_of_fuel {A} : M A := fun _ => Fuel.
Definition bind {A B} (m : M A) (k : A -> M B) : M B :=
  fun s =>
    match m s with
    | Val a s' => k a s'
    | Ret b s' => Ret b s'
    | Exit s' => Exit s'
    | Fuel => Fuel
    end.

Notation "x <- m ;; k" := (bind m (fun x => k))
  (at level 100, m at next level, right associativity).
Notation "m ;;; k" := (bind m (fun _ => k))
  (at level 100, right associativity).

(** A call of a [bool] member function: its [return] becomes the value of
    the call. *)
Definition call (body : M bool) : M bool :=
  fun s =>
    match body s with
    | Val b s' => Val b s'
    | Ret b s' => Val b s'
    | Exit s' => Exit s'
    | Fuel => Fuel
    end.

(** A call of a [bool] function with out-parameters: [Some] of them when
    it returns true, [None] when it returns false. *)
Definition call_out {A} (body : M A) : M (option A) :=
  fun s =>
    match body s with
    | Val a s' => Val (Some a) s'
    | Ret _ s' => Val None s'
    | Exit s' => Exit s'
    | Fuel => Fuel
    end.

Definition get {A} (f : PState -> A) : M A := fun s => Val (f s) s.
Definition modify (f : PState -> PState) : M unit := fun s => Val tt (f s).
Definition modify_state (f : State -> State) : M unit :=
  modify (fun s => set_state (f (state_ s)) s).
Definition lex {A} (f : L -> A * L) : M A :=
  fun s => let '(a, l) := f (lexer_ s) in Val a (set_lexer l s).

(** [if (!b) return false;] *)
Definition require (b : bool) : M unit :=
  if b then val tt else return_ false.

(** [lexer_.Error(msg, err)]: stores the described error, its result is
    false. *)
Definition lexer_Error (msg : string) : M unit :=
  modify (fun s => set_err (Error msg (lexer_ s)) s).

(** [return lexer_.Error(msg, err);] *)
Definition return_Error {A} (msg : string) : M A :=
  lexer_Error msg ;;; return_ false.

(** [Warning(...)] of util.cc. *)
Definition Warning (msg : string) : M unit := modify (add_warning msg).

(** [lexer_.ReadPath(&path, err)] and [lexer_.ReadVarValue(&value, err)]:
    [None] when the read returns false, with the error stored. *)
Definition ReadPath_ : M (option EvalString) :=
  r <- lex ReadPath ;;
  match r with
  | inl path => val (Some path)
  | inr e => modify (set_err e) ;;; val None
  end.

Definition ReadVarValue_ : M (option EvalString) :=
  r <- lex ReadVarValue ;;
  match r with
  | inl value => val (Some value)
  | inr e => modify (set_err e) ;;; val None
  end.

(** [value.Evaluate(env)] on the current store. *)
Definition Evaluate_ (value : EvalString) (env : nat) : M string :=
  get (fun s => Evaluate (state_ s) env value).

(** Modelled from the spec: [Parser::ExpectToken] of parser.cc: the next
    token must be the expected one, otherwise an error is stored. *)
Definition ExpectToken (expected : Token) : M bool :=
  call (
    token <- lex ReadToken ;;
    if bool_decide (token = expected) then return_ true
    else return_Error ("expected " +:+ TokenName expected +:+ ", got " +:+
                       TokenName token +:+ TokenErrorHint expected)).

(** [ManifestParser::ParseLet] *)
Definition ParseLet : M (option (string * EvalString)) :=
  call_out (
    okey <- lex ReadIdent ;;
    match okey with
    | None => return_Error "expected variable name"
    | Some key =>
      ok <- ExpectToken EQUALS ;;
      require ok ;;;
      ovalue <- ReadVarValue_ ;;
      match ovalue with
      | None => return_ false
      | Some value => val (key, value)
      end
    end).

(** [ManifestParser::ParsePool], the loop over the indented lines; [depth]
    is the local of that name. *)
Fixpoint ParsePool_bindings (fuel : nat) (depth : Z) : M Z :=
  match fuel with
  | O => out_of_fuel
  | S fuel' =>
    indent <- lex (PeekToken INDENT) ;;
    if negb indent then val depth
    else
      olet <- ParseLet ;;
      match olet with
      | None => return_ false
      | Some (key, value) =>
        if String.eqb key "depth" then
          env <- get env_ ;;
          depth_string <- Evaluate_ value env ;;
          let depth := to_int (atol depth_string) in
          if depth <? 0 then return_Error "invalid pool depth"
          else ParsePool_bindings fuel' depth
        else return_Error ("unexpected variable '" +:+ key +:+ "'")
      end
  end.

(** [ManifestParser::ParsePool] *)
Definition ParsePool (fuel : nat) : M bool :=
  call (
    oname <- lex ReadIdent ;;
    match oname with
    | None => return_Error "expected pool name"
    | Some name =>
      ok <- ExpectToken NEWLINE ;;
      require ok ;;;
      st <- get state_ ;;
      match LookupPool st name with
      | Some _ => return_Error ("duplicate pool '" +:+ name +:+ "'")
      | None =>
        depth <- ParsePool_bindings fuel (-1) ;;
        if depth <? 0 then return_Error "expected 'depth =' line"
        else
          modify_state (AddPool (mkPool name depth)) ;;;
          return_ true
      end
    end).

(** [ManifestParser::ParseRule], the loop over the indented lines; [rule]
    is the rule under construction. *)
Fixpoint ParseRule_bindings (fuel : nat) (rule : Rule) : M Rule :=
  match fuel with
  | O => out_of_fuel
  | S fuel' =>
    indent <- lex (PeekToken INDENT) ;;
    if negb indent then val rule
    else
      olet <- ParseLet ;;
      match olet with
      | None => return_ false
      | Some (key, value) =>
        if IsReservedBinding key then
          ParseRule_bindings fuel' (Rule_AddBinding key value rule)
        else return_Error ("unexpected variable '" +:+ key +:+ "'")
      end
  end.

(** [ManifestParser::ParseRule] *)
Definition ParseRule (fuel : nat) : M bool :=
  call (
    oname <- lex ReadIdent ;;
    match oname with
    | None => return_Error "expected rule name"
    | Some name =>
      ok <- ExpectToken NEWLINE ;;
      require ok ;;;
      st <- get state_ ;;
      env <- get env_ ;;
      match LookupRuleCurrentScope st env name with
      | Some _ => return_Error ("duplicate rule '" +:+ name +:+ "'")
      | None =>
        rule <- ParseRule_bindings fuel (mkRule name ∅) ;;
        let '(rspfile, rule) := Rule_index "rspfile" rule in
        let '(rspfile_content, rule) := Rule_index "rspfile_content" rule in
        if negb (Bool.eqb (empty rspfile) (empty rspfile_content)) then
          return_Error "rspfile and rspfile_content need to be both specified"
        else
          let '(command, rule) := Rule_index "command" rule in
          if empty command then return_Error "expected 'command =' line"
          else
            modify_state (AddRule env rule) ;;;
            return_ true
      end
    end).

(** [ManifestParser::ParseDefault], the body of its do-while loop. *)
Fixpoint ParseDefault_paths (fuel : nat) (eval : EvalString) : M unit :=
  match fuel with
  | O => out_of_fuel
  | S fuel' =>
    env <- get env_ ;;
    path <- Evaluate_ eval env ;;
    match CanonicalizePath path with
    | inr path_err => return_Error path_err
    | inl (path, _) =>
      st <- get state_ ;;
      match AddDefault path st with
      | inr path_err => return_Error path_err
      | inl st' =>
        modify (set_state st') ;;;
        oeval <- ReadPath_ ;;
        match oeval with
        | None => return_ false
        | Some eval => if empty eval then val tt else ParseDefault_paths fuel' eval
        end
      end
    end
  end.

(** [ManifestParser::ParseDefault] *)
Definition ParseDefault (fuel : nat) : M bool :=
  call (
    oeval <- ReadPath_ ;;
    match oeval with
    | None => return_ false
    | Some eval =>
      if empty eval then return_Error "expected target name"
      else
        ParseDefault_paths fuel eval ;;;
        ok <- ExpectToken NEWLINE ;;
        require ok ;;;
        return_ true
    end).

(** *** Build statements *)

(** [return err;] where [err] is the caller's [string*]: the pointer is
    not null, so the [bool] that is returned is true. *)
Definition err_as_bool : bool := true.

(** The explicit outputs (lines 213-224): [out] is the path just read. *)
Fixpoint ParseEdge_explicit_outs (fuel : nat) (outs : list EvalString)
    (out : EvalString) : M (list EvalString) :=
  match fuel with
  | O => out_of_fuel
  | S fuel' =>
    if empty out then val outs
    else
      oout <- ReadPath_ ;;
      match oout with
      | None => return_ false
      | Some out' => ParseEdge_explicit_outs fuel' (outs ++ [out]) out'
      end
  end.

(** The four [for (;;)] loops that read paths until the empty one, pushing
    each on [paths] and counting them; [on_error] is what the loop returns
    from [ParseEdge] when the read fails. *)
Fixpoint ParseEdge_paths (fuel : nat) (on_error : bool)
    (paths : list EvalString) (count : Z) : M (list EvalString * Z) :=
  match fuel with
  | O => out_of_fuel
  | S fuel' =>
    opath <- ReadPath_ ;;
    match opath with
    | None => return_ on_error
    | Some path =>
      if empty path then val (paths, count)
      else ParseEdge_paths fuel' on_error (paths ++ [path]) (count + 1)
    end
  end.

(** The indented bindings of a build statement (lines 298-306), added to
    the edge scope [env] and evaluated in the scope [env_] of the parser. *)
Fixpoint ParseEdge_bindings (fuel : nat) (env : nat) (has_indent_token : bool) : M unit :=
  match fuel with
  | O => out_of_fuel
  | S fuel' =>
    if negb has_indent_token then val tt
    else
      olet <- ParseLet ;;
      match olet with
      | None => return_ false
      | Some (key, value) =>
        penv <- get env_ ;;
        v <- Evaluate_ value penv ;;
        modify_state (AddBinding env key v) ;;;
        has_indent_token <- lex (PeekToken INDENT) ;;
        ParseEdge_bindings fuel' env has_indent_token
      end
  end.

(** The locals of [ParseEdge] once the statement has been read. *)
Record EdgeLocals := mkEdgeLocals {
  outs : list EvalString;
  implicit_outs : Z;
  rule : Rule;
  ins : list EvalString;
  implicit : Z;
  order_only : Z;
  env : nat
}.

(** Lines 243-306 of [ParseEdge]: the statement from its colon on. *)
Definition ParseEdge_read_rule (fuel : nat) (outs : list EvalString)
    (implicit_outs : Z) : M EdgeLocals :=
  ok <- ExpectToken COLON ;;
  require ok ;;;
  orule_name <- lex ReadIdent ;;
  match orule_name with
  | None => return_Error "expected build command name"
  | Some rule_name =>
    st <- get state_ ;;
    penv <- get env_ ;;
    match LookupRule st penv rule_name with
    | None => return_Error ("unknown build rule '" +:+ rule_name +:+ "'")
    | Some rule =>
      r <- ParseEdge_paths fuel false [] 0 ;;
      let ins := r.1 in
      pipe <- lex (PeekToken PIPE) ;;
      r <- (if pipe then ParseEdge_paths fuel err_as_bool ins 0 else val (ins, 0)) ;;
      let '(ins, implicit) := r in
      pipe2 <- lex (PeekToken PIPE2) ;;
      r <- (if pipe2 then ParseEdge_paths fuel false ins 0 else val (ins, 0)) ;;
      let '(ins, order_only) := r in
      ok <- ExpectToken NEWLINE ;;
      require ok ;;;
      has_indent_token <- lex (PeekToken INDENT) ;;
      env <- (if has_indent_token
              then fun s =>
                     let '(e, st') := new_BindingEnv penv EmptyString EmptyString (state_ s)
                     in Val e (set_state st' s)
              else val penv) ;;
      ParseEdge_bindings fuel env has_indent_token ;;;
      val (mkEdgeLocals outs implicit_outs rule ins implicit order_only env)
    end
  end.

(** Lines 211-306 of [ParseEdge]: reading the statement. *)
Definition ParseEdge_read (fuel : nat) : M EdgeLocals :=
  oout <- ReadPath_ ;;
  match oout with
  | None => return_ false
  | Some out =>
    outs <- ParseEdge_explicit_outs fuel [] out ;;
    pipe <- lex (PeekToken PIPE) ;;
    r <- (if pipe then ParseEdge_paths fuel err_as_bool outs 0 else val (outs, 0)) ;;
    let '(outs, implicit_outs) := r in
    if bool_decide (outs = []) then return_Error "expected path"
    else ParseEdge_read_rule fuel outs implicit_outs
  end.

(** Lines 311-317: the [pool] binding of the edge. *)
Definition ParseEdge_pool (edge : nat) : M unit :=
  st <- get state_ ;;
  let pool_name := Edge_GetBinding st edge "pool" in
  if negb (String.eqb pool_name EmptyString) then
    match LookupPool st pool_name with
    | None => return_Error ("unknown pool name '" +:+ pool_name +:+ "'")
    | Some pool => modify_state (map_edge (set_pool pool) edge)
    end
  else val tt.

(** Lines 320-342: the loop over [outs], from index [i] on; [e] is
    [outs.size()] and [rest] the paths from index [i]. The result is the
    local [implicit_outs]. *)
Fixpoint ParseEdge_outputs (edge env : nat) (e i : Z) (implicit_outs : Z)
    (rest : list EvalString) : M Z :=
  match rest with
  | [] => val implicit_outs
  | out :: rest' =>
    path <- Evaluate_ out env ;;
    match CanonicalizePath path with
    | inr path_err => return_Error path_err
    | inl (path, slash_bits) =>
      st <- get state_ ;;
      let '(added, st') := AddOut edge path slash_bits st in
      modify (set_state st') ;;;
      if negb added then
        opts <- get options_ ;;
        match dupe_edge_action_ opts with
        | kDupeEdgeActionError =>
          lexer_Error ("multiple rules generate " +:+ path +:+ " [-w dupbuild=err]") ;;;
          return_ false
        | kDupeEdgeActionWarn =>
          quiet <- get quiet_ ;;
          (if negb quiet then
             Warning ("multiple rules generate " +:+ path +:+ ". " +:+
                      "builds involving this target will not be correct; " +:+
                      "continuing anyway [-w dupbuild=warn]")
           else val tt) ;;;
          ParseEdge_outputs edge env e (i + 1)
            (if e - i <=? to_size_t implicit_outs then implicit_outs - 1 else implicit_outs)
            rest'
        end
      else ParseEdge_outputs edge env e (i + 1) implicit_outs rest'
    end
  end.

(** Lines 353-360: the loop over [ins]. *)
Fixpoint ParseEdge_inputs (edge env : nat) (ins : list EvalString) : M unit :=
  match ins with
  | [] => val tt
  | i :: ins' =>
    path <- Evaluate_ i env ;;
    match CanonicalizePath path with
    | inr path_err => return_Error path_err
    | inl (path, slash_bits) =>
      modify_state (AddIn edge path slash_bits) ;;;
      ParseEdge_inputs edge env ins'
    end
  end.

(** The edge behind an [Edge*]. *)
Definition get_edge (edge : nat) : M Edge :=
  fun s =>
    match edges_ (state_ s) !! edge with
    | Some e => Val e s
    | None => Val (mkEdge kPhonyRule kDefaultPool O [] [] 0 0 0 None) s
    end.

(** Lines 364-381: the filter of self-referencing edges. [std::remove]
    keeps the inputs that differ from [out], in their order; something was
    removed exactly when the list got shorter. *)
Definition ParseEdge_phonycycle (edge : nat) : M unit :=
  opts <- get options_ ;;
  e <- get_edge edge ;;
  match phony_cycle_action_ opts with
  | kPhonyCycleActionWarn =>
    if maybe_phonycycle_diagnostic e then
      match outputs_ e with
      | [] => val tt
      | out :: _ =>
        let kept := filter (fun n => n ≠ out) (inputs_ e) in
        if negb (length kept =? length (inputs_ e))%nat then
          modify_state (map_edge (set_inputs (fun _ => kept)) edge) ;;;
          quiet <- get quiet_ ;;
          if negb quiet then
            Warning ("phony target '" +:+ out +:+ "' names itself as an input; " +:+
                     "ignoring [-w phonycycle=warn]")
          else val tt
        else val tt
      end
    else val tt
  | kPhonyCycleActionError => val tt
  end.

(** Lines 383-389: several outputs with a [deps] binding. *)
Definition ParseEdge_deps (edge : nat) : M unit :=
  st <- get state_ ;;
  e <- get_edge edge ;;
  let deps_type := Edge_GetBinding st edge "deps" in
  if negb (String.eqb deps_type EmptyString) && (1 <? length (outputs_ e))%nat then
    return_Error ("multiple outputs aren't (yet?) supported by depslog; " +:+
                  "bring this up on the mailing list if it affects you")
  else val tt.

(** Lines 391-407: the [dyndep] binding. *)
Definition ParseEdge_dyndep (edge env : nat) : M unit :=
  st <- get state_ ;;
  let dyndep := Edge_GetUnescapedDyndep st edge in
  if negb (String.eqb dyndep EmptyString) then
    let dyndep := ApplyChdir st env dyndep in
    match CanonicalizePath dyndep with
    | inr e => modify (set_err e) ;;; return_ false
    | inl (dyndep, slash_bits) =>
      modify_state (GetNode dyndep env slash_bits) ;;;
      modify_state (map_edge (set_dyndep (Some dyndep)) edge) ;;;
      modify_state (map_node (set_dyndep_pending true) dyndep) ;;;
      e <- get_edge edge ;;
      if bool_decide (dyndep ∈ inputs_ e) then val tt
      else return_Error ("dyndep '" +:+ dyndep +:+ "' is not an input")
    end
  else val tt.

(** Lines 343-409 of [ParseEdge]: the edge after the loop over its
    outputs; [implicit_outs] is the local of that name. *)
Definition ParseEdge_link (edge : nat) (v : EdgeLocals) (implicit_outs : Z) : M bool :=
  e <- get_edge edge ;;
  if bool_decide (outputs_ e = []) then
    modify_state (set_edges (fun es => removelast es)) ;;;
    return_ true
  else
    modify_state (map_edge (set_implicit_outs implicit_outs) edge) ;;;
    ParseEdge_inputs edge (env v) (ins v) ;;;
    modify_state (map_edge (set_deps_counts (implicit v) (order_only v)) edge) ;;;
    ParseEdge_phonycycle edge ;;;
    ParseEdge_deps edge ;;;
    ParseEdge_dyndep edge (env v) ;;;
    return_ true.

(** Lines 308-409 of [ParseEdge]: building the edge. *)
Definition ParseEdge_build (v : EdgeLocals) : M bool :=
  edge <- (fun s => let '(edge, st') := AddEdge (rule v) (state_ s)
                    in Val edge (set_state st' s)) ;;
  modify_state (map_edge (set_edge_env (env v)) edge) ;;;
  ParseEdge_pool edge ;;;
  implicit_outs <- ParseEdge_outputs edge (env v) (Z.of_nat (length (outs v))) 0
                     (implicit_outs v) (outs v) ;;
  ParseEdge_link edge v implicit_outs.

(** [ManifestParser::ParseEdge] *)
Definition ParseEdge (fuel : nat) : M bool :=
  call (v <- ParseEdge_read fuel ;; ParseEdge_build v).

(** *** Inclusion *)

(** The locals of [ParseFileInclude] that its loop updates. *)
Record IncludeLocals := mkIncludeLocals {
  has_chdir : bool;
  prev_cwd : string;
  rel_path : string;
  ok : bool
}.

Definition not_ok (v : IncludeLocals) : IncludeLocals :=
  mkIncludeLocals (has_chdir v) (prev_cwd v) (rel_path v) false.

Definition Getcwd_ : M (string + string) :=
  fun s => let '(r, fr) := Getcwd (file_reader_ s) in Val r (set_file_reader fr s).
Definition Chdir_ (dir : string) : M (option string) :=
  fun s => let '(r, fr) := Chdir dir (file_reader_ s) in Val r (set_file_reader fr s).
Definition ReadFile_ (path : string) : M (string + string) :=
  fun s => let '(r, fr) := ReadFile path (file_reader_ s) in Val r (set_file_reader fr s).

(** Lines 427-465: the indented lines of an include or subninja statement.
    A [break] ends the loop with the locals as they are. *)
Fixpoint ParseFileInclude_bindings (fuel : nat) (new_scope : bool)
    (v : IncludeLocals) : M IncludeLocals :=
  match fuel with
  | O => out_of_fuel
  | S fuel' =>
    indent <- lex (PeekToken INDENT) ;;
    if negb indent then val v
    else
      olet <- ParseLet ;;
      match olet with
      | None => val (not_ok v)
      | Some (key, let_value) =>
        if negb (String.eqb key "chdir") then
          lexer_Error ("illegal key '" +:+ key +:+ "' (only 'chdir' is supported)") ;;;
          val (not_ok v)
        else if negb new_scope then
          lexer_Error "invalid use of 'chdir' in include line" ;;;
          val (not_ok v)
        else if has_chdir v then
          lexer_Error "duplicate 'chdir' in subninja" ;;;
          val (not_ok v)
        else
          penv <- get env_ ;;
          rel_path <- Evaluate_ let_value penv ;;
          cwd <- Getcwd_ ;;
          match cwd with
          | inr dir_err => modify (set_err ("Getcwd: " +:+ dir_err)) ;;; return_ false
          | inl prev_cwd =>
            r <- Chdir_ rel_path ;;
            match r with
            | Some dir_err =>
              modify (set_err ("Chdir to '" +:+ rel_path +:+ "': " +:+ dir_err)) ;;;
              return_ false
            | None =>
              ParseFileInclude_bindings fuel' new_scope
                (mkIncludeLocals true prev_cwd (rel_path +:+ "/") (ok v))
            end
          end
      end
  end.

(** Lines 481-487: every interned node whose path starts with [abs_path]
    gets the scope [env]. *)
Definition rehome (abs_path : string) (env : nat) (st : State) : State :=
  set_paths (map_imap (fun key node =>
               Some (if String.prefix abs_path key then ResetEnv env node else node))) st.

(** A nested [ManifestParser] on the same store and file reader: its own
    lexer, the scope [env], [quiet_] false. When it is done the fields of
    the calling parser are those of before. *)
Definition subparser (env : nat) (m : M bool) : M bool :=
  fun s =>
    let back s' :=
      mkPState (lexer_ s) (env_ s) (options_ s) (quiet_ s)
               (state_ s') (file_reader_ s') (err_ s') (warnings_ s') in
    match m (mkPState (lexer_ s) env (options_ s) false
                      (state_ s) (file_reader_ s) (err_ s) (warnings_ s)) with
    | Val b s' => Val b (back s')
    | Ret b s' => Val b (back s')
    | Exit s' => Exit (back s')
    | Fuel => Fuel
    end.

(** Modelled from the spec: [Parser::Load] of parser.cc, called with the
    lexer of the including parser: the file is read through the file
    reader; a read failure is described at the position of the including
    statement; the contents are parsed by [parse]. The lexer of the state
    it starts in is the one of the including parser. *)
Definition Load (parse : string -> string -> M bool) (filename : string) : M bool :=
  call (
    r <- ReadFile_ filename ;;
    match r with
    | inr read_err => return_Error ("loading '" +:+ filename +:+ "': " +:+ read_err)
    | inl contents => b <- parse filename contents ;; return_ b
    end).

(** Lines 467-496: the nested parse, when the statement was read without
    error. The result is the local [ok]. *)
Definition ParseFileInclude_nested (parse : string -> string -> M bool)
    (new_scope : bool) (path parent_path : string) (v : IncludeLocals) : M bool :=
  if ok v then
    penv <- get env_ ;;
    sub_env <-
      (if new_scope then
         e <- (fun s => let '(e, st') := new_BindingEnv penv (rel_path v)
                                           (parent_path +:+ rel_path v) (state_ s)
                        in Val e (set_state st' s)) ;;
         (if negb (String.eqb (rel_path v) EmptyString) then
            modify_state (AddRule e kPhonyRule) ;;;
            st <- get state_ ;;
            modify_state (rehome (AsString st e) e)
          else val tt) ;;;
         val e
       else val penv) ;;
    subparser sub_env (Load parse path)
  else val false.

(** Lines 498-509: the working directory is set back. *)
Definition ParseFileInclude_restore (v : IncludeLocals) (ok : bool) : M bool :=
  if has_chdir v then
    r <- Chdir_ (prev_cwd v) ;;
    match r with
    | Some dir_err =>
      if ok then
        modify (set_err ("restore cwd = '" +:+ prev_cwd v +:+ "': " +:+ dir_err)) ;;;
        return_ false
      else return_ ok
    | None => return_ ok
    end
  else return_ ok.

(** Lines 427-509: the rest of [ParseFileInclude] from its loop on, with
    the locals [v]. *)
Definition ParseFileInclude_from (parse : string -> string -> M bool) (fuel : nat)
    (new_scope : bool) (path parent_path : string) (v : IncludeLocals) : M bool :=
  v <- ParseFileInclude_bindings fuel new_scope v ;;
  ok <- ParseFileInclude_nested parse new_scope path parent_path v ;;
  ParseFileInclude_restore v ok.

(** [ManifestParser::ParseFileInclude]; [parse] is the [Parse] of the
    nested parser. *)
Definition ParseFileInclude (parse : string -> string -> M bool) (fuel : nat)
    (new_scope : bool) : M bool :=
  call (
    oeval <- ReadPath_ ;;
    match oeval with
    | None => return_ false
    | Some eval =>
      penv <- get env_ ;;
      path <- Evaluate_ eval penv ;;
      expected <- ExpectToken NEWLINE ;;
      require expected ;;;
      st <- get state_ ;;
      let parent_path := AsString st penv in
      ParseFileInclude_from parse fuel new_scope path parent_path
        (mkIncludeLocals false EmptyString EmptyString true)
    end).

(** *** The top-level loop *)

(** The [for (;;)] loop of [ManifestParser::Parse]; [parse] is the [Parse]
    of a nested parser. *)
Fixpoint Parse_statements (parse : string -> string -> M bool) (fuel : nat) : M bool :=
  match fuel with
  | O => out_of_fuel
  | S fuel' =>
    token <- lex ReadToken ;;
    match token with
    | POOL =>
      parsed <- ParsePool fuel' ;; require parsed ;;; Parse_statements parse fuel'
    | BUILD =>
      parsed <- ParseEdge fuel' ;; require parsed ;;; Parse_statements parse fuel'
    | RULE =>
      parsed <- ParseRule fuel' ;; require parsed ;;; Parse_statements parse fuel'
    | DEFAULT =>
      parsed <- ParseDefault fuel' ;; require parsed ;;; Parse_statements parse fuel'
    | IDENT =>
      lex (fun l => (tt, UnreadToken l)) ;;;
      olet <- ParseLet ;;
      match olet with
      | None => return_ false
      | Some (name, let_value) =>
        penv <- get env_ ;;
        value <- Evaluate_ let_value penv ;;
        (if String.eqb name "ninja_required_version" then
           if CheckNinjaVersion value then val tt else (fun s => Exit s)
         else val tt) ;;;
        modify_state (AddBinding penv name value) ;;;
        Parse_statements parse fuel'
      end
    | INCLUDE =>
      parsed <- ParseFileInclude parse fuel' false ;; require parsed ;;;
      Parse_statements parse fuel'
    | SUBNINJA =>
      parsed <- ParseFileInclude parse fuel' true ;; require parsed ;;;
      Parse_statements parse fuel'
    | ERROR =>
      d <- get (fun s => DescribeLastError (lexer_ s)) ;;
      return_Error d
    | TEOF => return_ true
    | NEWLINE => Parse_statements parse fuel'
    | _ => return_Error ("unexpected " +:+ TokenName token)
    end
  end.

(** [ManifestParser::Parse]. The bound [fuel] covers the nesting of
    inclusions and the iterations of every loop. *)
Fixpoint Parse (fuel : nat) (filename input : string) : M bool :=
  match fuel with
  | O => out_of_fuel
  | S fuel' =>
    call (
      modify (set_lexer (Start filename input)) ;;;
      Parse_statements (Parse fuel') fuel')
  end.

End Parser.

Notation "x <- m ;; k" := (bind m (fun x => k))
  (at level 100, m at next level, right associativity).
Notation "m ;;; k" := (bind m (fun _ => k))
  (at level 100, right associativity).

Arguments PState : clear implicits.
Arguments Res : clear implicits.
Arguments Val {L FR A} a s.
Arguments Ret {L FR A} b s.
Arguments Exit {L FR A} s.
Arguments Fuel {L FR A}.

(** ** Collaborators for running the parser on concrete statements *)

(** A lexer that replays a recorded sequence of answers: each read takes
    the next answer when it is of its kind. A path or value read that finds
    another kind of answer reads the empty template and leaves the answer
    in place, a token peek that finds another token leaves it in place. *)
Inductive Reply :=
| RToken (t : Token)
| RIdent (name : string)
| RPath (r : EvalString + string)
| RValue (r : EvalString + string).

Definition replay_ReadToken (l : list Reply) : Token * list Reply :=
  match l with
  | [] => (TEOF, [])
  | RToken t :: l' => (t, l')
  | _ :: l' => (ERROR, l')
  end.

Definition replay_PeekToken (t : Token) (l : list Reply) : bool * list Reply :=
  match l with
  | [] => (bool_decide (t = TEOF), [])
  | RToken t' :: l' => if bool_decide (t' = t) then (true, l') else (false, l)
  | _ => (false, l)
  end.

Definition replay_ReadIdent (l : list Reply) : option string * list Reply :=
  match l with
  | RIdent name :: l' => (Some name, l')
  | _ => (None, l)
  end.

Definition replay_ReadPath (l : list Reply) : (EvalString + string) * list Reply :=
  match l with
  | RPath r :: l' => (r, l')
  | _ => (inl [], l)
  end.

Definition replay_ReadVarValue (l : list Reply) : (EvalString + string) * list Reply :=
  match l with
  | RValue r :: l' => (r, l')
  | _ => (inl [], l)
  end.

Definition replay_TokenName (t : Token) : string :=
  match t with
  | ERROR => "lexing error" | BUILD => "'build'" | COLON => "':'"
  | DEFAULT => "'default'" | EQUALS => "'='" | IDENT => "identifier"
  | INCLUDE => "'include'" | INDENT => "indent" | NEWLINE => "newline"
  | PIPE => "'|'" | PIPE2 => "'||'" | POOL => "'pool'" | RULE => "'rule'"
  | SUBNINJA => "'subninja'" | TEOF => "eof"
  end.

(** The replaying lexer; [scripts] gives the answers recorded for each
    file name. *)
Definition replay_lexer (scripts : string -> list Reply) : Lexer (list Reply) := {|
  Start := fun filename _ => scripts filename;
  ReadToken := replay_ReadToken;
  UnreadToken := fun l => l;
  PeekToken := replay_PeekToken;
  ReadIdent := replay_ReadIdent;
  ReadPath := replay_ReadPath;
  ReadVarValue := replay_ReadVarValue;
  Error := fun msg _ => msg;
  DescribeLastError := fun _ => "lexing error";
  TokenName := replay_TokenName;
  TokenErrorHint := fun _ => EmptyString
|}.

(** A file reader over the names of the files and directories that exist
    and the current directory. *)
Record Disk := mkDisk {
  cwd : string;
  dirs : list string;
  files : list string
}.

Definition disk_reader : FileReader Disk := {|
  ReadFile := fun path d =>
    (if bool_decide (path ∈ files d) then inl EmptyString
     else inr "No such file or directory", d);
  Getcwd := fun d => (inl (cwd d), d);
  Chdir := fun dir d =>
    if bool_decide (dir ∈ dirs d) then (None, mkDisk dir (dirs d) (files d))
    else (Some "No such file or directory", d)
|}.

(** Stand-ins for the functions of util.cc, graph.cc, eval_env.cc and
    version.cc: only the empty path has no canonical form, an edge binding
    is the variable of that name in the scope of the edge, no directory
    prefix is applied, and the running tool accepts version 1.0 only. *)
Definition simple_externals : Externals := {|
  CanonicalizePath := fun path =>
    if String.eqb path EmptyString then inr "empty path" else inl (path, 0);
  Edge_GetBinding := fun st edge key => LookupVariable st (env_of_edge st edge) key;
  Edge_GetUnescapedDyndep := fun st edge => LookupVariable st (env_of_edge st edge) "dyndep";
  ApplyChdir := fun _ _ path => path;
  CheckNinjaVersion := fun v => String.eqb v "1.0"
|}.

(** The store of a fresh [State]: the root scope with the phony rule, the
    default pool and the console pool. *)
Definition new_State : State :=
  mkState ∅ (<["console" := mkPool "console" 1]> (<[EmptyString := kDefaultPool]> ∅)) []
          [mkBindingEnv ∅ (<["phony" := kPhonyRule]> ∅) None EmptyString EmptyString] [].

(** A parser on a fresh store, reading the recorded answers [l]. *)
Definition new_parser (opts : ManifestParserOptions) (l : list Reply) (d : Disk)
    : PState (list Reply) Disk :=
  mkPState l O opts false new_State d EmptyString [].

(** ** What the lexer hands to the statement handlers *)

Section Reads.

Context {L : Type} {lexer : Lexer L}.

(** The first [n] indented [key = value] lines that the lexer yields from
    [l] on, and the lexer after them; [None] when one of them does not
    read as such a line. *)
Fixpoint read_lets (n : nat) (l : L) : option (list (string * EvalString) * L) :=
  match n with
  | O => Some ([], l)
  | S n' =>
    let '(indent, l1) := PeekToken INDENT l in
    if indent then
      match ReadIdent l1 with
      | (Some key, l2) =>
        match ReadToken l2 with
        | (EQUALS, l3) =>
          match ReadVarValue l3 with
          | (inl value, l4) =>
            match read_lets n' l4 with
            | Some (bs, l') => Some ((key, value) :: bs, l')
            | None => None
            end
          | _ => None
          end
        | _ => None
        end
      | _ => None
      end
    else None
  end.

End Reads.

(** Following the spec's words: a value that parses as a non-negative
    integer is a non-empty run of decimal digits. *)
Definition parses_as_non_negative_integer (s : string) : bool :=
  negb (String.eqb s EmptyString) &&
  forallb (fun c => match digit_val c with Some _ => true | None => false end)
          (String.list_ascii_of_string s).

(** * Vocabulary of the properties *)

Section Vocabulary.

Context {L FR : Type} {lexer : Lexer L} {file_reader : FileReader FR}
  {externals : Externals}.

Implicit Types (s : PState L FR) (l : L) (st : State).

(** The depth that a [depth = value] line of a pool statement gives. *)
Definition pool_depth s (value : EvalString) : Z :=
  to_int (atol (Evaluate (state_ s) (env_ s) value)).

(** [wp m Q R E F s]: started in [s], the run of [m] ends in a state that
    satisfies [Q] when it completes, [R] when it returns from the enclosing
    function, [E] when the process exits; [F] holds when the loop bound is
    used up. *)
Definition wp {A} (m : M A) (Q : A -> PState L FR -> Prop)
    (R : bool -> PState L FR -> Prop) (E : PState L FR -> Prop) (F : Prop) s : Prop :=
  match m s with
  | Val a s' => Q a s'
  | Ret b s' => R b s'
  | Exit s' => E s'
  | Fuel => F
  end.

(** Only the lexer and the error string differ between [s] and [s']. *)
Definition same_store s s' : Prop :=
  state_ s' = state_ s /\ env_ s' = env_ s /\ options_ s' = options_ s /\
  quiet_ s' = quiet_ s /\ file_reader_ s' = file_reader_ s /\
  warnings_ s' = warnings_ s.

(** A piece of the parser that touches the lexer and the error string
    only, has no loop, never exits, and whose [return]s give a value that
    satisfies [Rb]. *)
Definition lexer_only_by {A} (Rb : bool -> Prop) (m : M A) : Prop :=
  forall s, wp m (fun _ s' => same_store s s') (fun b s' => Rb b /\ same_store s s')
               (fun _ => False) False s.

(** The same for a function body, which may return anything. *)
Definition lexer_only_body {A} (m : M A) : Prop := lexer_only_by (fun _ => True) m.

(** Every binding of the rule has a reserved name. *)
Definition reserved_keys (r : Rule) : Prop :=
  forall k, is_Some (rule_bindings_ r !! k) -> IsReservedBinding k = true.

(** What [rule->bindings_[key]] reads. *)
Definition binding_of (r : Rule) (key : string) : EvalString :=
  default [] (rule_bindings_ r !! key).

(** What a run of [ParseRule] leaves: on success one valid rule added to
    the scope of the parser, on failure the store of before. *)
Definition ParseRule_post s (b : bool) s' : Prop :=
  if b then
    exists rule,
      state_ s' = AddRule (env_ s) rule (state_ s) /\
      LookupRuleCurrentScope (state_ s) (env_ s) (rule_name_ rule) = None /\
      reserved_keys rule /\
      empty (binding_of rule "command") = false /\
      empty (binding_of rule "rspfile") = empty (binding_of rule "rspfile_content")
  else state_ s' = state_ s.

(** The canonical paths and separator markers of the outputs of a build
    statement, when every one of them has a canonical form. *)
Fixpoint canonical_outs (st : State) (env : nat) (outs : list EvalString)
    : option (list (string * Z)) :=
  match outs with
  | [] => Some []
  | out :: outs' =>
    match CanonicalizePath (Evaluate st env out) with
    | inl p =>
      match canonical_outs st env outs' with
      | Some ps => Some (p :: ps)
      | None => None
      end
    | inr _ => None
    end
  end.

(** Which of the paths [ps] are duplicates, in the order of the statement:
    a path is one when it has a producing edge already, from an earlier
    statement ([produced]) or as an earlier output of this statement. *)
Fixpoint drops (produced : string -> bool) (ps : list string) : list bool :=
  match ps with
  | [] => []
  | p :: ps' =>
    if produced p then true :: drops produced ps'
    else false :: drops (fun q => produced q || String.eqb q p) ps'
  end.

(** The paths of [ps] that are not duplicates. *)
Fixpoint kept (produced : string -> bool) (ps : list string) : list string :=
  match ps with
  | [] => []
  | p :: ps' =>
    if produced p then kept produced ps'
    else p :: kept (fun q => produced q || String.eqb q p) ps'
  end.

(** The number of duplicates among the last [n] of the flags: the
    duplicates that are implicit outputs when [n] outputs are implicit. *)
Definition dropped_implicit (n : Z) (flags : list bool) : Z :=
  Z.of_nat (length (filter (fun d => d = true)
                           (drop (length flags - Z.to_nat n) flags))).

(** The first duplicate among the paths [ps], if there is one. *)
Fixpoint first_duplicate (produced : string -> bool) (ps : list string) : option string :=
  match ps with
  | [] => None
  | p :: ps' =>
    if produced p then Some p
    else first_duplicate (fun q => produced q || String.eqb q p) ps'
  end.

(** The store once the new edge of a build statement has been added and
    given its scope (lines 308-309). *)
Definition edge_added (v : EdgeLocals) (st : State) : State :=
  map_edge (set_edge_env (env v)) (length (edges_ st)) (AddEdge (rule v) st).2.

(** The [pool] binding of the new edge is empty or names a known pool. *)
Definition pool_resolves (v : EdgeLocals) (st : State) : Prop :=
  let name := Edge_GetBinding (edge_added v st) (length (edges_ st)) "pool" in
  name = EmptyString \/ is_Some (LookupPool (edge_added v st) name).

(** What a run of [ParsePool] leaves: on success one pool added, under
    the name that the statement gives and with a depth that is a
    non-negative [int]; on failure the store of before. *)
Definition ParsePool_post s (b : bool) s' : Prop :=
  if b then
    exists name l1 depth,
      ReadIdent (lexer_ s) = (Some name, l1) /\
      LookupPool (state_ s) name = None /\
      0 <= depth < 2 ^ 31 /\
      state_ s' = AddPool (mkPool name depth) (state_ s)
  else state_ s' = state_ s.

(** The next [n] paths that the lexer yields from [l] on, none of them
    the empty one that ends a list of paths, and the lexer after them. *)
Fixpoint next_paths (n : nat) (l : L) : option (list EvalString * L) :=
  match n with
  | O => Some ([], l)
  | S n' =>
    match ReadPath l with
    | (inl path, l1) =>
      if empty path then None
      else match next_paths n' l1 with
           | Some (paths, l') => Some (path :: paths, l')
           | None => None
           end
    | (inr _, _) => None
    end
  end.

(** Between [s] and [s'] the default targets have grown by [added], all
    of them paths with a node in the store of [s]; the nodes, pools, edges
    and scopes and the scope of the parser are the same. *)
Definition defaults_grow s s' (added : list string) : Prop :=
  paths_ (state_ s') = paths_ (state_ s) /\
  pools_ (state_ s') = pools_ (state_ s) /\
  edges_ (state_ s') = edges_ (state_ s) /\
  scopes_ (state_ s') = scopes_ (state_ s) /\
  env_ s' = env_ s /\
  defaults_ (state_ s') = defaults_ (state_ s) ++ added /\
  Forall (fun p => is_Some (paths_ (state_ s) !! p)) added.

(** The fields of the parser itself and what it prints are the same in
    [s] and [s']: only the lexer, the error string and the store may
    differ. *)
Definition same_parser s s' : Prop :=
  env_ s' = env_ s /\ options_ s' = options_ s /\ quiet_ s' = quiet_ s /\
  file_reader_ s' = file_reader_ s /\ warnings_ s' = warnings_ s.

(** The store [st'] is [st] with one more scope, a child of [penv] without
    rules: the nodes, pools, edges, default targets and the scopes of [st]
    are as they were. *)
Definition scope_added (penv : nat) st st' : Prop :=
  paths_ st' = paths_ st /\ pools_ st' = pools_ st /\ edges_ st' = edges_ st /\
  defaults_ st' = defaults_ st /\
  exists be, scopes_ st' = scopes_ st ++ [be] /\ parent_ be = Some penv /\ rules_ be = ∅.

(** What [ParseEdge] holds in its locals once a build statement is read:
    at least one output, the implicit outputs counted among them, and the
    inputs in three blocks (explicit, implicit, order-only) with the sizes
    of the last two counted. *)
Definition locals_well_formed (v : EdgeLocals) : Prop :=
  outs v <> [] /\
  0 <= implicit_outs v <= Z.of_nat (length (outs v)) /\
  exists explicit implicit_ins order_only_ins,
    ins v = explicit ++ implicit_ins ++ order_only_ins /\
    implicit v = Z.of_nat (length implicit_ins) /\
    order_only v = Z.of_nat (length order_only_ins).

(** Where the store stands once a parser that started in [s] has read a
    build statement whose edge gets the scope [env]: as it was, the edge in
    the scope of the parser; or with one more scope, made for the edge. *)
Definition edge_scope_of s (env : nat) s' : Prop :=
  (env = env_ s /\ state_ s' = state_ s) \/
  (env = length (scopes_ (state_ s)) /\ scope_added (env_ s) (state_ s) (state_ s')).

(** The scopes of a store are well founded: the parent of a scope is an
    older scope, one with a smaller index. *)
Definition scopes_wf (scopes : list BindingEnv) : Prop :=
  forall i be p, scopes !! i = Some be -> parent_ be = Some p -> (p < i)%nat.

(** Every outcome of the run of [m] from [s] leaves a store that
    satisfies [P]; [keeps G m]: every outcome of [m] leaves a store that is
    related by [G] to the one it started from. *)
Definition ends_in {A} (P : State -> Prop) (m : M A) s : Prop :=
  wp m (fun _ s' => P (state_ s')) (fun _ s' => P (state_ s'))
       (fun s' => P (state_ s')) True s.

Definition keeps {A} (G : State -> State -> Prop) (m : M A) : Prop :=
  forall s, ends_in (G (state_ s)) m s.

(** The producing edges between two stores, [edge] being the edge under
    construction: a node of [st] is a node of [st'] with the producer it
    had, or with [edge] as its producer when it had none; a node that [st]
    does not have has no producer in [st'] or has [edge]. *)
Definition producers_kept (edge : nat) st st' : Prop :=
  forall q,
    match paths_ st !! q with
    | Some n =>
      exists n', paths_ st' !! q = Some n' /\
        (in_edge_ n' = in_edge_ n \/ (in_edge_ n = None /\ in_edge_ n' = Some edge))
    | None =>
      forall n', paths_ st' !! q = Some n' ->
        in_edge_ n' = None \/ in_edge_ n' = Some edge
    end.

(** What the linking of the edge [edge] keeps of the store: the pools,
    the default targets, the scopes, every other edge, and the producers
    as [producers_kept] says. *)
Definition link_inv (edge : nat) st st' : Prop :=
  pools_ st' = pools_ st /\ defaults_ st' = defaults_ st /\
  scopes_ st' = scopes_ st /\
  length (edges_ st') = length (edges_ st) /\
  (forall i, i <> edge -> edges_ st' !! i = edges_ st !! i) /\
  producers_kept edge st st'.

(** What the building of an edge keeps of the store: the pools, the
    default targets and the scopes; the edges, with at most one edge
    appended; and the producers, the new edge being the one at the end of
    the edges of [st]. *)
Definition build_inv st st' : Prop :=
  pools_ st' = pools_ st /\ defaults_ st' = defaults_ st /\
  scopes_ st' = scopes_ st /\
  (edges_ st' = edges_ st \/ exists e, edges_ st' = edges_ st ++ [e]) /\
  producers_kept (length (edges_ st)) st st'.

(** The edge [edge] is recorded among the consumers of the node of
    [path]. *)
Definition consumes st (edge : nat) (path : string) : Prop :=
  exists node, paths_ st !! path = Some node /\ edge ∈ out_edges_ node.

(** The parser [s] with its [quiet_] flag set to [q]; and an outcome with
    its final state changed by [f]. *)
Definition set_quiet (q : bool) s : PState L FR :=
  mkPState (lexer_ s) (env_ s) (options_ s) q (state_ s) (file_reader_ s) (err_ s)
           (warnings_ s).

Definition with_state {A} (f : PState L FR -> PState L FR) (r : Res L FR A) : Res L FR A :=
  match r with
  | Val a s => Val a (f s)
  | Ret b s => Ret b (f s)
  | Exit s => Exit (f s)
  | Fuel => Fuel
  end.

(** A piece of the parser that does not look at the [quiet_] flag: it
    runs in the same way whatever the flag, and leaves it as it is. *)
Definition quiet_blind {A} (m : M A) : Prop :=
  forall q s, m (set_quiet q s) = with_state (set_quiet q) (m s).

(** What the parser never undoes, between a store [st] and a later store
    [st']: a pool that is declared stays declared as it is; a scope stays
    where it is, with its parent and with the rules it has; the edges and
    the default targets are only appended to; a node stays, and with the
    producing edge it has. *)
Definition graph_mono st st' : Prop :=
  (forall name p, pools_ st !! name = Some p -> pools_ st' !! name = Some p) /\
  (forall env be, scopes_ st !! env = Some be ->
     exists be', scopes_ st' !! env = Some be' /\ parent_ be' = parent_ be /\
       forall name r, rules_ be !! name = Some r -> rules_ be' !! name = Some r) /\
  (exists added, edges_ st' = edges_ st ++ added) /\
  (exists added, defaults_ st' = defaults_ st ++ added) /\
  (forall q n, paths_ st !! q = Some n ->
     exists n', paths_ st' !! q = Some n' /\
       forall e, in_edge_ n = Some e -> in_edge_ n' = Some e).

(** Between [st] and [st'] the edge behind [edge], when there is one,
    keeps its outputs and its count of implicit outputs. *)
Definition edge_outputs_kept (edge : nat) st st' : Prop :=
  forall e, edges_ st !! edge = Some e ->
    exists e', edges_ st' !! edge = Some e' /\ outputs_ e' = outputs_ e /\
               implicit_outs_ e' = implicit_outs_ e.

(** The run of [m] always ends, by completing or by a [return], never by
    an exit and within any loop bound, and leaves a store that [G] relates
    to the one it started from. *)
Definition returns_keeping {A} (G : State -> State -> Prop) (m : M A) : Prop :=
  forall s, wp m (fun _ s' => G (state_ s) (state_ s'))
                 (fun _ s' => G (state_ s) (state_ s'))
                 (fun _ => False) False s.

End Vocabulary.

(** * Concrete statements *)

(** The parser over the replaying lexer, the disk of names and the
    stand-in collaborators. *)
Definition no_scripts : string -> list Reply := fun _ => [].
Definition warn_options : ManifestParserOptions :=
  mkOptions kDupeEdgeActionWarn kPhonyCycleActionWarn.
Definition error_options : ManifestParserOptions :=
  mkOptions kDupeEdgeActionError kPhonyCycleActionWarn.
Definition empty_disk : Disk := mkDisk "/build" [] [].

(** The answers of the lexer on [pool p], [depth = 3], [depth = 5], after
    the [pool] keyword. *)
Definition pool_two_depths : list Reply :=
  [RIdent "p"; RToken NEWLINE;
   RToken INDENT; RIdent "depth"; RToken EQUALS; RValue (inl [RAW "3"]);
   RToken INDENT; RIdent "depth"; RToken EQUALS; RValue (inl [RAW "5"])].

(** The answers on [pool p], [depth = abc]. *)
Definition pool_depth_abc : list Reply :=
  [RIdent "p"; RToken NEWLINE;
   RToken INDENT; RIdent "depth"; RToken EQUALS; RValue (inl [RAW "abc"])].

(** The answers on [rule cat], [depfile = x]: a rule without command. *)
Definition rule_without_command : list Reply :=
  [RIdent "cat"; RToken NEWLINE;
   RToken INDENT; RIdent "depfile"; RToken EQUALS; RValue (inl [RAW "x"])].

(** The state in which a run ends, and the answer of a function. *)
Definition final_state {L FR A} (r : Res L FR A) : option (PState L FR) :=
  match r with
  | Val _ s => Some s
  | Ret _ s => Some s
  | Exit s => Some s
  | Fuel => None
  end.

Definition answer {L FR} (r : Res L FR bool) : option bool :=
  match r with
  | Val b _ => Some b
  | Ret b _ => Some b
  | _ => None
  end.

(** The answers on [build out: phony a], after the [build] keyword, and
    the parser after that statement. *)
Definition build_out_from_a : list Reply :=
  [RPath (inl [RAW "out"]); RToken COLON; RIdent "phony";
   RPath (inl [RAW "a"]); RToken NEWLINE].

Definition after_build_out (opts : ManifestParserOptions) : PState (list Reply) Disk :=
  match final_state (ParseEdge (lexer := replay_lexer no_scripts)
                       (externals := simple_externals) 5
                       (new_parser opts build_out_from_a empty_disk)) with
  | Some s => s
  | None => new_parser opts [] empty_disk
  end.

(** The answers on the manifest [build out: phony a], [build out: phony b],
    recorded under the file name [twice.ninja]. *)
Definition twice_scripts (filename : string) : list Reply :=
  if String.eqb filename "twice.ninja" then
    [RToken BUILD; RPath (inl [RAW "out"]); RToken COLON; RIdent "phony";
     RPath (inl [RAW "a"]); RToken NEWLINE;
     RToken BUILD; RPath (inl [RAW "out"]); RToken COLON; RIdent "phony";
     RPath (inl [RAW "b"]); RToken NEWLINE]
  else [].

(** The locals of a second statement [build out: phony b]. *)
Definition build_out_from_b : EdgeLocals :=
  mkEdgeLocals [[RAW "out"]] 0 kPhonyRule [[RAW "b"]] 0 0 O.

(** The locals of a second statement [build x out | y out: phony b], with
    two implicit outputs. *)
Definition build_four_outputs : EdgeLocals :=
  mkEdgeLocals [[RAW "x"]; [RAW "out"]; [RAW "y"]; [RAW "out"]] 2 kPhonyRule
               [[RAW "b"]] 0 0 O.

(** The answers on [build | imp: phony bar] and on [build : phony bar],
    after the [build] keyword. *)
Definition build_implicit_only : list Reply :=
  [RToken PIPE; RPath (inl [RAW "imp"]); RToken COLON; RIdent "phony";
   RPath (inl [RAW "bar"]); RToken NEWLINE].

Definition build_no_output : list Reply :=
  [RToken COLON; RIdent "phony"; RPath (inl [RAW "bar"]); RToken NEWLINE].

(** The answers of the lexer on the manifests [build a | #$%] and
    [build a: phony b | #$%]: the path after the pipe has a bad escape, and
    what follows the place of the error reads as a comment and the end of
    the input. *)
Definition bad_path_scripts (filename : string) : list Reply :=
  if String.eqb filename "bad_implicit_out.ninja" then
    [RToken BUILD; RPath (inl [RAW "a"]); RToken PIPE;
     RPath (inr "bad $-escape (literal $ must be written as $$)")]
  else if String.eqb filename "bad_implicit_in.ninja" then
    [RToken BUILD; RPath (inl [RAW "a"]); RToken COLON; RIdent "phony";
     RPath (inl [RAW "b"]); RToken PIPE;
     RPath (inr "bad $-escape (literal $ must be written as $$)")]
  else [].

(** An edge of the rule [cc] whose single output [a] is twice among its
    inputs. *)
Definition self_referencing : PState (list Reply) Disk :=
  set_state
    (set_edges (fun _ => [mkEdge (mkRule "cc" ∅) kDefaultPool O ["a"; "b"; "a"] ["a"]
                                 0 0 0 None]) new_State)
    (new_parser warn_options [] empty_disk).

(** The answers on [build out: phony in dd] with the binding
    [restat = 1], after the [build] keyword; and the parser after that
    statement, with [dyndep = other] added to the scope of its edge: an
    edge whose dyndep binding names a path that is not among its inputs. *)
Definition build_with_binding : list Reply :=
  [RPath (inl [RAW "out"]); RToken COLON; RIdent "phony";
   RPath (inl [RAW "in"]); RPath (inl [RAW "dd"]); RToken NEWLINE;
   RToken INDENT; RIdent "restat"; RToken EQUALS; RValue (inl [RAW "1"])].


(** What a run of [Parse] on a fresh store reports: its answer, the error
    string, the outputs of the edges and the warnings. *)
Definition parse_report (scripts : string -> list Reply) (opts : ManifestParserOptions)
    (filename : string)
    : option bool * option string * option (list (list string)) * option (list string) :=
  let r := Parse (lexer := replay_lexer scripts) (file_reader := disk_reader)
                 (externals := simple_externals) 5 filename EmptyString
                 (new_parser opts [] empty_disk) in
  (answer r, err_ <$> final_state r,
   (fun s => outputs_ <$> edges_ (state_ s)) <$> final_state r,
   warnings_ <$> final_state r).

(** The answers on the line [chdir = sub] of [subninja sub.ninja], on a
    disk where the directory [sub] exists and the starting directory cannot
    be entered again; the included file is empty. *)
Definition subninja_chdir_line : list Reply :=
  [RToken INDENT; RIdent "chdir"; RToken EQUALS; RValue (inl [RAW "sub"])].

Definition sub_disk : Disk := mkDisk "/build" ["sub"] ["sub.ninja"].

(** The answers on [ninja_required_version = 9.9] followed by text that
    does not lex. *)
Definition required_version_then_garbage : list Reply :=
  [RToken IDENT; RIdent "ninja_required_version"; RToken EQUALS; RValue (inl [RAW "9.9"]);
   RToken ERROR; RToken ERROR].

(** The parser in which a run ends, [d] when the loop bound was used
    up. *)
Definition final_parser {L FR A} (r : Res L FR A) (d : PState L FR) : PState L FR :=
  match final_state r with
  | Some s => s
  | None => d
  end.

(** The parser after the pool statement [pool p], [depth = 3],
    [depth = 5]. *)
Definition after_pool_two_depths : PState (list Reply) Disk :=
  final_parser (ParsePool (lexer := replay_lexer no_scripts) 5
                  (new_parser warn_options pool_two_depths empty_disk))
               (new_parser warn_options [] empty_disk).

(** The answers on [pool p], [depth = 3], [width = 1]. *)
Definition pool_then_width : list Reply :=
  [RIdent "p"; RToken NEWLINE;
   RToken INDENT; RIdent "depth"; RToken EQUALS; RValue (inl [RAW "3"]);
   RToken INDENT; RIdent "width"; RToken EQUALS; RValue (inl [RAW "1"])].

(** The answers on [rule cat], [command = cat], and the parser after that
    statement. *)
Definition rule_cat : list Reply :=
  [RIdent "cat"; RToken NEWLINE;
   RToken INDENT; RIdent "command"; RToken EQUALS; RValue (inl [RAW "cat"])].

Definition after_rule_cat : PState (list Reply) Disk :=
  final_parser (ParseRule (lexer := replay_lexer no_scripts) 5
                  (new_parser warn_options rule_cat empty_disk))
               (new_parser warn_options [] empty_disk).

(** After [build out: phony a]: the answers on [default out a] and on
    [default out nope], after the [default] keyword. *)
Definition default_out_a : PState (list Reply) Disk :=
  set_lexer [RPath (inl [RAW "out"]); RPath (inl [RAW "a"]); RToken NEWLINE]
            (after_build_out warn_options).

Definition default_out_nope : PState (list Reply) Disk :=
  set_lexer [RPath (inl [RAW "out"]); RPath (inl [RAW "nope"]); RToken NEWLINE]
            (after_build_out warn_options).

(** The locals and the parser once [build out: phony in dd] with the
    binding [restat = 1] has been read. *)
Definition locals_of_build_with_binding : EdgeLocals :=
  mkEdgeLocals [[RAW "out"]] 0 kPhonyRule [[RAW "in"]; [RAW "dd"]] 0 0 1.

Definition read_build_with_binding : PState (list Reply) Disk :=
  final_parser (ParseEdge_read (lexer := replay_lexer no_scripts) 5
                  (new_parser warn_options build_with_binding empty_disk))
               (new_parser warn_options [] empty_disk).

(** A store in which the root scope binds [x] to [outer] and a second
    scope is its child; and a parser of the root scope that stands after the
    indentation of the lines [x = inner], [y = $x]. *)
Definition two_scopes : State :=
  set_scopes (fun _ => [mkBindingEnv (<["x" := "outer"]> ∅) (<["phony" := kPhonyRule]> ∅)
                                     None EmptyString EmptyString;
                        mkBindingEnv ∅ ∅ (Some O) EmptyString EmptyString])
             new_State.

Definition x_then_y : PState (list Reply) Disk :=
  set_state two_scopes
    (new_parser warn_options
       [RIdent "x"; RToken EQUALS; RValue (inl [RAW "inner"]);
        RToken INDENT; RIdent "y"; RToken EQUALS; RValue (inl [SPECIAL "x"])]
       empty_disk).

(** The parser after the manifest [twice.ninja]. *)
Definition after_twice : PState (list Reply) Disk :=
  final_parser (Parse (lexer := replay_lexer twice_scripts) (file_reader := disk_reader)
                  (externals := simple_externals) 5 "twice.ninja" EmptyString
                  (new_parser warn_options [] empty_disk))
               (new_parser warn_options [] empty_disk).

(** The answers on [include x.ninja] and on [subninja x.ninja], each with
    the line [chdir = nowhere], after the keyword. *)
Definition inclusion_with_chdir : list Reply :=
  [RPath (inl [RAW "x.ninja"]); RToken NEWLINE;
   RToken INDENT; RIdent "chdir"; RToken EQUALS; RValue (inl [RAW "nowhere"])].

(** A parser on a store whose second scope binds [pool] to [nope], and
    the locals of a build statement [build x: phony] in that scope. *)
Definition pool_nope : PState (list Reply) Disk :=
  set_state (AddBinding 1 "pool" "nope" two_scopes) (new_parser warn_options [] empty_disk).

Definition build_x_in_scope : EdgeLocals :=
  mkEdgeLocals [[RAW "x"]] 0 kPhonyRule [] 0 0 1.


(** * Properties *)

Section Properties.

Context {L FR : Type} {lexer : Lexer L} {file_reader : FileReader FR}
  {externals : Externals}.

Implicit Types (s : PState L FR) (l : L) (st : State).

Local Abbreviation lexer_only_by := (lexer_only_by (L:=L) (FR:=FR)).
Local Abbreviation lexer_only_body := (lexer_only_body (L:=L) (FR:=FR)).

(** *** Pool statements *)

Lemma default_last_cons {A} (d x : A) (xs : list A) :
  default d (last (x :: xs)) = default x (last xs).
Proof.
  revert d x. induction xs as [|y xs IH]; intros d x; [reflexivity|].
  change (last (x :: y :: xs)) with (last (y :: xs)).
  rewrite !IH. reflexivity.
Qed.

Lemma ParseLet_reads s key value l1 l2 l3 :
  ReadIdent (lexer_ s) = (Some key, l1) ->
  ReadToken l1 = (EQUALS, l2) ->
  ReadVarValue l2 = (inl value, l3) ->
  ParseLet s = Val (Some (key, value)) (set_lexer l3 s).
Proof.
  intros H1 H2 H3.
  unfold ParseLet, call_out, bind, lex. rewrite H1. simpl.
  unfold ExpectToken, call, bind, lex. simpl. rewrite H2. simpl.
  unfold ReadVarValue_, bind, lex. simpl. rewrite H3. reflexivity.
Qed.

(** One more line of a pool statement, read and accepted. *)
Lemma ParsePool_bindings_step fuel depth s key value l1 l2 l3 l4 :
  PeekToken INDENT (lexer_ s) = (true, l1) ->
  ReadIdent l1 = (Some key, l2) ->
  ReadToken l2 = (EQUALS, l3) ->
  ReadVarValue l3 = (inl value, l4) ->
  key = "depth" ->
  ParsePool_bindings (S fuel) depth s =
    if pool_depth s value <? 0
    then Ret false (set_err (Error "invalid pool depth" l4) (set_lexer l4 s))
    else ParsePool_bindings fuel (pool_depth s value) (set_lexer l4 s).
Proof.
  intros Hp H1 H2 H3 ->. simpl.
  unfold bind at 1. unfold lex at 1. rewrite Hp. simpl.
  unfold bind at 1.
  rewrite (ParseLet_reads (set_lexer l1 s) "depth" value l2 l3 l4) by assumption.
  simpl. unfold bind, get, Evaluate_, get. simpl.
  fold (pool_depth s value).
  destruct (pool_depth s value <? 0); reflexivity.
Qed.

Lemma read_lets_S n l bs l' :
  read_lets (S n) l = Some (bs, l') ->
  exists key value bs' l1 l2 l3 l4,
    bs = (key, value) :: bs' /\
    PeekToken INDENT l = (true, l1) /\ ReadIdent l1 = (Some key, l2) /\
    ReadToken l2 = (EQUALS, l3) /\ ReadVarValue l3 = (inl value, l4) /\
    read_lets n l4 = Some (bs', l').
Proof.
  simpl. destruct (PeekToken INDENT l) as [[] l1] eqn:E0; [|discriminate].
  destruct (ReadIdent l1) as [[key|] l2] eqn:E1; [|discriminate].
  destruct (ReadToken l2) as [[] l3] eqn:E2; try discriminate.
  destruct (ReadVarValue l3) as [[value|] l4] eqn:E3; [|discriminate].
  destruct (read_lets n l4) as [[bs' l'']|] eqn:E4; [|discriminate].
  intros [= <- <-]. exists key, value, bs', l1, l2, l3, l4.
  repeat split; assumption.
Qed.

Lemma read_lets_length n l bs l' :
  read_lets n l = Some (bs, l') -> length bs = n.
Proof.
  revert l bs. induction n as [|n IH]; intros l bs.
  - intros [= <- <-]. reflexivity.
  - intros Hr. apply read_lets_S in Hr
      as (key & value & bs' & l1 & l2 & l3 & l4 & -> & _ & _ & _ & _ & Hr).
    simpl. f_equal. eapply IH, Hr.
Qed.

(** The loop of [ParsePool] over lines that are all accepted. *)
Lemma ParsePool_bindings_accept n : forall fuel depth s bs l' l'',
  read_lets n (lexer_ s) = Some (bs, l') ->
  PeekToken INDENT l' = (false, l'') ->
  Forall (fun b => b.1 = "depth") bs ->
  Forall (fun b => 0 <= pool_depth s b.2) bs ->
  (n < fuel)%nat ->
  ParsePool_bindings fuel depth s =
    Val (default depth (last (map (fun b => pool_depth s b.2) bs))) (set_lexer l'' s).
Proof.
  induction n as [|n IH]; intros fuel depth s bs l' l'' Hr Hp Hk Hv Hf;
    (destruct fuel as [|fuel]; [lia|]).
  - injection Hr as <- <-. simpl. unfold bind, lex. rewrite Hp. reflexivity.
  - apply read_lets_S in Hr
      as (key & value & bs' & l1 & l2 & l3 & l4 & -> & Hi & H1 & H2 & H3 & Hr).
    apply Forall_cons in Hk as [Hk Hks]. apply Forall_cons in Hv as [Hv Hvs].
    simpl in Hk, Hv.
    rewrite (ParsePool_bindings_step fuel depth s key value l1 l2 l3 l4) by assumption.
    destruct (pool_depth s value <? 0) eqn:E; [apply Z.ltb_lt in E; lia|].
    rewrite (IH fuel (pool_depth s value) (set_lexer l4 s) bs' l' l'');
      try assumption; try lia.
    simpl. rewrite default_last_cons. reflexivity.
Qed.

(** The loop of [ParsePool] when one of the lines has a negative depth. *)
Lemma ParsePool_bindings_reject n : forall fuel depth s bs l',
  read_lets n (lexer_ s) = Some (bs, l') ->
  Forall (fun b => b.1 = "depth") bs ->
  Exists (fun b => pool_depth s b.2 < 0) bs ->
  (n <= fuel)%nat ->
  exists l, ParsePool_bindings fuel depth s =
              Ret false (set_err (Error "invalid pool depth" l) (set_lexer l s)).
Proof.
  induction n as [|n IH]; intros fuel depth s bs l' Hr Hk Hv Hf.
  - injection Hr as <- <-. inversion Hv.
  - destruct fuel as [|fuel]; [lia|].
    apply read_lets_S in Hr
      as (key & value & bs' & l1 & l2 & l3 & l4 & -> & Hi & H1 & H2 & H3 & Hr).
    apply Forall_cons in Hk as [Hk Hks]. simpl in Hk.
    rewrite (ParsePool_bindings_step fuel depth s key value l1 l2 l3 l4) by assumption.
    destruct (pool_depth s value <? 0) eqn:E; [eauto|].
    apply Z.ltb_ge in E.
    apply Exists_cons in Hv as [Hv|Hv]; [simpl in Hv; lia|].
    destruct (IH fuel (pool_depth s value) (set_lexer l4 s) bs' l') as [l Hl];
      try assumption; try lia.
    exists l. rewrite Hl. reflexivity.
Qed.

(** The head of a pool statement: its name, the end of the line and the
    duplicate check. *)
Lemma ParsePool_head fuel s name l1 l2 :
  ReadIdent (lexer_ s) = (Some name, l1) ->
  ReadToken l1 = (NEWLINE, l2) ->
  LookupPool (state_ s) name = None ->
  ParsePool fuel s =
    call (depth <- ParsePool_bindings fuel (-1) ;;
          if depth <? 0 then return_Error "expected 'depth =' line"
          else modify_state (AddPool (mkPool name depth)) ;;; return_ true)
         (set_lexer l2 s).
Proof.
  intros H1 H2 H3.
  unfold ParsePool, call. unfold bind at 1. unfold lex at 1. rewrite H1. simpl.
  unfold bind at 1. unfold ExpectToken, call, bind at 1, lex at 1. simpl. rewrite H2. simpl.
  unfold bind at 1. simpl. unfold bind at 1. simpl. rewrite H3. reflexivity.
Qed.

(** C10: within one pool statement several indented [depth =] lines are
    accepted, with no duplicate-key error: when the value of every line is
    non-negative the pool is registered with the depth of the last line, and
    when the value of any one line is negative the statement is rejected. *)
Theorem ParsePool_last_depth_wins (fuel n : nat) s name l1 l2 l3 l4 bs :
  ReadIdent (lexer_ s) = (Some name, l1) ->
  ReadToken l1 = (NEWLINE, l2) ->
  LookupPool (state_ s) name = None ->
  read_lets n l2 = Some (bs, l3) ->
  PeekToken INDENT l3 = (false, l4) ->
  Forall (fun b => b.1 = "depth") bs ->
  (0 < n < fuel)%nat ->
  (Forall (fun b => 0 <= pool_depth s b.2) bs ->
   ParsePool fuel s =
     Val true (set_state
                 (AddPool (mkPool name (default (-1) (last (map (fun b => pool_depth s b.2) bs))))
                          (state_ s))
                 (set_lexer l4 s)))
  /\ (Exists (fun b => pool_depth s b.2 < 0) bs ->
      exists l, ParsePool fuel s =
                  Val false (set_err (Error "invalid pool depth" l) (set_lexer l s))).
Proof.
  intros H1 H2 H3 Hr Hp Hk Hn.
  rewrite (ParsePool_head fuel s name l1 l2) by assumption.
  split.
  - intros Hv. unfold call, bind at 1.
    rewrite (ParsePool_bindings_accept n fuel (-1) (set_lexer l2 s) bs l3 l4);
      try assumption; try lia.
    assert (Hd : 0 <= default (-1) (last (map (fun b => pool_depth s b.2) bs))).
    { destruct bs as [|b bs']; [apply read_lets_length in Hr; simpl in Hr; lia|].
      assert (Hall : Forall (fun d => 0 <= d) (map (fun b => pool_depth s b.2) (b :: bs'))).
      { apply Forall_fmap. exact Hv. }
      destruct (last (map (fun b => pool_depth s b.2) (b :: bs'))) as [d|] eqn:E.
      - simpl. apply last_Some_elem_of in E.
        rewrite Forall_forall in Hall. apply Hall, E.
      - apply last_None in E. discriminate. }
    change (pool_depth (set_lexer l2 s)) with (pool_depth s).
    destruct (_ <? 0) eqn:E; [apply Z.ltb_lt in E; lia|].
    reflexivity.
  - intros Hv.
    destruct (ParsePool_bindings_reject n fuel (-1) (set_lexer l2 s) bs l3) as [l Hl];
      try assumption; try lia.
    exists l. unfold call, bind at 1. rewrite Hl. reflexivity.
Qed.

Lemma forallb_false_Exists_neg s (bs : list (string * EvalString)) :
  forallb (fun b => 0 <=? pool_depth s b.2) bs = false ->
  Exists (fun b => pool_depth s b.2 < 0) bs.
Proof.
  induction bs as [|b bs IH]; simpl; [discriminate|].
  destruct (0 <=? pool_depth s b.2) eqn:E; simpl.
  - intros Hf. apply Exists_cons_tl, IH, Hf.
  - intros _. apply Exists_cons_hd. apply Z.leb_gt in E. exact E.
Qed.

Lemma forallb_true_Forall_nonneg s (bs : list (string * EvalString)) :
  forallb (fun b => 0 <=? pool_depth s b.2) bs = true ->
  Forall (fun b => 0 <= pool_depth s b.2) bs.
Proof.
  induction bs as [|b bs IH]; simpl; [constructor|].
  intros [Hb Hbs]%andb_prop. constructor; [apply Z.leb_le, Hb | apply IH, Hbs].
Qed.

(** C5 (amended): the value of every [depth] line is converted by [atol]
    and narrowed to [int]; the pool statement is accepted exactly when it
    has at least one [depth] line and no converted value is negative. A
    negative value is reported as an invalid pool depth and a statement
    with no [depth] line as a missing one. *)
Theorem ParsePool_depth_checked (fuel n : nat) s name l1 l2 l3 l4 bs :
  ReadIdent (lexer_ s) = (Some name, l1) ->
  ReadToken l1 = (NEWLINE, l2) ->
  LookupPool (state_ s) name = None ->
  read_lets n l2 = Some (bs, l3) ->
  PeekToken INDENT l3 = (false, l4) ->
  Forall (fun b => b.1 = "depth") bs ->
  (n < fuel)%nat ->
  exists s',
    ParsePool fuel s =
      Val (match bs with
           | [] => false
           | _ => forallb (fun b => 0 <=? pool_depth s b.2) bs
           end) s' /\
    (bs = [] -> err_ s' = Error "expected 'depth =' line" l4) /\
    (Exists (fun b => pool_depth s b.2 < 0) bs ->
     exists l, err_ s' = Error "invalid pool depth" l).
Proof.
  intros H1 H2 H3 Hr Hp Hk Hn.
  destruct bs as [|b bs'].
  - assert (n = O) as -> by (apply read_lets_length in Hr; simpl in Hr; lia).
    rewrite (ParsePool_head fuel s name l1 l2) by assumption.
    unfold call, bind at 1.
    rewrite (ParsePool_bindings_accept O fuel (-1) (set_lexer l2 s) [] l3 l4);
      try assumption; try constructor; try lia.
    simpl. eexists. split; [reflexivity|]. split; [reflexivity|].
    intros Hv. inversion Hv.
  - assert (0 < n)%nat by (apply read_lets_length in Hr; simpl in Hr; lia).
    rewrite (ParsePool_head fuel s name l1 l2) by assumption.
    unfold call, bind at 1.
    destruct (forallb (fun b => 0 <=? pool_depth s b.2) (b :: bs')) eqn:E.
    + apply forallb_true_Forall_nonneg in E.
      rewrite (ParsePool_bindings_accept n fuel (-1) (set_lexer l2 s) (b :: bs') l3 l4);
        try assumption; try lia.
      change (pool_depth (set_lexer l2 s)) with (pool_depth s).
      destruct (last (map (fun b => pool_depth s b.2) (b :: bs'))) as [d|] eqn:El;
        [|apply last_None in El; discriminate].
      assert (0 <= d).
      { apply last_Some_elem_of, list_elem_of_fmap in El as (x & -> & Hx).
        rewrite Forall_forall in E. apply E, Hx. }
      change (default (-1) (Some d)) with d.
      destruct (d <? 0) eqn:Ed; [apply Z.ltb_lt in Ed; lia|].
      eexists. split; [reflexivity|]. split; [discriminate|].
      intros Hv. exfalso. apply Exists_exists in Hv as (x & Hx & Hneg).
      rewrite Forall_forall in E. specialize (E x Hx). simpl in *. lia.
    + apply forallb_false_Exists_neg in E.
      destruct (ParsePool_bindings_reject n fuel (-1) (set_lexer l2 s) (b :: bs') l3)
        as [l Hl]; try assumption; try lia.
      rewrite Hl. eexists. split; [reflexivity|]. split; [discriminate|].
      intros _. exists l. reflexivity.
Qed.

(** *** Outcomes of a run *)

Lemma wp_bind {A B} (m : M A) (k : A -> M B) Q R E F s :
  wp m (fun a s' => wp (k a) Q R E F s') R E F s -> wp (x <- m ;; k x) Q R E F s.
Proof. unfold wp, bind. destruct (m s); auto. Qed.

Lemma wp_mono {A} (m : M A) (Q Q' : A -> PState L FR -> Prop) (R R' : bool -> PState L FR -> Prop)
    (E E' : PState L FR -> Prop) (F F' : Prop) s :
  wp m Q R E F s ->
  (forall a s', Q a s' -> Q' a s') -> (forall b s', R b s' -> R' b s') ->
  (forall s', E s' -> E' s') -> (F -> F') ->
  wp m Q' R' E' F' s.
Proof. unfold wp. destruct (m s); auto. Qed.

Lemma wp_call (body : M bool) Q R E F s :
  wp body Q Q E F s -> wp (call body) Q R E F s.
Proof. unfold wp, call. destruct (body s); auto. Qed.

Lemma wp_call_out {A} (body : M A) (Q : option A -> PState L FR -> Prop) R E F s :
  wp body (fun a s' => Q (Some a) s') (fun _ s' => Q None s') E F s ->
  wp (call_out body) Q R E F s.
Proof. unfold wp, call_out. destruct (body s); auto. Qed.

Lemma same_store_refl s : same_store s s.
Proof. repeat split. Qed.

Lemma same_store_trans s1 s2 s3 :
  same_store s1 s2 -> same_store s2 s3 -> same_store s1 s3.
Proof.
  unfold same_store. intros (?&?&?&?&?&?) (?&?&?&?&?&?).
  repeat split; congruence.
Qed.

Lemma same_store_set_err s s' e : same_store s s' -> same_store s (set_err e s').
Proof. intros Hs. exact Hs. Qed.

Lemma same_store_set_lexer s s' l : same_store s s' -> same_store s (set_lexer l s').
Proof. intros Hs. exact Hs. Qed.

Lemma wp_return_Error {A} msg (Q : A -> PState L FR -> Prop) R E F s :
  R false (set_err (Error msg (lexer_ s)) s) -> wp (return_Error msg) Q R E F s.
Proof. intros HR. exact HR. Qed.

Lemma wp_lexer_only {A} Rb (m : M A) (Q : A -> PState L FR -> Prop) R E F s :
  lexer_only_by Rb m ->
  (forall a s', same_store s s' -> Q a s') ->
  (forall b s', Rb b -> same_store s s' -> R b s') ->
  wp m Q R E F s.
Proof.
  intros Hm HQ HR. eapply wp_mono; [apply Hm| | | |]; simpl; auto.
  - intros b s' [? ?]. auto.
  - intros s' [].
  - intros [].
Qed.

Lemma lexer_only_val {A} Rb (a : A) : lexer_only_by Rb (val a).
Proof. intros s. apply same_store_refl. Qed.

Lemma lexer_only_return {A} (Rb : bool -> Prop) b :
  Rb b -> lexer_only_by Rb (return_ b : M A).
Proof. intros Hb s. split; [exact Hb | apply same_store_refl]. Qed.

Lemma lexer_only_get {A} Rb (f : PState L FR -> A) : lexer_only_by Rb (get f).
Proof. intros s. apply same_store_refl. Qed.

Lemma lexer_only_lex {A} Rb (f : L -> A * L) : lexer_only_by Rb (lex f).
Proof. intros s. unfold wp, lex. destruct (f (lexer_ s)). repeat split. Qed.

Lemma lexer_only_set_err Rb e : lexer_only_by Rb (modify (set_err e)).
Proof. intros s. repeat split. Qed.

Lemma lexer_only_bind {A B} Rb (m : M A) (k : A -> M B) :
  lexer_only_by Rb m -> (forall a, lexer_only_by Rb (k a)) ->
  lexer_only_by Rb (x <- m ;; k x).
Proof.
  intros Hm Hk s. apply wp_bind. eapply wp_lexer_only; [apply Hm| |]; auto.
  intros a s' Hs. eapply wp_mono; [apply Hk| | | |]; simpl;
    eauto using same_store_trans.
  intros b s'' [? ?]. eauto using same_store_trans.
Qed.

Lemma lexer_only_call Rb (body : M bool) :
  lexer_only_body body -> lexer_only_by Rb (call body).
Proof.
  intros Hb s. apply wp_call. eapply wp_mono; [apply Hb| | | |]; auto.
  intros b s' [_ ?]. auto.
Qed.

Lemma lexer_only_call_out {A} Rb (body : M A) :
  lexer_only_body body -> lexer_only_by Rb (call_out body).
Proof.
  intros Hb s. apply wp_call_out. eapply wp_mono; [apply Hb| | | |]; auto.
  intros b s' [_ ?]. auto.
Qed.

Lemma lexer_only_lexer_Error Rb msg : lexer_only_by Rb (lexer_Error msg).
Proof. intros s. repeat split. Qed.

Lemma lexer_only_return_Error {A} (Rb : bool -> Prop) msg :
  Rb false -> lexer_only_by Rb (return_Error msg : M A).
Proof.
  intros Hb. apply lexer_only_bind; [apply lexer_only_lexer_Error|].
  intros _. apply lexer_only_return, Hb.
Qed.

Lemma lexer_only_require (Rb : bool -> Prop) b :
  Rb false -> lexer_only_by Rb (require b).
Proof. intros Hb. destruct b; [apply lexer_only_val | apply lexer_only_return, Hb]. Qed.

Lemma lexer_only_ReadPath Rb : lexer_only_by Rb ReadPath_.
Proof.
  apply lexer_only_bind; [apply lexer_only_lex|].
  intros [path|e]; [apply lexer_only_val|].
  apply lexer_only_bind; [apply lexer_only_set_err|].
  intros _. apply lexer_only_val.
Qed.

Lemma lexer_only_ReadVarValue Rb : lexer_only_by Rb ReadVarValue_.
Proof.
  apply lexer_only_bind; [apply lexer_only_lex|].
  intros [path|e]; [apply lexer_only_val|].
  apply lexer_only_bind; [apply lexer_only_set_err|].
  intros _. apply lexer_only_val.
Qed.

Lemma lexer_only_ExpectToken Rb t : lexer_only_by Rb (ExpectToken t).
Proof.
  apply lexer_only_call, lexer_only_bind; [apply lexer_only_lex|].
  intros token. case_bool_decide;
    [apply lexer_only_return | apply lexer_only_return_Error]; exact I.
Qed.

Lemma lexer_only_ParseLet Rb : lexer_only_by Rb ParseLet.
Proof.
  apply lexer_only_call_out, lexer_only_bind; [apply lexer_only_lex|].
  intros [key|]; [|apply lexer_only_return_Error; exact I].
  apply lexer_only_bind; [apply lexer_only_ExpectToken|]. intros expected.
  apply lexer_only_bind; [apply lexer_only_require; exact I|]. intros _.
  apply lexer_only_bind; [apply lexer_only_ReadVarValue|].
  intros [value|]; [apply lexer_only_val | apply lexer_only_return; exact I].
Qed.

(** *** Rule statements *)

Lemma reserved_keys_AddBinding key value r :
  IsReservedBinding key = true -> reserved_keys r ->
  reserved_keys (Rule_AddBinding key value r).
Proof.
  intros Hk Hr k. simpl. destruct (decide (key = k)) as [<-|Hne]; [auto|].
  rewrite lookup_insert_ne by exact Hne. apply Hr.
Qed.

Lemma reserved_keys_index key r :
  IsReservedBinding key = true -> reserved_keys r ->
  reserved_keys (Rule_index key r).2.
Proof.
  intros Hk Hr. unfold Rule_index.
  destruct (rule_bindings_ r !! key); [exact Hr|].
  intros k. simpl. destruct (decide (key = k)) as [<-|Hne]; [auto|].
  rewrite lookup_insert_ne by exact Hne. apply Hr.
Qed.

Lemma Rule_index_name key r : rule_name_ (Rule_index key r).2 = rule_name_ r.
Proof. unfold Rule_index. destruct (rule_bindings_ r !! key); reflexivity. Qed.

Lemma Rule_index_value key r : (Rule_index key r).1 = binding_of r key.
Proof.
  unfold Rule_index, binding_of. destruct (rule_bindings_ r !! key); reflexivity.
Qed.

Lemma Rule_index_binding_of key key' r :
  binding_of (Rule_index key r).2 key' = binding_of r key'.
Proof.
  unfold Rule_index, binding_of.
  destruct (rule_bindings_ r !! key) eqn:E; [reflexivity|]. simpl.
  destruct (decide (key = key')) as [<-|Hne].
  - rewrite lookup_insert_eq, E. reflexivity.
  - rewrite lookup_insert_ne by exact Hne. reflexivity.
Qed.

(** The loop of [ParseRule] keeps the store, the name of the rule and the
    reserved names of its bindings. *)
Lemma ParseRule_bindings_wp fuel : forall rule s,
  reserved_keys rule ->
  wp (ParseRule_bindings fuel rule)
     (fun r' s' => same_store s s' /\ rule_name_ r' = rule_name_ rule /\ reserved_keys r')
     (fun b s' => b = false /\ same_store s s')
     (fun _ => False) True s.
Proof.
  induction fuel as [|fuel IH]; intros rule s Hres; [exact I|].
  simpl. apply wp_bind.
  eapply wp_lexer_only; [apply (lexer_only_lex (fun b => b = false))| |]; [|auto].
  intros indent s1 Hs1. destruct indent; simpl.
  - apply wp_bind.
    eapply wp_lexer_only; [apply (lexer_only_ParseLet (fun b => b = false))| |];
      [|eauto using same_store_trans].
    intros [[key value]|] s2 Hs2.
    + destruct (IsReservedBinding key) eqn:Hk.
      * eapply wp_mono; [apply IH, reserved_keys_AddBinding; eassumption| | | |];
          simpl; [| |auto|auto].
        -- intros r' s' (Hs' & Hn & Hr'). eauto 6 using same_store_trans.
        -- intros b s' (-> & Hs'). eauto using same_store_trans.
      * apply wp_return_Error. split; [reflexivity|].
        apply same_store_set_err. eauto using same_store_trans.
    + split; [reflexivity|]. eauto using same_store_trans.
  - repeat split; try apply Hs1. exact Hres.
Qed.

Lemma ParseRule_wp fuel s :
  wp (ParseRule fuel) (ParseRule_post s) (fun _ _ => False) (fun _ => False) True s.
Proof.
  assert (Hfail : forall s', same_store s s' -> ParseRule_post s false s').
  { intros s' Hs'. apply Hs'. }
  unfold ParseRule. apply wp_call, wp_bind.
  eapply wp_lexer_only; [apply (lexer_only_lex (fun b => b = false))| |]; [|intros b s' ->; auto].
  intros [name|] s1 Hs1.
  2:{ apply wp_return_Error. apply Hfail, same_store_set_err, Hs1. }
  apply wp_bind.
  eapply wp_lexer_only; [apply (lexer_only_ExpectToken (fun b => b = false))| |];
    [|intros b s' -> ?; eauto using same_store_trans].
  intros expected s2 Hs2%(same_store_trans _ _ _ Hs1).
  apply wp_bind.
  eapply wp_lexer_only; [apply (lexer_only_require (fun b => b = false)); reflexivity| |];
    [|intros b s' -> ?; eauto using same_store_trans].
  intros _ s3 Hs3%(same_store_trans _ _ _ Hs2).
  unfold wp at 1, bind at 1, get at 1. unfold bind at 1, get at 1.
  destruct (LookupRuleCurrentScope (state_ s3) (env_ s3) name) eqn:Hdup.
  { apply wp_return_Error. apply Hfail, same_store_set_err. assumption. }
  fold (wp (L:=L) (FR:=FR) (A:=bool)). apply wp_bind.
  eapply wp_mono; [apply (ParseRule_bindings_wp fuel (mkRule name ∅) s3)| | | |];
    simpl; [| |intros b s' [-> ?]; eauto using same_store_trans|auto|auto].
  { intros k [x Hx]. simpl in Hx. rewrite lookup_empty in Hx. discriminate. }
  intros r0 s4 (Hs4%(same_store_trans _ _ _ Hs3) & Hname & Hres).
  destruct (Rule_index "rspfile" r0) as [rspfile r1] eqn:E1.
  destruct (Rule_index "rspfile_content" r1) as [rspfile_content r2] eqn:E2.
  assert (Hr1 : r1 = (Rule_index "rspfile" r0).2) by (rewrite E1; reflexivity).
  assert (Hf1 : rspfile = binding_of r0 "rspfile")
    by (rewrite <- Rule_index_value, E1; reflexivity).
  assert (Hr2 : r2 = (Rule_index "rspfile_content" r1).2) by (rewrite E2; reflexivity).
  assert (Hf2 : rspfile_content = binding_of r1 "rspfile_content")
    by (rewrite <- Rule_index_value, E2; reflexivity).
  destruct (negb (Bool.eqb (empty rspfile) (empty rspfile_content))) eqn:Hrsp.
  { apply wp_return_Error. apply Hfail, same_store_set_err. assumption. }
  destruct (Rule_index "command" r2) as [command r3] eqn:E3.
  assert (Hr3 : r3 = (Rule_index "command" r2).2) by (rewrite E3; reflexivity).
  assert (Hf3 : command = binding_of r2 "command")
    by (rewrite <- Rule_index_value, E3; reflexivity).
  destruct (empty command) eqn:Hcmd.
  { apply wp_return_Error. apply Hfail, same_store_set_err. assumption. }
  unfold wp, bind, modify_state, modify, return_, ParseRule_post. simpl.
  exists r3.
  destruct Hs4 as (Hst & Henv & _). destruct Hs3 as (Hst3 & Henv3 & _).
  split; [rewrite Hst, Henv3; reflexivity|].
  split.
  { rewrite Hr3, Hr2, Hr1, !Rule_index_name, Hname. simpl.
    rewrite <- Hst3, <- Henv3. exact Hdup. }
  split.
  { rewrite Hr3, Hr2, Hr1. repeat apply reserved_keys_index; auto. }
  split.
  { rewrite Hr3, Rule_index_binding_of, <- Hf3. exact Hcmd. }
  rewrite Hr3, !Rule_index_binding_of.
  rewrite Hr2, !Rule_index_binding_of.
  rewrite <- Hf2.
  rewrite Hr1, Rule_index_binding_of, <- Hf1.
  apply negb_false_iff, Bool.eqb_prop in Hrsp. exact Hrsp.
Qed.

(** C9: rule registration is atomic. When a rule statement fails, for
    whatever reason, the store is the one of before the statement, so no
    rule has been added to any scope; a rule is registered only by a
    statement that succeeds, after all its bindings and checks. *)
Theorem ParseRule_atomic fuel s b s' :
  ParseRule fuel s = Val b s' ->
  (b = false -> state_ s' = state_ s) /\
  (b = true ->
   exists rule,
     state_ s' = AddRule (env_ s) rule (state_ s) /\
     LookupRuleCurrentScope (state_ s) (env_ s) (rule_name_ rule) = None /\
     reserved_keys rule /\
     empty (binding_of rule "command") = false /\
     empty (binding_of rule "rspfile") = empty (binding_of rule "rspfile_content")).
Proof.
  intros Hrun. pose proof (ParseRule_wp fuel s) as Hwp.
  unfold wp in Hwp. rewrite Hrun in Hwp. unfold ParseRule_post in Hwp.
  split; intros ->; exact Hwp.
Qed.

(** *** Build statements: reading the outputs *)

Lemma ReadPath_reads s path l' :
  ReadPath (lexer_ s) = (inl path, l') ->
  ReadPath_ s = Val (Some path) (set_lexer l' s).
Proof. intros Hr. unfold ReadPath_, bind, lex. rewrite Hr. reflexivity. Qed.

Lemma ReadPath_fails s e l' :
  ReadPath (lexer_ s) = (inr e, l') ->
  ReadPath_ s = Val None (set_err e (set_lexer l' s)).
Proof. intros Hr. unfold ReadPath_, bind, lex. rewrite Hr. reflexivity. Qed.

(** What the loops over paths hand back when they end: the paths of
    before followed by the ones read, and the count raised by their
    number. *)
Lemma ParseEdge_paths_val fuel on_error : forall paths count s outs n s',
  ParseEdge_paths fuel on_error paths count s = Val (outs, n) s' ->
  exists added, outs = paths ++ added /\ n = count + Z.of_nat (length added).
Proof.
  induction fuel as [|fuel IH]; intros paths count s outs n s' Hrun; [discriminate|].
  simpl in Hrun. unfold bind at 1 in Hrun.
  destruct (ReadPath_ s) as [[path|] s1|b s1|s1|]; try discriminate.
  destruct (empty path) eqn:Hpath.
  - injection Hrun as <- <- <-. exists []. rewrite app_nil_r. split; [reflexivity|]. simpl. lia.
  - apply IH in Hrun as (added & -> & ->).
    exists (path :: added). rewrite <- app_assoc. split; [reflexivity|].
    simpl length. lia.
Qed.

(** C2 (amended): a build statement must declare at least one output,
    explicit or implicit. When no explicit output is read and either no
    single pipe follows or the pipe is followed by no path, the statement
    fails with the error of a missing path. When no explicit output is read
    and the pipe is followed by a path, the statement is not rejected for
    its outputs: once the implicit outputs are read it goes on to its colon,
    with every output counted as implicit. *)
Theorem ParseEdge_requires_an_output fuel s l1 :
  ReadPath (lexer_ s) = (inl [], l1) ->
  (forall l2,
     PeekToken PIPE l1 = (false, l2) \/
     (exists l', PeekToken PIPE l1 = (true, l') /\ ReadPath l' = (inl [], l2)) ->
     ParseEdge (S fuel) s =
       Val false (set_err (Error "expected path" l2) (set_lexer l2 s))) /\
  (forall l' out l2 outs n s',
     PeekToken PIPE l1 = (true, l') ->
     ReadPath l' = (inl out, l2) -> empty out = false ->
     ParseEdge_paths (S fuel) err_as_bool [] 0 (set_lexer l' s) = Val (outs, n) s' ->
     outs <> [] /\ n = Z.of_nat (length outs) /\
     ParseEdge_read (S fuel) s = ParseEdge_read_rule (S fuel) outs n s').
Proof.
  intros H1. split.
  - intros l2 Hpipe.
    unfold ParseEdge, call, bind at 1, ParseEdge_read, bind at 1.
    rewrite (ReadPath_reads s [] l1 H1). simpl.
    unfold bind at 1, val at 1. unfold bind at 1, lex at 1. simpl.
    destruct Hpipe as [Hp | (l' & Hp & H2)]; rewrite Hp; simpl.
    + reflexivity.
    + unfold bind at 1, bind at 1.
      rewrite (ReadPath_reads (set_lexer l' (set_lexer l1 s)) [] l2 H2). reflexivity.
  - intros l' out l2 outs n s' Hp H2 Hout Hloop.
    pose proof Hloop as Hval. apply ParseEdge_paths_val in Hval as (added & Houts & Hn).
    simpl in Houts. subst outs.
    assert (Hadded : added <> []).
    { intros ->. simpl in Hloop. unfold bind at 1 in Hloop.
      rewrite (ReadPath_reads (set_lexer l' s) out l2 H2) in Hloop.
      rewrite Hout in Hloop.
      apply ParseEdge_paths_val in Hloop as (added & Hnil & _).
      destruct added; discriminate. }
    split; [exact Hadded|]. split; [lia|].
    unfold ParseEdge_read, bind at 1.
    rewrite (ReadPath_reads s [] l1 H1). cbn -[ParseEdge_paths].
    unfold bind at 1, val at 1. unfold bind at 1, lex at 1. cbn -[ParseEdge_paths].
    rewrite Hp. cbn -[ParseEdge_paths].
    change (set_lexer l' (set_lexer l1 s)) with (set_lexer l' s).
    rewrite Hloop.
    destruct (bool_decide (added = [])) eqn:E; [|reflexivity].
    apply bool_decide_eq_true in E. contradiction.
Qed.

(** A lexical error in the first implicit output makes [ParseEdge] return
    true, the error text stored: the [return err;] of line 232. *)
Lemma ParseEdge_implicit_out_error fuel s out l1 l2 l3 l4 e :
  ReadPath (lexer_ s) = (inl out, l1) -> empty out = false ->
  ReadPath l1 = (inl [], l2) ->
  PeekToken PIPE l2 = (true, l3) ->
  ReadPath l3 = (inr e, l4) ->
  ParseEdge (S (S fuel)) s = Val true (set_err e (set_lexer l4 s)).
Proof.
  intros H1 Hne H2 Hp H3.
  unfold ParseEdge, call, bind at 1, ParseEdge_read, bind at 1.
  rewrite (ReadPath_reads s out l1 H1).
  unfold bind at 1. simpl ParseEdge_explicit_outs. rewrite Hne. simpl negb.
  unfold bind at 1. rewrite (ReadPath_reads (set_lexer l1 s) [] l2 H2).
  simpl. unfold val at 1, bind at 1. unfold lex at 1. simpl. rewrite Hp. simpl.
  unfold bind at 1, bind at 1.
  rewrite (ReadPath_fails (set_lexer l3 (set_lexer l2 (set_lexer l1 s))) e l4 H3).
  reflexivity.
Qed.

(** *** The top-level loop *)

(** C8: a top-level binding named [ninja_required_version] is checked
    against the running tool at once. When the tool does not accept the
    evaluated value the run ends there: the store is the one of before, so
    the value has not been stored, and the lexer stands right after the
    binding, so nothing that follows has been examined. When it accepts the
    value, the binding is stored and the loop goes on. *)
Theorem Parse_checks_required_version_first parse fuel s l1 l2 l3 l4 value :
  ReadToken (lexer_ s) = (IDENT, l1) ->
  ReadIdent (UnreadToken l1) = (Some "ninja_required_version", l2) ->
  ReadToken l2 = (EQUALS, l3) ->
  ReadVarValue l3 = (inl value, l4) ->
  Parse_statements parse (S fuel) s =
    if CheckNinjaVersion (Evaluate (state_ s) (env_ s) value)
    then Parse_statements parse fuel
           (set_state (AddBinding (env_ s) "ninja_required_version"
                         (Evaluate (state_ s) (env_ s) value) (state_ s))
                      (set_lexer l4 s))
    else Exit (set_lexer l4 s).
Proof.
  intros H1 H2 H3 H4. simpl.
  unfold bind at 1, lex at 1. rewrite H1. simpl.
  unfold bind at 1, lex at 1. simpl.
  unfold bind at 1.
  rewrite (ParseLet_reads (set_lexer (UnreadToken l1) (set_lexer l1 s))
             "ninja_required_version" value l2 l3 l4) by assumption.
  simpl. unfold bind at 1, get at 1. unfold bind at 1, Evaluate_, get at 1. simpl.
  unfold bind at 1.
  destruct (CheckNinjaVersion (Evaluate (state_ s) (env_ s) value)); reflexivity.
Qed.

(** *** Inclusion: the chdir bracket *)

Lemma ParseLet_total s :
  exists o s', ParseLet s = Val o s' /\ same_store s s'.
Proof.
  pose proof (lexer_only_ParseLet (fun _ => False) s) as Hwp. unfold wp in Hwp.
  destruct (ParseLet s) as [o s'|b s'|s'|]; try tauto. eauto.
Qed.

(** Once the directory has been switched, the loop over the indented lines
    never returns from [ParseFileInclude]: it ends, at the latest on the
    next line, with [has_chdir] and [prev_cwd] as they are and the file
    reader untouched. *)
Lemma ParseFileInclude_bindings_switched fuel new_scope v s :
  has_chdir v = true ->
  exists v' s1,
    ParseFileInclude_bindings (S fuel) new_scope v s = Val v' s1 /\
    has_chdir v' = true /\ prev_cwd v' = prev_cwd v /\ same_store s s1.
Proof.
  intros Hv. simpl. unfold bind at 1, lex at 1.
  destruct (PeekToken INDENT (lexer_ s)) as [[] l1]; simpl.
  2:{ exists v, (set_lexer l1 s). repeat split; assumption. }
  unfold bind at 1.
  destruct (ParseLet_total (set_lexer l1 s)) as (o & s' & -> & Hs).
  destruct o as [[key value]|]; simpl.
  2:{ exists (not_ok v), s'. repeat split; try assumption; apply Hs. }
  destruct (String.eqb key "chdir"); simpl.
  2:{ eexists (not_ok v), _. split; [reflexivity|]. repeat split; try assumption; apply Hs. }
  destruct new_scope; simpl.
  2:{ eexists (not_ok v), _. split; [reflexivity|]. repeat split; try assumption; apply Hs. }
  rewrite Hv.
  eexists (not_ok v), _. split; [reflexivity|]. repeat split; try assumption; apply Hs.
Qed.

(** The line [chdir = value] of a subninja statement, when the directory
    can be read and switched. *)
Lemma ParseFileInclude_bindings_chdir fuel v s l1 l2 l3 l4 value cwd0 fr1 fr2 :
  has_chdir v = false ->
  PeekToken INDENT (lexer_ s) = (true, l1) ->
  ReadIdent l1 = (Some "chdir", l2) ->
  ReadToken l2 = (EQUALS, l3) ->
  ReadVarValue l3 = (inl value, l4) ->
  Getcwd (file_reader_ s) = (inl cwd0, fr1) ->
  Chdir (Evaluate (state_ s) (env_ s) value) fr1 = (None, fr2) ->
  ParseFileInclude_bindings (S fuel) true v s =
    ParseFileInclude_bindings fuel true
      (mkIncludeLocals true cwd0 (Evaluate (state_ s) (env_ s) value +:+ "/") (ok v))
      (set_file_reader fr2 (set_lexer l4 s)).
Proof.
  intros Hv Hp H1 H2 H3 Hg Hc. simpl.
  unfold bind at 1, lex at 1. rewrite Hp. simpl. unfold bind at 1.
  rewrite (ParseLet_reads (set_lexer l1 s) "chdir" value l2 l3 l4) by assumption.
  simpl. rewrite Hv.
  unfold bind at 1, get at 1. unfold bind at 1, Evaluate_, get at 1. simpl.
  unfold bind at 1, Getcwd_ at 1. simpl. rewrite Hg. simpl.
  unfold bind at 1, Chdir_ at 1. simpl. rewrite Hc. reflexivity.
Qed.

(** C7: when the chdir binding of an inclusion has switched the working
    directory, the loop over the remaining lines ends without leaving the
    function, and whatever the nested parse answers, success or failure,
    the function ends by setting the directory back to the one read before
    the switch. The failure of that last step makes the result false, and
    its message is stored only when there was no failure before it. *)
Theorem ParseFileInclude_restores_cwd parse fuel path parent_path v s
    l1 l2 l3 l4 value cwd0 fr1 fr2 :
  has_chdir v = false ->
  PeekToken INDENT (lexer_ s) = (true, l1) ->
  ReadIdent l1 = (Some "chdir", l2) ->
  ReadToken l2 = (EQUALS, l3) ->
  ReadVarValue l3 = (inl value, l4) ->
  Getcwd (file_reader_ s) = (inl cwd0, fr1) ->
  Chdir (Evaluate (state_ s) (env_ s) value) fr1 = (None, fr2) ->
  exists v' s1,
    ParseFileInclude_bindings (S (S fuel)) true v s = Val v' s1 /\
    file_reader_ s1 = fr2 /\
    forall nested_ok s2,
      ParseFileInclude_nested parse true path parent_path v' s1 = Val nested_ok s2 ->
      ParseFileInclude_from parse (S (S fuel)) true path parent_path v s =
        match Chdir cwd0 (file_reader_ s2) with
        | (None, fr) => Ret nested_ok (set_file_reader fr s2)
        | (Some dir_err, fr) =>
          Ret false
              (if nested_ok
               then set_err ("restore cwd = '" +:+ cwd0 +:+ "': " +:+ dir_err)
                            (set_file_reader fr s2)
               else set_file_reader fr s2)
        end.
Proof.
  intros Hv Hp H1 H2 H3 Hg Hc.
  pose proof (ParseFileInclude_bindings_chdir (S fuel) v s l1 l2 l3 l4 value cwd0 fr1 fr2
                Hv Hp H1 H2 H3 Hg Hc) as Hstep.
  destruct (ParseFileInclude_bindings_switched fuel true
              (mkIncludeLocals true cwd0 (Evaluate (state_ s) (env_ s) value +:+ "/") (ok v))
              (set_file_reader fr2 (set_lexer l4 s)) eq_refl)
    as (v' & s1 & Hloop & Hch & Hcwd & Hs1).
  exists v', s1. rewrite Hstep. split; [exact Hloop|].
  split; [apply Hs1|].
  intros nested_ok s2 Hnested.
  unfold ParseFileInclude_from, bind at 1. rewrite Hstep, Hloop.
  unfold bind at 1. rewrite Hnested.
  unfold ParseFileInclude_restore. rewrite Hch. simpl in Hcwd. rewrite Hcwd.
  unfold bind, Chdir_.
  destruct (Chdir cwd0 (file_reader_ s2)) as [[dir_err|] fr]; simpl;
    [destruct nested_ok|]; reflexivity.
Qed.

(** *** Build statements: the self-reference filter *)

Lemma get_edge_lookup edge s e :
  edges_ (state_ s) !! edge = Some e -> get_edge edge s = Val e s.
Proof. intros He. unfold get_edge. rewrite He. reflexivity. Qed.

Lemma filter_ne_length_lt (out : string) (l : list string) :
  out ∈ l -> (length (filter (fun n => n ≠ out) l) < length l)%nat.
Proof.
  induction l as [|x l IH]; intros Hin; [inversion Hin|].
  rewrite filter_cons. destruct (decide (x ≠ out)) as [Hne|Heq]; simpl.
  - apply elem_of_cons in Hin as [->|Hin]; [congruence|].
    specialize (IH Hin). lia.
  - pose proof (length_filter (fun n => n ≠ out) l). lia.
Qed.

(** C4: under the warn policy for self-referencing edges, for an edge with
    a single output that is also among its inputs, whatever the rule of the
    edge, the filter leaves as inputs those that differ from the output, in
    their order, so that no occurrence of the output remains, and it warns
    unless the parser is quiet. *)
Theorem ParseEdge_phonycycle_strips edge s e out :
  phony_cycle_action_ (options_ s) = kPhonyCycleActionWarn ->
  edges_ (state_ s) !! edge = Some e ->
  outputs_ e = [out] ->
  out ∈ inputs_ e ->
  let kept := filter (fun n => n ≠ out) (inputs_ e) in
  (out ∉ kept) /\
  (forall n, n ≠ out -> (n ∈ kept <-> n ∈ inputs_ e)) /\
  ParseEdge_phonycycle edge s =
    Val tt ((if quiet_ s then id
             else add_warning ("phony target '" +:+ out +:+ "' names itself as an input; " +:+
                               "ignoring [-w phonycycle=warn]"))
              (set_state (map_edge (set_inputs (fun _ => kept)) edge (state_ s)) s)).
Proof.
  intros Hopt He Hout Hin kept. split; [|split].
  - intros Hk. apply list_elem_of_filter in Hk as [Hne _]. congruence.
  - intros n Hne. unfold kept. rewrite list_elem_of_filter. tauto.
  - unfold ParseEdge_phonycycle, bind at 1, get at 1.
    unfold bind at 1. rewrite (get_edge_lookup edge s e He). rewrite Hopt.
    unfold maybe_phonycycle_diagnostic. rewrite Hout. simpl.
    fold kept.
    pose proof (filter_ne_length_lt out (inputs_ e) Hin) as Hlt. fold kept in Hlt.
    destruct ((length kept =? length (inputs_ e))%nat) eqn:E;
      [apply Nat.eqb_eq in E; lia|].
    simpl. unfold bind, modify_state, modify, get, Warning, modify. simpl.
    destruct (quiet_ s); reflexivity.
Qed.

(** *** Build statements: the dyndep binding *)

Lemma GetNode_lookup path env slash_bits st :
  exists node, paths_ (GetNode path env slash_bits st) !! path = Some node.
Proof.
  unfold GetNode. destruct (paths_ st !! path) as [node|] eqn:E.
  - exists node. exact E.
  - eexists. simpl. apply lookup_insert_eq.
Qed.

Lemma GetNode_edges path env slash_bits st :
  edges_ (GetNode path env slash_bits st) = edges_ st.
Proof. unfold GetNode. destruct (paths_ st !! path); reflexivity. Qed.


(** *** Build statements: duplicate outputs *)

Lemma Evaluate_scopes st st' env value :
  scopes_ st = scopes_ st' -> Evaluate st env value = Evaluate st' env value.
Proof.
  intros Hs. induction value as [|[text|var] value IH]; simpl; [reflexivity| |].
  - rewrite IH. reflexivity.
  - rewrite IH. unfold LookupVariable. rewrite Hs. reflexivity.
Qed.

Lemma canonical_outs_scopes st st' env outs :
  scopes_ st = scopes_ st' -> canonical_outs st env outs = canonical_outs st' env outs.
Proof.
  intros Hs. induction outs as [|out outs IH]; simpl; [reflexivity|].
  rewrite (Evaluate_scopes st st' env out Hs), IH. reflexivity.
Qed.

Lemma canonical_outs_cons st env out outs ps :
  canonical_outs st env (out :: outs) = Some ps ->
  exists p ps', ps = p :: ps' /\
    CanonicalizePath (Evaluate st env out) = inl p /\
    canonical_outs st env outs = Some ps'.
Proof.
  simpl. destruct (CanonicalizePath (Evaluate st env out)) as [p|]; [|discriminate].
  destruct (canonical_outs st env outs) as [ps'|]; [|discriminate].
  intros [= <-]. eauto.
Qed.

(** [AddOut] on a path that has a producing edge: refused, the store as
    it is. *)
Lemma AddOut_produced edge path slash_bits st :
  has_in_edge st path = true -> AddOut edge path slash_bits st = (false, st).
Proof.
  intros Hp. unfold AddOut.
  assert (Hg : GetNode path (env_of_edge st edge) slash_bits st = st).
  { unfold GetNode. unfold has_in_edge in Hp.
    destruct (paths_ st !! path); [reflexivity | discriminate]. }
  rewrite Hg, Hp. reflexivity.
Qed.

Lemma GetNode_has_in_edge path env slash_bits st q :
  has_in_edge (GetNode path env slash_bits st) q = has_in_edge st q.
Proof.
  unfold GetNode. destruct (paths_ st !! path) eqn:E; [reflexivity|].
  unfold has_in_edge. simpl. destruct (decide (path = q)) as [<-|Hne].
  - rewrite lookup_insert_eq, E. reflexivity.
  - rewrite lookup_insert_ne by exact Hne. reflexivity.
Qed.

Lemma GetNode_scopes path env slash_bits st :
  scopes_ (GetNode path env slash_bits st) = scopes_ st.
Proof. unfold GetNode. destruct (paths_ st !! path); reflexivity. Qed.

(** [AddOut] on a path without producing edge: accepted; the path is the
    next output of the edge and has the edge as its producer. *)
Lemma AddOut_fresh edge path slash_bits st ed :
  has_in_edge st path = false ->
  edges_ st !! edge = Some ed ->
  exists st',
    AddOut edge path slash_bits st = (true, st') /\
    scopes_ st' = scopes_ st /\
    edges_ st' !! edge = Some (set_outputs (fun o => o ++ [path]) ed) /\
    (forall q, has_in_edge st' q = has_in_edge st q || String.eqb q path).
Proof.
  intros Hp He. unfold AddOut.
  rewrite GetNode_has_in_edge, Hp. eexists. split; [reflexivity|].
  split; [simpl; apply GetNode_scopes|]. split.
  - simpl. rewrite GetNode_edges, list_lookup_alter_eq, He. reflexivity.
  - intros q. unfold has_in_edge at 1. simpl.
    destruct (GetNode_lookup path (env_of_edge st edge) slash_bits st) as [node Hnode].
    destruct (String.eqb_spec q path) as [->|Hne].
    + rewrite lookup_alter_eq, Hnode. simpl. rewrite orb_true_r. reflexivity.
    + rewrite lookup_alter_ne by congruence.
      fold (has_in_edge (GetNode path (env_of_edge st edge) slash_bits st) q).
      rewrite GetNode_has_in_edge, orb_false_r. reflexivity.
Qed.

(** One turn of the loop over the outputs, on a path without producer. *)
Lemma ParseEdge_outputs_keep edge env e i n out rest s p slash_bits ed :
  CanonicalizePath (Evaluate (state_ s) env out) = inl (p, slash_bits) ->
  has_in_edge (state_ s) p = false ->
  edges_ (state_ s) !! edge = Some ed ->
  exists st',
    ParseEdge_outputs edge env e i n (out :: rest) s =
      ParseEdge_outputs edge env e (i + 1) n rest (set_state st' s) /\
    scopes_ st' = scopes_ (state_ s) /\
    edges_ st' !! edge = Some (set_outputs (fun o => o ++ [p]) ed) /\
    (forall q, has_in_edge st' q = has_in_edge (state_ s) q || String.eqb q p).
Proof.
  intros Hc Hp He.
  destruct (AddOut_fresh edge p slash_bits (state_ s) ed Hp He)
    as (st' & Hadd & Hsc & Hed & Hin).
  exists st'. split; [|auto].
  simpl. unfold bind at 1, Evaluate_, get at 1. rewrite Hc.
  unfold bind at 1, get at 1. rewrite Hadd. reflexivity.
Qed.

(** One turn of the loop over the outputs, on a path that has a producer:
    the error of the error policy; under the warn policy the warning, and
    one implicit output less when the path is in the implicit block. *)
Lemma ParseEdge_outputs_drop edge env e i n out rest s p slash_bits :
  CanonicalizePath (Evaluate (state_ s) env out) = inl (p, slash_bits) ->
  has_in_edge (state_ s) p = true ->
  ParseEdge_outputs edge env e i n (out :: rest) s =
    match dupe_edge_action_ (options_ s) with
    | kDupeEdgeActionError =>
      Ret false (set_err (Error ("multiple rules generate " +:+ p +:+ " [-w dupbuild=err]")
                                (lexer_ s)) s)
    | kDupeEdgeActionWarn =>
      ParseEdge_outputs edge env e (i + 1)
        (if e - i <=? to_size_t n then n - 1 else n) rest
        (if quiet_ s then s
         else add_warning ("multiple rules generate " +:+ p +:+ ". " +:+
                           "builds involving this target will not be correct; " +:+
                           "continuing anyway [-w dupbuild=warn]") s)
    end.
Proof.
  intros Hc Hp.
  simpl. unfold bind at 1, Evaluate_, get at 1. rewrite Hc.
  unfold bind at 1, get at 1. rewrite (AddOut_produced edge p slash_bits _ Hp).
  destruct s as [l penv opts quiet st fr err ws]. simpl in *.
  unfold bind at 1, modify at 1. simpl. unfold bind at 1, get at 1. simpl.
  destruct (dupe_edge_action_ opts); [|reflexivity].
  unfold bind at 1, get at 1. simpl. destruct quiet; reflexivity.
Qed.

Lemma to_size_t_small n : 0 <= n < 2 ^ 64 -> to_size_t n = n.
Proof. intros Hn. unfold to_size_t. apply Z.mod_small. exact Hn. Qed.

Lemma dropped_implicit_nil n : dropped_implicit n [] = 0.
Proof. unfold dropped_implicit. simpl. reflexivity. Qed.

(** The duplicates of the implicit block, one turn of the loop later. *)
Lemma dropped_implicit_cons n d flags :
  0 <= n ->
  dropped_implicit n (d :: flags) =
    if Z.of_nat (S (length flags)) <=? n
    then (if d then 1 else 0) + dropped_implicit (if d then n - 1 else n) flags
    else dropped_implicit n flags.
Proof.
  intros Hn. unfold dropped_implicit.
  destruct (Z.of_nat (S (length flags)) <=? n) eqn:E.
  - apply Z.leb_le in E.
    replace (length (d :: flags) - Z.to_nat n)%nat with O by (simpl; lia).
    replace (length flags - Z.to_nat (if d then n - 1 else n))%nat with O
      by (destruct d; lia).
    rewrite !drop_0, filter_cons. destruct d; simpl.
    + destruct (decide (true = true)); [|congruence]. simpl length. lia.
    + destruct (decide (false = true)); [congruence|]. lia.
  - apply Z.leb_gt in E.
    replace (length (d :: flags) - Z.to_nat n)%nat
      with (S (length flags - Z.to_nat n))%nat by (simpl; lia).
    reflexivity.
Qed.

Lemma dropped_implicit_bounds n flags :
  0 <= dropped_implicit n flags <= Z.of_nat (length flags).
Proof.
  unfold dropped_implicit. split; [lia|].
  pose proof (length_filter (fun d => d = true)
                (drop (length flags - Z.to_nat n) flags)) as H1.
  rewrite length_drop in H1. lia.
Qed.

Lemma drops_length produced ps : length (drops produced ps) = length ps.
Proof.
  revert produced. induction ps as [|p ps IH]; intros produced; simpl; [reflexivity|].
  destruct (produced p); simpl; rewrite IH; reflexivity.
Qed.

Lemma set_outputs_app ed (l1 l2 : list string) :
  set_outputs (fun o => o ++ l2) (set_outputs (fun o => o ++ l1) ed) =
  set_outputs (fun o => o ++ l1 ++ l2) ed.
Proof. unfold set_outputs. simpl. rewrite <- app_assoc. reflexivity. Qed.

Lemma set_outputs_nil ed : set_outputs (fun o => o ++ []) ed = ed.
Proof. destruct ed. unfold set_outputs. simpl. rewrite app_nil_r. reflexivity. Qed.

Lemma canonical_outs_length st env outs ps :
  canonical_outs st env outs = Some ps -> length ps = length outs.
Proof.
  revert ps. induction outs as [|out outs IH]; intros ps Hc.
  - injection Hc as <-. reflexivity.
  - apply canonical_outs_cons in Hc as (p & ps' & -> & _ & Hc).
    simpl. f_equal. apply IH, Hc.
Qed.

(** The loop over the outputs under the warn policy: it registers the
    paths that are not duplicates and takes the implicit duplicates off the
    count of implicit outputs. *)
Lemma ParseEdge_outputs_warn edge env e rest : forall ps s i n ed produced,
  dupe_edge_action_ (options_ s) = kDupeEdgeActionWarn ->
  canonical_outs (state_ s) env rest = Some ps ->
  edges_ (state_ s) !! edge = Some ed ->
  (forall q, has_in_edge (state_ s) q = produced q) ->
  e - i = Z.of_nat (length rest) ->
  0 <= n < 2 ^ 64 ->
  exists s',
    ParseEdge_outputs edge env e i n rest s =
      Val (n - dropped_implicit n (drops produced (map fst ps))) s' /\
    edges_ (state_ s') !! edge =
      Some (set_outputs (fun o => o ++ kept produced (map fst ps)) ed) /\
    scopes_ (state_ s') = scopes_ (state_ s) /\
    options_ s' = options_ s /\ quiet_ s' = quiet_ s /\ lexer_ s' = lexer_ s /\
    err_ s' = err_ s.
Proof.
  induction rest as [|out rest IH]; intros ps s i n ed produced Hw Hc He Hin Hlen Hn.
  - injection Hc as <-. simpl. rewrite dropped_implicit_nil, Z.sub_0_r.
    exists s. rewrite set_outputs_nil. auto 10.
  - apply canonical_outs_cons in Hc as ([p slash_bits] & ps' & -> & Hcp & Hc).
    pose proof (canonical_outs_length _ _ _ _ Hc) as Hlps.
    simpl map. simpl drops. simpl kept. simpl length in Hlen.
    assert (Hi : e - (i + 1) = Z.of_nat (length rest)) by lia.
    destruct (produced p) eqn:Hp.
    + rewrite (ParseEdge_outputs_drop edge env e i n out rest s p slash_bits Hcp)
        by (rewrite Hin; exact Hp).
      rewrite Hw. rewrite (to_size_t_small n Hn), Hlen.
      rewrite dropped_implicit_cons by lia.
      rewrite drops_length, length_map, Hlps.
      set (s1 := if quiet_ s then s else add_warning _ s).
      assert (Hs1 : state_ s1 = state_ s /\ options_ s1 = options_ s /\
                    quiet_ s1 = quiet_ s /\ lexer_ s1 = lexer_ s /\ err_ s1 = err_ s).
      { unfold s1. destruct (quiet_ s) eqn:Eq; simpl; rewrite ?Eq; auto 10. }
      clearbody s1. destruct Hs1 as (Hst & Hop & Hq & Hl & Herr).
      destruct (Z.of_nat (S (length rest)) <=? n) eqn:E.
      * apply Z.leb_le in E.
        destruct (IH ps' s1 (i + 1) (n - 1) ed produced) as (s' & Hrun & Hed & Hsc & H4);
          try (rewrite ?Hst, ?Hop; assumption); try lia.
        exists s'. rewrite Hrun. split; [apply (f_equal (fun z => Val z s')); lia|].
        rewrite Hst in Hsc. destruct H4 as (? & ? & ? & ?).
        repeat split; try congruence.
      * apply Z.leb_gt in E.
        destruct (IH ps' s1 (i + 1) n ed produced) as (s' & Hrun & Hed & Hsc & H4);
          try (rewrite ?Hst, ?Hop; assumption); try lia.
        exists s'. rewrite Hrun. split; [reflexivity|].
        rewrite Hst in Hsc. destruct H4 as (? & ? & ? & ?).
        repeat split; try congruence.
    + destruct (ParseEdge_outputs_keep edge env e i n out rest s p slash_bits ed Hcp)
        as (st' & Hstep & Hsc' & Hed' & Hin'); [rewrite Hin; exact Hp|exact He|].
      rewrite Hstep.
      rewrite dropped_implicit_cons by lia.
      rewrite drops_length, length_map, Hlps.
      destruct (IH ps' (set_state st' s) (i + 1) n (set_outputs (fun o => o ++ [p]) ed)
                   (fun q => produced q || String.eqb q p))
        as (s' & Hrun & Hed & Hsc & H4); simpl; try assumption; try lia.
      { rewrite (canonical_outs_scopes st' (state_ s)) by exact Hsc'. exact Hc. }
      { intros q. rewrite Hin', Hin. reflexivity. }
      exists s'. rewrite Hrun. simpl in Hsc, H4.
      split; [destruct (Z.of_nat (S (length rest)) <=? n);
              apply (f_equal (fun z => Val z s')); lia|].
      split; [rewrite Hed, set_outputs_app; reflexivity|].
      split; [congruence|]. exact H4.
Qed.

(** The loop over the outputs under the error policy stops at the first
    duplicate. *)
Lemma ParseEdge_outputs_error edge env e rest : forall ps s i n ed produced p,
  dupe_edge_action_ (options_ s) = kDupeEdgeActionError ->
  canonical_outs (state_ s) env rest = Some ps ->
  edges_ (state_ s) !! edge = Some ed ->
  (forall q, has_in_edge (state_ s) q = produced q) ->
  first_duplicate produced (map fst ps) = Some p ->
  exists s',
    ParseEdge_outputs edge env e i n rest s = Ret false s' /\
    err_ s' = Error ("multiple rules generate " +:+ p +:+ " [-w dupbuild=err]") (lexer_ s).
Proof.
  induction rest as [|out rest IH]; intros ps s i n ed produced p Herr Hc He Hin Hd.
  - injection Hc as <-. discriminate.
  - apply canonical_outs_cons in Hc as ([p0 slash_bits] & ps' & -> & Hcp & Hc).
    simpl in Hd. destruct (produced p0) eqn:Hp.
    + injection Hd as <-.
      rewrite (ParseEdge_outputs_drop edge env e i n out rest s p0 slash_bits Hcp)
        by (rewrite Hin; exact Hp).
      rewrite Herr. eexists. split; reflexivity.
    + destruct (ParseEdge_outputs_keep edge env e i n out rest s p0 slash_bits ed Hcp)
        as (st' & Hstep & Hsc' & Hed' & Hin'); [rewrite Hin; exact Hp|exact He|].
      rewrite Hstep.
      apply (IH ps' (set_state st' s) (i + 1) n (set_outputs (fun o => o ++ [p0]) ed)
                (fun q => produced q || String.eqb q p0) p); simpl; try assumption.
      * rewrite (canonical_outs_scopes st' (state_ s)) by exact Hsc'. exact Hc.
      * intros q. rewrite Hin', Hin. reflexivity.
Qed.

(** The loop over outputs that all have a producer already, under the
    warn policy: nothing is registered and the store is as before. *)
Lemma ParseEdge_outputs_all_produced edge env e rest : forall ps s i n,
  dupe_edge_action_ (options_ s) = kDupeEdgeActionWarn ->
  canonical_outs (state_ s) env rest = Some ps ->
  Forall (fun p => has_in_edge (state_ s) p.1 = true) ps ->
  exists n' s',
    ParseEdge_outputs edge env e i n rest s = Val n' s' /\
    state_ s' = state_ s /\ options_ s' = options_ s /\ lexer_ s' = lexer_ s /\
    err_ s' = err_ s.
Proof.
  induction rest as [|out rest IH]; intros ps s i n Hw Hc Hall.
  - exists n, s. simpl. auto.
  - apply canonical_outs_cons in Hc as ([p slash_bits] & ps' & -> & Hcp & Hc).
    apply Forall_cons in Hall as [Hp Hall]. simpl in Hp.
    rewrite (ParseEdge_outputs_drop edge env e i n out rest s p slash_bits Hcp Hp), Hw.
    set (s1 := if quiet_ s then s else add_warning _ s).
    assert (Hs1 : state_ s1 = state_ s /\ options_ s1 = options_ s /\
                  lexer_ s1 = lexer_ s /\ err_ s1 = err_ s).
    { unfold s1. destruct (quiet_ s); auto. }
    clearbody s1. destruct Hs1 as (Hst & Hop & Hl & Herr).
    destruct (IH ps' s1 (i + 1) (if e - i <=? to_size_t n then n - 1 else n))
      as (n' & s' & Hrun & Hst' & Hop' & Hl' & Herr');
      try (rewrite ?Hst, ?Hop; assumption).
    exists n', s'. rewrite Hrun. repeat split; congruence.
Qed.

Lemma kept_not_produced ps : forall produced p,
  p ∈ kept produced ps -> produced p = false.
Proof.
  induction ps as [|p0 ps IH]; intros produced p Hin; [inversion Hin|].
  simpl in Hin. destruct (produced p0) eqn:Hp0; [apply IH, Hin|].
  apply elem_of_cons in Hin as [->|Hin]; [exact Hp0|].
  apply IH in Hin. apply orb_false_iff in Hin as [Hin _]. exact Hin.
Qed.

Lemma alter_app_last {A} (f : A -> A) (l : list A) (x : A) :
  alter f (length l) (l ++ [x]) = l ++ [f x].
Proof. induction l as [|a l IH]; simpl; [reflexivity|]. f_equal. exact IH. Qed.

Lemma edge_added_edges v st :
  edges_ (edge_added v st) =
  edges_ st ++ [mkEdge (rule v) kDefaultPool (env v) [] [] 0 0 0 None].
Proof.
  unfold edge_added, AddEdge, map_edge, set_edges. simpl.
  exact (alter_app_last (set_edge_env (env v)) (edges_ st) _).
Qed.

Lemma ParseEdge_pool_resolved v s :
  pool_resolves v (state_ s) ->
  exists st3 ed,
    ParseEdge_pool (length (edges_ (state_ s))) (set_state (edge_added v (state_ s)) s) =
      Val tt (set_state st3 s) /\
    paths_ st3 = paths_ (state_ s) /\ pools_ st3 = pools_ (state_ s) /\
    scopes_ st3 = scopes_ (state_ s) /\ defaults_ st3 = defaults_ (state_ s) /\
    edges_ st3 = edges_ (state_ s) ++ [ed] /\ outputs_ ed = [].
Proof.
  intros Hpool. unfold pool_resolves in Hpool. simpl in Hpool.
  unfold ParseEdge_pool, bind at 1, get at 1. simpl.
  set (name := Edge_GetBinding (edge_added v (state_ s)) (length (edges_ (state_ s))) "pool")
    in *.
  destruct (String.eqb_spec name EmptyString) as [Hempty|Hname]; simpl.
  - exists (edge_added v (state_ s)), (mkEdge (rule v) kDefaultPool (env v) [] [] 0 0 0 None).
    split; [reflexivity|]. rewrite edge_added_edges. repeat split.
  - destruct Hpool as [Hpool|[pool Hpool]]; [congruence|]. rewrite Hpool.
    exists (map_edge (set_pool pool) (length (edges_ (state_ s))) (edge_added v (state_ s))),
           (mkEdge (rule v) pool (env v) [] [] 0 0 0 None).
    split; [reflexivity|]. repeat split.
    change (edges_ (map_edge (set_pool pool) (length (edges_ (state_ s)))
                      (edge_added v (state_ s))))
      with (alter (set_pool pool) (length (edges_ (state_ s)))
                  (edges_ (edge_added v (state_ s)))).
    rewrite edge_added_edges.
    exact (alter_app_last (set_pool pool) (edges_ (state_ s)) _).
Qed.

(** A build statement whose outputs all have a producer already, under
    the warn policy: the statement succeeds and leaves the store as it was
    before it, without the new edge. *)
Lemma ParseEdge_build_discards v s ps :
  dupe_edge_action_ (options_ s) = kDupeEdgeActionWarn ->
  pool_resolves v (state_ s) ->
  canonical_outs (state_ s) (env v) (outs v) = Some ps ->
  Forall (fun p => has_in_edge (state_ s) p.1 = true) ps ->
  exists s', ParseEdge_build v s = Ret true s' /\ state_ s' = state_ s.
Proof.
  intros Hw Hpool Hc Hall.
  destruct (ParseEdge_pool_resolved v s Hpool)
    as (st3 & ed & Hrun & Hpa & Hpo & Hsc & Hde & Hed & Hout).
  unfold ParseEdge_build, bind at 1. simpl.
  unfold bind at 1, modify_state at 1, modify at 1. simpl.
  unfold bind at 1.
  change (ParseEdge_pool _ _) with
    (ParseEdge_pool (length (edges_ (state_ s))) (set_state (edge_added v (state_ s)) s)).
  rewrite Hrun.
  unfold bind at 1.
  destruct (ParseEdge_outputs_all_produced (length (edges_ (state_ s))) (env v)
              (Z.of_nat (length (outs v))) (outs v) ps (set_state st3 s) 0 (implicit_outs v))
    as (n' & s4 & Hloop & Hst4 & Hop4 & Hl4 & Herr4); simpl.
  { exact Hw. }
  { rewrite (canonical_outs_scopes st3 (state_ s)) by exact Hsc. exact Hc. }
  { eapply Forall_impl; [exact Hall|]. intros p Hp. simpl.
    unfold has_in_edge in *. rewrite Hpa. exact Hp. }
  rewrite Hloop. simpl in Hst4.
  unfold ParseEdge_link, bind at 1, get_edge. rewrite Hst4, Hed.
  rewrite lookup_app_r by lia. rewrite Nat.sub_diag. simpl.
  rewrite Hout. simpl.
  unfold bind, modify_state, modify, return_. simpl.
  eexists. split; [reflexivity|]. simpl.
  rewrite Hst4. unfold set_edges. rewrite Hpa, Hpo, Hsc, Hde, Hed.
  rewrite removelast_last. destruct (state_ s). reflexivity.
Qed.

Lemma kept_nil_all_produced ps : forall produced,
  kept produced ps = [] -> Forall (fun p => produced p = true) ps.
Proof.
  induction ps as [|p ps IH]; intros produced Hk; [constructor|].
  simpl in Hk. destruct (produced p) eqn:Hp; [|discriminate].
  constructor; [exact Hp | apply IH, Hk].
Qed.

(** *** Build statements: the outputs of the edge once they are set *)

Local Abbreviation returns_keeping := (returns_keeping (L:=L) (FR:=FR)).

Lemma edge_outputs_kept_refl edge st : edge_outputs_kept edge st st.
Proof. intros e He. eauto. Qed.

Lemma edge_outputs_kept_trans edge st1 st2 st3 :
  edge_outputs_kept edge st1 st2 -> edge_outputs_kept edge st2 st3 ->
  edge_outputs_kept edge st1 st3.
Proof.
  intros H12 H23 e He. destruct (H12 e He) as (e2 & He2 & Ho2 & Hi2).
  destruct (H23 e2 He2) as (e3 & He3 & Ho3 & Hi3).
  exists e3. split; [exact He3|]. split; congruence.
Qed.

Lemma edge_outputs_kept_edges edge st st' :
  edges_ st' = edges_ st -> edge_outputs_kept edge st st'.
Proof. intros Heq e He. rewrite Heq. eauto. Qed.

(** An update of an edge that leaves its outputs and their count. *)
Lemma edge_outputs_kept_map_edge (f : Edge -> Edge) edge edge' st :
  (forall e, outputs_ (f e) = outputs_ e /\ implicit_outs_ (f e) = implicit_outs_ e) ->
  edge_outputs_kept edge st (map_edge f edge' st).
Proof.
  intros Hf e He. simpl. destruct (decide (edge' = edge)) as [->|Hne].
  - rewrite list_lookup_alter_eq, He. simpl. exists (f e).
    split; [reflexivity | apply Hf].
  - rewrite list_lookup_alter_ne by exact Hne. eauto.
Qed.

Lemma edge_outputs_kept_AddIn edge edge' path slash_bits st :
  edge_outputs_kept edge st (AddIn edge' path slash_bits st).
Proof.
  unfold AddIn.
  set (st1 := GetNode path (env_of_edge st edge') slash_bits st).
  apply (edge_outputs_kept_trans edge st st1);
    [apply edge_outputs_kept_edges, GetNode_edges|].
  apply (edge_outputs_kept_trans edge st1
           (map_edge (set_inputs (fun i => i ++ [path])) edge' st1));
    [apply edge_outputs_kept_map_edge; intros e; split; reflexivity|].
  apply edge_outputs_kept_edges. reflexivity.
Qed.

Section Returning.

Variable G : State -> State -> Prop.
Hypothesis G_refl : forall st, G st st.
Hypothesis G_trans : forall st1 st2 st3, G st1 st2 -> G st2 st3 -> G st1 st3.

Lemma returns_keeping_bind {A B} (m : M A) (k : A -> M B) :
  returns_keeping G m -> (forall a, returns_keeping G (k a)) ->
  returns_keeping G (x <- m ;; k x).
Proof.
  intros Hm Hk s. apply wp_bind.
  eapply wp_mono; [apply Hm| | | |]; simpl; auto.
  intros a s1 H1. eapply wp_mono; [apply Hk| | | |]; simpl; eauto.
Qed.

Lemma returns_keeping_val {A} (a : A) : returns_keeping G (val a).
Proof. intros s. apply G_refl. Qed.

Lemma returns_keeping_return {A} b : returns_keeping G (return_ b : M A).
Proof. intros s. apply G_refl. Qed.

Lemma returns_keeping_get {A} (f : PState L FR -> A) : returns_keeping G (get f).
Proof. intros s. apply G_refl. Qed.

Lemma returns_keeping_return_Error {A} msg : returns_keeping G (return_Error msg : M A).
Proof. intros s. apply G_refl. Qed.

Lemma returns_keeping_Warning msg : returns_keeping G (Warning msg).
Proof. intros s. apply G_refl. Qed.

Lemma returns_keeping_set_err e : returns_keeping G (modify (set_err e)).
Proof. intros s. apply G_refl. Qed.

Lemma returns_keeping_modify_state (f : State -> State) :
  (forall st, G st (f st)) -> returns_keeping G (modify_state f).
Proof. intros Hf s. apply Hf. Qed.

Lemma returns_keeping_get_edge edge : returns_keeping G (get_edge edge).
Proof.
  intros s. unfold wp, get_edge. destruct (edges_ (state_ s) !! edge); apply G_refl.
Qed.

End Returning.

Local Ltac outputs_side edge :=
  first [exact (edge_outputs_kept_refl edge) | exact (edge_outputs_kept_refl edge _)
        | exact (edge_outputs_kept_trans edge) | assumption].

Lemma returns_ParseEdge_inputs edge edge' env ins :
  returns_keeping (edge_outputs_kept edge) (ParseEdge_inputs edge' env ins).
Proof.
  induction ins as [|i ins IH]; [apply returns_keeping_val; outputs_side edge|].
  simpl. apply returns_keeping_bind;
    [outputs_side edge | apply returns_keeping_get; outputs_side edge|].
  intros path. destruct (CanonicalizePath path) as [[p slash_bits]|path_err];
    [|apply returns_keeping_return_Error; outputs_side edge].
  apply returns_keeping_bind; [outputs_side edge| |intros _; exact IH].
  apply returns_keeping_modify_state. intros st. apply edge_outputs_kept_AddIn.
Qed.

Lemma returns_ParseEdge_phonycycle edge edge' :
  returns_keeping (edge_outputs_kept edge) (ParseEdge_phonycycle edge').
Proof.
  unfold ParseEdge_phonycycle.
  apply returns_keeping_bind;
    [outputs_side edge | apply returns_keeping_get; outputs_side edge|].
  intros opts. apply returns_keeping_bind;
    [outputs_side edge | apply returns_keeping_get_edge; outputs_side edge|].
  intros e. destruct (phony_cycle_action_ opts);
    [|apply returns_keeping_val; outputs_side edge].
  destruct (maybe_phonycycle_diagnostic e); [|apply returns_keeping_val; outputs_side edge].
  destruct (outputs_ e) as [|out outs']; [apply returns_keeping_val; outputs_side edge|].
  destruct (negb _); [|apply returns_keeping_val; outputs_side edge].
  apply returns_keeping_bind; [outputs_side edge| |].
  { apply returns_keeping_modify_state. intros st.
    apply edge_outputs_kept_map_edge. intros e0. split; reflexivity. }
  intros _. apply returns_keeping_bind;
    [outputs_side edge | apply returns_keeping_get; outputs_side edge|].
  intros quiet. destruct (negb quiet);
    [apply returns_keeping_Warning | apply returns_keeping_val]; outputs_side edge.
Qed.

Lemma returns_ParseEdge_deps edge edge' :
  returns_keeping (edge_outputs_kept edge) (ParseEdge_deps edge').
Proof.
  unfold ParseEdge_deps.
  apply returns_keeping_bind;
    [outputs_side edge | apply returns_keeping_get; outputs_side edge|].
  intros st. apply returns_keeping_bind;
    [outputs_side edge | apply returns_keeping_get_edge; outputs_side edge|].
  intros e. destruct (_ && _);
    [apply returns_keeping_return_Error | apply returns_keeping_val]; outputs_side edge.
Qed.

Lemma returns_ParseEdge_dyndep edge edge' env :
  returns_keeping (edge_outputs_kept edge) (ParseEdge_dyndep edge' env).
Proof.
  unfold ParseEdge_dyndep.
  apply returns_keeping_bind;
    [outputs_side edge | apply returns_keeping_get; outputs_side edge|].
  intros st. destruct (negb _); [|apply returns_keeping_val; outputs_side edge].
  destruct (CanonicalizePath _) as [[dyndep slash_bits]|canon_err].
  2:{ apply returns_keeping_bind;
        [outputs_side edge | apply returns_keeping_set_err; outputs_side edge|].
      intros _. apply returns_keeping_return; outputs_side edge. }
  apply returns_keeping_bind; [outputs_side edge| |intros _].
  { apply returns_keeping_modify_state. intros st0.
    apply edge_outputs_kept_edges, GetNode_edges. }
  apply returns_keeping_bind; [outputs_side edge| |intros _].
  { apply returns_keeping_modify_state. intros st0.
    apply edge_outputs_kept_map_edge. intros e0. split; reflexivity. }
  apply returns_keeping_bind; [outputs_side edge| |intros _].
  { apply returns_keeping_modify_state. intros st0.
    apply edge_outputs_kept_edges. reflexivity. }
  apply returns_keeping_bind;
    [outputs_side edge | apply returns_keeping_get_edge; outputs_side edge|].
  intros e. case_bool_decide;
    [apply returns_keeping_val | apply returns_keeping_return_Error]; outputs_side edge.
Qed.

(** Lines 343-409 for an edge that has an output: the count of implicit
    outputs is stored in the edge (line 350), and whatever the rest of the
    statement does, and whether it succeeds or fails, the edge keeps its
    outputs and that count. *)
Lemma ParseEdge_link_stores edge v n s e :
  edges_ (state_ s) !! edge = Some e ->
  outputs_ e <> [] ->
  exists b s_end e_end,
    ParseEdge_link edge v n s = Ret b s_end /\
    edges_ (state_ s_end) !! edge = Some e_end /\
    outputs_ e_end = outputs_ e /\ implicit_outs_ e_end = n.
Proof.
  intros He Hout. unfold ParseEdge_link, bind at 1.
  rewrite (get_edge_lookup edge s e He).
  rewrite bool_decide_eq_false_2 by exact Hout.
  unfold bind at 1, modify_state at 1, modify at 1.
  set (s1 := set_state (map_edge (set_implicit_outs n) edge (state_ s)) s).
  assert (He1 : edges_ (state_ s1) !! edge = Some (set_implicit_outs n e)).
  { unfold s1. simpl. rewrite list_lookup_alter_eq, He. reflexivity. }
  clearbody s1.
  assert (Hrest : returns_keeping (edge_outputs_kept edge)
            (ParseEdge_inputs edge (env v) (ins v) ;;;
             modify_state (map_edge (set_deps_counts (implicit v) (order_only v)) edge) ;;;
             ParseEdge_phonycycle edge ;;;
             ParseEdge_deps edge ;;;
             ParseEdge_dyndep edge (env v))).
  { apply returns_keeping_bind; [outputs_side edge | apply returns_ParseEdge_inputs|].
    intros _. apply returns_keeping_bind; [outputs_side edge| |intros _].
    { apply returns_keeping_modify_state. intros st.
      apply edge_outputs_kept_map_edge. intros e0. split; reflexivity. }
    apply returns_keeping_bind; [outputs_side edge | apply returns_ParseEdge_phonycycle|].
    intros _. apply returns_keeping_bind;
      [outputs_side edge | apply returns_ParseEdge_deps|].
    intros _. apply returns_ParseEdge_dyndep. }
  assert (Hwp : wp (ParseEdge_inputs edge (env v) (ins v) ;;;
                    modify_state (map_edge (set_deps_counts (implicit v) (order_only v))
                                           edge) ;;;
                    ParseEdge_phonycycle edge ;;;
                    ParseEdge_deps edge ;;;
                    ParseEdge_dyndep edge (env v) ;;;
                    return_ true)
                   (fun (_ : bool) _ => False)
                   (fun _ s' => edge_outputs_kept edge (state_ s1) (state_ s'))
                   (fun _ => False) False s1).
  { specialize (Hrest s1). unfold wp in *. unfold bind in *.
    destruct (ParseEdge_inputs edge (env v) (ins v) s1) as [[] s2|b s2|s2|]; try exact Hrest.
    unfold modify_state, modify in *.
    destruct (ParseEdge_phonycycle edge _) as [[] s3|b s3|s3|]; try exact Hrest.
    destruct (ParseEdge_deps edge s3) as [[] s4|b s4|s4|]; try exact Hrest.
    destruct (ParseEdge_dyndep edge (env v) s4) as [[] s5|b s5|s5|]; exact Hrest. }
  unfold wp in Hwp.
  destruct ((ParseEdge_inputs edge (env v) (ins v) ;;;
             modify_state (map_edge (set_deps_counts (implicit v) (order_only v)) edge) ;;;
             ParseEdge_phonycycle edge ;;;
             ParseEdge_deps edge ;;;
             ParseEdge_dyndep edge (env v) ;;;
             return_ true) s1) as [b s_end|b s_end|s_end|]; try contradiction.
  destruct (Hwp _ He1) as (e_end & He_end & Ho & Hi).
  exists b, s_end, e_end. auto.
Qed.


(** C1: a build statement some of whose outputs have a producing edge
    already, from an earlier statement or as an earlier output of the same
    statement. Under the error policy the statement fails with the
    duplicate-output error for the first such output. Under the warn policy
    the edge goes on with the outputs that are not duplicates, none of them
    a path that had a producer, and with its implicit count lowered by the
    number of duplicates in the implicit block: when an output is left, the
    statement ends, in success or in a later failure, with the edge in the
    store, its outputs the ones that are not duplicates and the count of
    implicit outputs stored in it the lowered one; and when no output is
    left the statement succeeds and the store is the one of before the
    statement, without the edge. *)
Theorem ParseEdge_duplicate_outputs v s ps :
  pool_resolves v (state_ s) ->
  canonical_outs (state_ s) (env v) (outs v) = Some ps ->
  0 <= implicit_outs v < 2 ^ 64 ->
  let produced := has_in_edge (state_ s) in
  let paths := map fst ps in
  let edge := length (edges_ (state_ s)) in
  (dupe_edge_action_ (options_ s) = kDupeEdgeActionError ->
   forall p, first_duplicate produced paths = Some p ->
   exists s',
     ParseEdge_build v s = Ret false s' /\
     err_ s' = Error ("multiple rules generate " +:+ p +:+ " [-w dupbuild=err]") (lexer_ s))
  /\
  (dupe_edge_action_ (options_ s) = kDupeEdgeActionWarn ->
   exists s' e',
     ParseEdge_build v s =
       ParseEdge_link edge v
         (implicit_outs v - dropped_implicit (implicit_outs v) (drops produced paths)) s' /\
     edges_ (state_ s') !! edge = Some e' /\
     outputs_ e' = kept produced paths /\
     (forall p, produced p = true -> p ∉ outputs_ e') /\
     (kept produced paths <> [] ->
      exists b s_end e_end,
        ParseEdge_build v s = Ret b s_end /\
        edges_ (state_ s_end) !! edge = Some e_end /\
        outputs_ e_end = kept produced paths /\
        implicit_outs_ e_end =
          implicit_outs v - dropped_implicit (implicit_outs v) (drops produced paths)))
  /\
  (dupe_edge_action_ (options_ s) = kDupeEdgeActionWarn ->
   kept produced paths = [] ->
   exists s', ParseEdge_build v s = Ret true s' /\ state_ s' = state_ s).
Proof.
  intros Hpool Hc Hn produced paths edge.
  destruct (ParseEdge_pool_resolved v s Hpool)
    as (st3 & ed & Hrun & Hpa & Hpo & Hsc & Hde & Hed & Hout).
  assert (Hc3 : canonical_outs st3 (env v) (outs v) = Some ps).
  { rewrite (canonical_outs_scopes st3 (state_ s)) by exact Hsc. exact Hc. }
  assert (Hin3 : forall q, has_in_edge st3 q = produced q).
  { intros q. unfold produced, has_in_edge. rewrite Hpa. reflexivity. }
  assert (He3 : edges_ st3 !! edge = Some ed).
  { rewrite Hed. unfold edge. rewrite lookup_app_r by lia.
    rewrite Nat.sub_diag. reflexivity. }
  assert (Hstart : ParseEdge_build v s =
            (implicit_outs <- ParseEdge_outputs edge (env v) (Z.of_nat (length (outs v))) 0
                                (implicit_outs v) (outs v) ;;
             ParseEdge_link edge v implicit_outs) (set_state st3 s)).
  { unfold ParseEdge_build, bind at 1. simpl.
    unfold bind at 1, modify_state at 1, modify at 1. simpl.
    unfold bind at 1.
    change (ParseEdge_pool _ _) with
      (ParseEdge_pool (length (edges_ (state_ s))) (set_state (edge_added v (state_ s)) s)).
    rewrite Hrun. reflexivity. }
  split; [|split].
  - intros Herr p Hp.
    destruct (ParseEdge_outputs_error edge (env v) (Z.of_nat (length (outs v))) (outs v)
                ps (set_state st3 s) 0 (implicit_outs v) ed produced p)
      as (s' & Hloop & Hmsg); try assumption.
    exists s'. rewrite Hstart. unfold bind. rewrite Hloop. split; [reflexivity|exact Hmsg].
  - intros Hw.
    destruct (ParseEdge_outputs_warn edge (env v) (Z.of_nat (length (outs v))) (outs v)
                ps (set_state st3 s) 0 (implicit_outs v) ed produced)
      as (s' & Hloop & Hed' & _); try assumption; try lia.
    exists s', (set_outputs (fun o => o ++ kept produced (map fst ps)) ed).
    rewrite Hstart. unfold bind. rewrite Hloop.
    assert (Hkept : outputs_ (set_outputs (fun o => o ++ kept produced (map fst ps)) ed) =
                    kept produced paths).
    { simpl. rewrite Hout. reflexivity. }
    split; [reflexivity|]. split; [exact Hed'|].
    split; [exact Hkept|].
    split.
    + intros p Hp Hin. rewrite Hkept in Hin.
      apply kept_not_produced in Hin. congruence.
    + intros Hne.
      destruct (ParseEdge_link_stores edge v
                  (implicit_outs v -
                   dropped_implicit (implicit_outs v) (drops produced (map fst ps)))
                  s' _ Hed') as (b & s_end & e_end & Hlink & He_end & Ho & Hi).
      { rewrite Hkept. exact Hne. }
      exists b, s_end, e_end. rewrite Hkept in Ho. auto.
  - intros Hw Hk.
    apply (ParseEdge_build_discards v s ps Hw Hpool Hc).
    apply kept_nil_all_produced in Hk.
    rewrite Forall_forall in Hk. apply Forall_forall. intros p Hp.
    apply Hk. apply list_elem_of_fmap. exists p. split; [reflexivity|exact Hp].
Qed.

(** *** Pool statements: registration *)

Lemma to_int_range z : - 2 ^ 31 <= to_int z < 2 ^ 31.
Proof.
  unfold to_int. pose proof (Z.mod_pos_bound (z + 2 ^ 31) (2 ^ 32)). lia.
Qed.

(** The loop of [ParsePool] keeps the store; the depth it hands back is
    the one it started with or a non-negative [int]. *)
Lemma ParsePool_bindings_wp fuel : forall depth s,
  wp (ParsePool_bindings fuel depth)
     (fun d s' => same_store s s' /\ (d = depth \/ 0 <= d < 2 ^ 31))
     (fun b s' => b = false /\ same_store s s')
     (fun _ => False) True s.
Proof.
  induction fuel as [|fuel IH]; intros depth s; [exact I|].
  simpl. apply wp_bind.
  eapply wp_lexer_only; [apply (lexer_only_lex (fun b => b = false))| |]; [|auto].
  intros indent s1 Hs1. destruct indent; simpl; [|split; [exact Hs1 | left; reflexivity]].
  apply wp_bind.
  eapply wp_lexer_only; [apply (lexer_only_ParseLet (fun b => b = false))| |];
    [|eauto using same_store_trans].
  intros [[key value]|] s2 Hs2%(same_store_trans _ _ _ Hs1); [|split; auto].
  destruct (String.eqb key "depth").
  2:{ apply wp_return_Error. split; [reflexivity|]. apply same_store_set_err, Hs2. }
  unfold wp at 1, bind at 1, get at 1. unfold bind at 1, Evaluate_, get at 1.
  pose proof (to_int_range (atol (Evaluate (state_ s2) (env_ s2) value))) as Hrange.
  destruct (to_int (atol (Evaluate (state_ s2) (env_ s2) value)) <? 0) eqn:Hneg.
  { apply wp_return_Error. split; [reflexivity|]. apply same_store_set_err, Hs2. }
  apply Z.ltb_ge in Hneg.
  fold (wp (L:=L) (FR:=FR) (A:=Z)).
  eapply wp_mono; [apply IH| | | |]; simpl; [| |auto|auto].
  - intros d s' (Hs' & Hd). split; [eauto using same_store_trans|].
    right. destruct Hd as [->|Hd]; lia.
  - intros b s' (-> & Hs'). eauto using same_store_trans.
Qed.

Lemma ParsePool_wp fuel s :
  wp (ParsePool fuel) (ParsePool_post s) (fun _ _ => False) (fun _ => False) True s.
Proof.
  assert (Hfail : forall s', same_store s s' -> ParsePool_post s false s').
  { intros s' Hs'. apply Hs'. }
  unfold ParsePool. apply wp_call.
  unfold wp at 1, bind at 1, lex at 1.
  destruct (ReadIdent (lexer_ s)) as [[name|] l1] eqn:Hname.
  2:{ apply Hfail. repeat split. }
  fold (wp (L:=L) (FR:=FR) (A:=bool)).
  assert (Hs1 : same_store s (set_lexer l1 s)) by (repeat split).
  revert Hs1. generalize (set_lexer l1 s). intros s1 Hs1.
  apply wp_bind.
  eapply wp_lexer_only; [apply (lexer_only_ExpectToken (fun b => b = false))| |];
    [|intros b s' -> ?; eauto using same_store_trans].
  intros expected s2 Hs2%(same_store_trans _ _ _ Hs1).
  apply wp_bind.
  eapply wp_lexer_only; [apply (lexer_only_require (fun b => b = false)); reflexivity| |];
    [|intros b s' -> ?; eauto using same_store_trans].
  intros _ s3 Hs3%(same_store_trans _ _ _ Hs2).
  unfold wp at 1, bind at 1, get at 1.
  destruct (LookupPool (state_ s3) name) eqn:Hdup.
  { apply wp_return_Error. apply Hfail, same_store_set_err. assumption. }
  fold (wp (L:=L) (FR:=FR) (A:=bool)). apply wp_bind.
  eapply wp_mono; [apply (ParsePool_bindings_wp fuel (-1) s3)| | | |];
    simpl; [|intros b s' [-> ?]; eauto using same_store_trans|auto|auto].
  intros depth s4 (Hs4%(same_store_trans _ _ _ Hs3) & Hdepth).
  destruct (depth <? 0) eqn:Hneg.
  { apply wp_return_Error. apply Hfail, same_store_set_err. assumption. }
  apply Z.ltb_ge in Hneg.
  unfold wp, bind, modify_state, modify, return_, ParsePool_post. simpl.
  exists name, l1, depth.
  destruct Hs4 as (Hst & _). destruct Hs3 as (Hst3 & _).
  split; [exact Hname|]. split; [rewrite <- Hst3; exact Hdup|].
  split; [lia|]. rewrite Hst. reflexivity.
Qed.

(** X1: pool registration is atomic. When a pool statement fails, for
    whatever reason, the store is the one of before the statement; when it
    succeeds exactly one pool has been added, under a name that was not
    declared before and with a depth that is a non-negative [int]. *)
Theorem ParsePool_atomic fuel s b s' :
  ParsePool fuel s = Val b s' ->
  (b = false -> state_ s' = state_ s) /\
  (b = true ->
   exists name depth,
     LookupPool (state_ s) name = None /\
     0 <= depth < 2 ^ 31 /\
     state_ s' = AddPool (mkPool name depth) (state_ s)).
Proof.
  intros Hrun. pose proof (ParsePool_wp fuel s) as Hwp.
  unfold wp in Hwp. rewrite Hrun in Hwp. unfold ParsePool_post in Hwp.
  split; intros ->; [exact Hwp|].
  destruct Hwp as (name & l1 & depth & _ & Hnew & Hdepth & Hst).
  exists name, depth. auto.
Qed.

(** The head of a pool statement whose name is declared already. *)
Lemma ParsePool_duplicate fuel s name p l1 l2 :
  ReadIdent (lexer_ s) = (Some name, l1) ->
  ReadToken l1 = (NEWLINE, l2) ->
  LookupPool (state_ s) name = Some p ->
  ParsePool fuel s =
    Val false (set_err (Error ("duplicate pool '" +:+ name +:+ "'") l2) (set_lexer l2 s)).
Proof.
  intros H1 H2 H3.
  unfold ParsePool, call. unfold bind at 1. unfold lex at 1. rewrite H1. simpl.
  unfold bind at 1. unfold ExpectToken, call, bind at 1, lex at 1. simpl. rewrite H2. simpl.
  unfold bind at 1. simpl. unfold bind at 1. simpl. rewrite H3. reflexivity.
Qed.

(** X2: a pool is declared once. After a pool statement that succeeds the
    pool table holds the pool under the name of the statement, and a later
    pool statement of that name fails on the same store with the error of a
    duplicate pool, before any of its lines is read. *)
Theorem ParsePool_declares_once fuel s s' :
  ParsePool fuel s = Val true s' ->
  exists name l1 depth,
    ReadIdent (lexer_ s) = (Some name, l1) /\
    LookupPool (state_ s') name = Some (mkPool name depth) /\
    forall fuel2 s2 l1' l2',
      state_ s2 = state_ s' ->
      ReadIdent (lexer_ s2) = (Some name, l1') ->
      ReadToken l1' = (NEWLINE, l2') ->
      ParsePool fuel2 s2 =
        Val false (set_err (Error ("duplicate pool '" +:+ name +:+ "'") l2')
                           (set_lexer l2' s2)).
Proof.
  intros Hrun. pose proof (ParsePool_wp fuel s) as Hwp.
  unfold wp in Hwp. rewrite Hrun in Hwp.
  destruct Hwp as (name & l1 & depth & Hname & _ & _ & Hst).
  assert (Hlook : LookupPool (state_ s') name = Some (mkPool name depth)).
  { rewrite Hst. unfold LookupPool, AddPool. simpl. apply lookup_insert_eq. }
  exists name, l1, depth. split; [exact Hname|]. split; [exact Hlook|].
  intros fuel2 s2 l1' l2' Hs2 H1 H2.
  apply (ParsePool_duplicate fuel2 s2 name (mkPool name depth) l1' l2' H1 H2).
  rewrite Hs2. exact Hlook.
Qed.

(** The loop of [ParsePool] over a prefix of accepted lines. *)
Lemma ParsePool_bindings_prefix n : forall fuel depth s bs l',
  read_lets n (lexer_ s) = Some (bs, l') ->
  Forall (fun b => b.1 = "depth") bs ->
  Forall (fun b => 0 <= pool_depth s b.2) bs ->
  ParsePool_bindings (n + fuel) depth s =
    ParsePool_bindings fuel (default depth (last (map (fun b => pool_depth s b.2) bs)))
                       (set_lexer l' s).
Proof.
  induction n as [|n IH]; intros fuel depth s bs l' Hr Hk Hv.
  - injection Hr as <- <-. destruct s; reflexivity.
  - apply read_lets_S in Hr
      as (key & value & bs' & l1 & l2 & l3 & l4 & -> & Hi & H1 & H2 & H3 & Hr).
    apply Forall_cons in Hk as [Hk Hks]. apply Forall_cons in Hv as [Hv Hvs].
    simpl in Hk, Hv. change (S n + fuel)%nat with (S (n + fuel)).
    rewrite (ParsePool_bindings_step (n + fuel) depth s key value l1 l2 l3 l4) by assumption.
    destruct (pool_depth s value <? 0) eqn:E; [apply Z.ltb_lt in E; lia|].
    rewrite (IH fuel (pool_depth s value) (set_lexer l4 s) bs' l'); try assumption.
    simpl. rewrite default_last_cons. reflexivity.
Qed.

(** X3: [depth] is the only key of a pool statement. After any number of
    accepted [depth] lines, an indented line with another key makes the
    statement fail with the error of an unexpected variable, and the store
    is the one of before the statement. *)
Theorem ParsePool_only_depth (fuel n : nat) s name l1 l2 l3 l4 l5 l6 l7 bs key value :
  ReadIdent (lexer_ s) = (Some name, l1) ->
  ReadToken l1 = (NEWLINE, l2) ->
  LookupPool (state_ s) name = None ->
  read_lets n l2 = Some (bs, l3) ->
  Forall (fun b => b.1 = "depth") bs ->
  Forall (fun b => 0 <= pool_depth s b.2) bs ->
  PeekToken INDENT l3 = (true, l4) ->
  ReadIdent l4 = (Some key, l5) ->
  ReadToken l5 = (EQUALS, l6) ->
  ReadVarValue l6 = (inl value, l7) ->
  key <> "depth" ->
  (n < fuel)%nat ->
  ParsePool fuel s =
    Val false (set_err (Error ("unexpected variable '" +:+ key +:+ "'") l7)
                       (set_lexer l7 s)).
Proof.
  intros H1 H2 H3 Hr Hk Hv Hp Hi He Hval Hkey Hn.
  rewrite (ParsePool_head fuel s name l1 l2) by assumption.
  replace fuel with (n + S (fuel - S n))%nat by lia.
  unfold call, bind at 1.
  rewrite (ParsePool_bindings_prefix n (S (fuel - S n)) (-1) (set_lexer l2 s) bs l3)
    by assumption.
  simpl ParsePool_bindings. unfold bind at 1, lex at 1. simpl. rewrite Hp. simpl.
  unfold bind at 1.
  rewrite (ParseLet_reads (set_lexer l4 (set_lexer l3 (set_lexer l2 s))) key value l5 l6 l7)
    by assumption.
  simpl. apply String.eqb_neq in Hkey. rewrite Hkey. reflexivity.
Qed.

(** *** Rule statements: registration *)

(** A rule statement that succeeds adds a rule of the name it gives. *)
Lemma ParseRule_registers fuel s :
  wp (ParseRule fuel)
     (fun b s' =>
        b = true ->
        exists name l1 rule,
          ReadIdent (lexer_ s) = (Some name, l1) /\ rule_name_ rule = name /\
          state_ s' = AddRule (env_ s) rule (state_ s))
     (fun _ _ => False) (fun _ => False) True s.
Proof.
  unfold ParseRule. apply wp_call.
  unfold wp at 1, bind at 1, lex at 1.
  destruct (ReadIdent (lexer_ s)) as [[name|] l1] eqn:Hname; [|discriminate].
  fold (wp (L:=L) (FR:=FR) (A:=bool)).
  assert (Hs1 : same_store s (set_lexer l1 s)) by (repeat split).
  revert Hs1. generalize (set_lexer l1 s). intros s1 Hs1.
  apply wp_bind.
  eapply wp_lexer_only; [apply (lexer_only_ExpectToken (fun b => b = false))| |];
    [|intros b s' -> ?; discriminate].
  intros expected s2 Hs2%(same_store_trans _ _ _ Hs1).
  apply wp_bind.
  eapply wp_lexer_only; [apply (lexer_only_require (fun b => b = false)); reflexivity| |];
    [|intros b s' -> ?; discriminate].
  intros _ s3 Hs3%(same_store_trans _ _ _ Hs2).
  unfold wp at 1, bind at 1, get at 1. unfold bind at 1, get at 1.
  destruct (LookupRuleCurrentScope (state_ s3) (env_ s3) name) eqn:Hdup.
  { apply wp_return_Error. discriminate. }
  fold (wp (L:=L) (FR:=FR) (A:=bool)). apply wp_bind.
  eapply wp_mono; [apply (ParseRule_bindings_wp fuel (mkRule name ∅) s3)| | | |];
    simpl; [| |intros b s' [-> ?]; discriminate|auto|auto].
  { intros k [x Hx]. simpl in Hx. rewrite lookup_empty in Hx. discriminate. }
  intros r0 s4 (Hs4%(same_store_trans _ _ _ Hs3) & Hr0 & _).
  destruct (Rule_index "rspfile" r0) as [rspfile r1] eqn:E1.
  destruct (Rule_index "rspfile_content" r1) as [rspfile_content r2] eqn:E2.
  destruct (negb (Bool.eqb (empty rspfile) (empty rspfile_content))).
  { apply wp_return_Error. discriminate. }
  destruct (Rule_index "command" r2) as [command r3] eqn:E3.
  destruct (empty command).
  { apply wp_return_Error. discriminate. }
  unfold wp, bind, modify_state, modify, return_. simpl. intros _.
  exists name, l1, r3. split; [reflexivity|].
  destruct Hs4 as (Hst & _). destruct Hs3 as (_ & Henv3 & _).
  split; [|rewrite Hst, Henv3; reflexivity].
  replace r3 with (Rule_index "command" r2).2 by (rewrite E3; reflexivity).
  replace r2 with (Rule_index "rspfile_content" r1).2 by (rewrite E2; reflexivity).
  replace r1 with (Rule_index "rspfile" r0).2 by (rewrite E1; reflexivity).
  rewrite !Rule_index_name. exact Hr0.
Qed.

(** The head of a rule statement whose name is declared in the scope of
    the parser already. *)
Lemma ParseRule_duplicate fuel s name r l1 l2 :
  ReadIdent (lexer_ s) = (Some name, l1) ->
  ReadToken l1 = (NEWLINE, l2) ->
  LookupRuleCurrentScope (state_ s) (env_ s) name = Some r ->
  ParseRule fuel s =
    Val false (set_err (Error ("duplicate rule '" +:+ name +:+ "'") l2) (set_lexer l2 s)).
Proof.
  intros H1 H2 H3.
  unfold ParseRule, call. unfold bind at 1. unfold lex at 1. rewrite H1. simpl.
  unfold bind at 1. unfold ExpectToken, call, bind at 1, lex at 1. simpl. rewrite H2. simpl.
  unfold bind at 1. simpl. unfold bind at 1. simpl. unfold bind at 1. simpl.
  rewrite H3. reflexivity.
Qed.

Lemma LookupRuleCurrentScope_AddRule env r st :
  (env < length (scopes_ st))%nat ->
  LookupRuleCurrentScope (AddRule env r st) env (rule_name_ r) = Some r.
Proof.
  intros Hlen. apply lookup_lt_is_Some_2 in Hlen as [be Hbe].
  unfold LookupRuleCurrentScope, AddRule, map_env. simpl.
  rewrite list_lookup_alter_eq, Hbe. simpl. apply lookup_insert_eq.
Qed.

Lemma LookupRule_current st env name r :
  LookupRuleCurrentScope st env name = Some r -> LookupRule st env name = Some r.
Proof.
  unfold LookupRuleCurrentScope, LookupRule.
  destruct (scopes_ st !! env) as [be|] eqn:Hbe; [|discriminate].
  intros Hr. destruct (scopes_ st) as [|be0 scopes]; [discriminate|].
  simpl length. cbn [LookupRule_from]. rewrite Hbe, Hr. reflexivity.
Qed.

(** X4: a rule is declared once in a scope, and a build statement finds
    it. After a rule statement that succeeds in an existing scope, the rule
    lookup of that scope, with or without its parents, gives the rule under
    the name of the statement, whatever rule of that name a parent scope
    holds; and a later rule statement of that name in the same scope fails
    with the error of a duplicate rule. *)
Theorem ParseRule_declares_once fuel s s' :
  ParseRule fuel s = Val true s' ->
  (env_ s < length (scopes_ (state_ s)))%nat ->
  exists name l1 rule,
    ReadIdent (lexer_ s) = (Some name, l1) /\
    rule_name_ rule = name /\
    LookupRuleCurrentScope (state_ s') (env_ s) name = Some rule /\
    LookupRule (state_ s') (env_ s) name = Some rule /\
    forall fuel2 s2 l1' l2',
      state_ s2 = state_ s' -> env_ s2 = env_ s ->
      ReadIdent (lexer_ s2) = (Some name, l1') ->
      ReadToken l1' = (NEWLINE, l2') ->
      ParseRule fuel2 s2 =
        Val false (set_err (Error ("duplicate rule '" +:+ name +:+ "'") l2')
                           (set_lexer l2' s2)).
Proof.
  intros Hrun Henv. pose proof (ParseRule_registers fuel s) as Hwp.
  unfold wp in Hwp. rewrite Hrun in Hwp.
  destruct (Hwp eq_refl) as (name & l1 & rule & Hname & Hrule & Hst).
  assert (Hlook : LookupRuleCurrentScope (state_ s') (env_ s) name = Some rule).
  { rewrite Hst, <- Hrule. apply LookupRuleCurrentScope_AddRule, Henv. }
  exists name, l1, rule. split; [exact Hname|]. split; [exact Hrule|].
  split; [exact Hlook|]. split; [apply LookupRule_current, Hlook|].
  intros fuel2 s2 l1' l2' Hs2 He2 H1 H2.
  apply (ParseRule_duplicate fuel2 s2 name rule l1' l2' H1 H2).
  rewrite Hs2, He2. exact Hlook.
Qed.

(** *** Default statements *)

Lemma next_paths_S n l paths l' :
  next_paths (S n) l = Some (paths, l') ->
  exists path paths' l1,
    paths = path :: paths' /\ ReadPath l = (inl path, l1) /\ empty path = false /\
    next_paths n l1 = Some (paths', l').
Proof.
  simpl. destruct (ReadPath l) as [[path|] l1] eqn:E1; [|discriminate].
  destruct (empty path) eqn:E2; [discriminate|].
  destruct (next_paths n l1) as [[paths' l'']|] eqn:E3; [|discriminate].
  intros [= <- <-]. exists path, paths', l1. auto.
Qed.

(** One turn of the loop of [ParseDefault] on a path that has a node. *)
Lemma ParseDefault_paths_step fuel eval s p bits next l1 :
  CanonicalizePath (Evaluate (state_ s) (env_ s) eval) = inl (p, bits) ->
  is_Some (paths_ (state_ s) !! p) ->
  ReadPath (lexer_ s) = (inl next, l1) ->
  ParseDefault_paths (S fuel) eval s =
    let s1 := set_state (set_defaults (fun d => d ++ [p]) (state_ s)) (set_lexer l1 s) in
    if empty next then Val tt s1 else ParseDefault_paths fuel next s1.
Proof.
  intros Hc [node Hn] Hr. simpl.
  unfold bind at 1, get at 1. unfold bind at 1, Evaluate_, get at 1.
  rewrite Hc. unfold bind at 1, get at 1. unfold AddDefault. rewrite Hn.
  unfold bind at 1, modify at 1. unfold bind at 1.
  rewrite (ReadPath_reads _ next l1) by exact Hr.
  destruct (empty next); reflexivity.
Qed.

(** One turn of the loop of [ParseDefault] on a path without node. *)
Lemma ParseDefault_paths_unknown fuel eval s p bits :
  CanonicalizePath (Evaluate (state_ s) (env_ s) eval) = inl (p, bits) ->
  paths_ (state_ s) !! p = None ->
  ParseDefault_paths (S fuel) eval s =
    Ret false (set_err (Error ("unknown target '" +:+ p +:+ "'") (lexer_ s)) s).
Proof.
  intros Hc Hn. simpl.
  unfold bind at 1, get at 1. unfold bind at 1, Evaluate_, get at 1.
  rewrite Hc. unfold bind at 1, get at 1. unfold AddDefault. rewrite Hn. reflexivity.
Qed.

Lemma set_defaults_app (l1 l2 : list string) st :
  set_defaults (fun d => d ++ l2) (set_defaults (fun d => d ++ l1) st) =
  set_defaults (fun d => d ++ l1 ++ l2) st.
Proof. unfold set_defaults. simpl. rewrite app_assoc. reflexivity. Qed.

(** The loop of [ParseDefault] over [k] more paths that all have a node:
    it stands at the path read after them with the default targets grown
    by the paths, in their order. *)
Lemma ParseDefault_paths_known k : forall fuel s eval evals l1 ps next l2,
  next_paths k (lexer_ s) = Some (evals, l1) ->
  canonical_outs (state_ s) (env_ s) (eval :: evals) = Some ps ->
  Forall (fun p => is_Some (paths_ (state_ s) !! p.1)) ps ->
  ReadPath l1 = (inl next, l2) ->
  ParseDefault_paths (k + S fuel) eval s =
    let s' := set_state (set_defaults (fun d => d ++ map fst ps) (state_ s))
                        (set_lexer l2 s) in
    if empty next then Val tt s' else ParseDefault_paths fuel next s'.
Proof.
  induction k as [|k IH]; intros fuel s eval evals l1 ps next l2 Hr Hc Hk Hnext.
  - injection Hr as <- <-.
    apply canonical_outs_cons in Hc as ([p bits] & ps' & -> & Hp & Hps).
    injection Hps as <-. apply Forall_cons in Hk as [Hk _].
    apply (ParseDefault_paths_step fuel eval s p bits next l2 Hp Hk Hnext).
  - apply next_paths_S in Hr as (path & evals' & l0 & -> & Hr0 & Hne & Hr).
    apply canonical_outs_cons in Hc as ([p bits] & ps' & -> & Hp & Hps).
    apply Forall_cons in Hk as [Hk Hks].
    change (S k + S fuel)%nat with (S (k + S fuel)).
    rewrite (ParseDefault_paths_step (k + S fuel) eval s p bits path l0 Hp Hk Hr0).
    cbv zeta. rewrite Hne.
    rewrite (IH fuel _ path evals' l1 ps' next l2); try assumption.
    + cbv zeta. simpl state_. rewrite set_defaults_app. reflexivity.
    + rewrite <- Hps. apply canonical_outs_scopes. reflexivity.
Qed.

(** X5: a default statement appends its targets to the default targets,
    in the order of the statement. When each of its paths has a canonical
    form and names a node of the store, the statement succeeds and the
    default targets are the ones of before followed by the canonical paths;
    nothing else of the store changes. *)
Theorem ParseDefault_appends (fuel n : nat) s evals l1 l2 l3 ps :
  next_paths n (lexer_ s) = Some (evals, l1) ->
  ReadPath l1 = (inl [], l2) ->
  ReadToken l2 = (NEWLINE, l3) ->
  canonical_outs (state_ s) (env_ s) evals = Some ps ->
  Forall (fun p => is_Some (paths_ (state_ s) !! p.1)) ps ->
  (0 < n <= fuel)%nat ->
  ParseDefault fuel s =
    Val true (set_state (set_defaults (fun d => d ++ map fst ps) (state_ s))
                        (set_lexer l3 s)).
Proof.
  intros Hr Hend Hnl Hc Hk Hn.
  destruct n as [|k]; [lia|].
  apply next_paths_S in Hr as (path & evals' & l0 & -> & Hr0 & Hne & Hr).
  unfold ParseDefault, call, bind at 1.
  rewrite (ReadPath_reads s path l0 Hr0). rewrite Hne.
  replace fuel with (k + S (fuel - S k))%nat by lia.
  unfold bind at 1.
  rewrite (ParseDefault_paths_known k (fuel - S k) (set_lexer l0 s) path evals' l1 ps [] l2)
    by assumption.
  simpl. unfold bind at 1, ExpectToken, call, bind at 1, lex at 1. simpl.
  rewrite Hnl. simpl. reflexivity.
Qed.

(** X6: a default statement does not roll back. When the targets before
    the first path without a node all have one, the statement fails at that
    path with the error of an unknown target, and the targets before it stay
    appended to the default targets. *)
Theorem ParseDefault_unknown_target (fuel k : nat) s evals l1 l2 ps bad p bits :
  next_paths k (lexer_ s) = Some (evals, l1) ->
  ReadPath l1 = (inl bad, l2) -> empty bad = false ->
  canonical_outs (state_ s) (env_ s) evals = Some ps ->
  Forall (fun p => is_Some (paths_ (state_ s) !! p.1)) ps ->
  CanonicalizePath (Evaluate (state_ s) (env_ s) bad) = inl (p, bits) ->
  paths_ (state_ s) !! p = None ->
  (k < fuel)%nat ->
  ParseDefault fuel s =
    Val false (set_err (Error ("unknown target '" +:+ p +:+ "'") l2)
                 (set_state (set_defaults (fun d => d ++ map fst ps) (state_ s))
                            (set_lexer l2 s))).
Proof.
  intros Hr Hbad Hne Hc Hk Hp Hnone Hn.
  destruct k as [|k].
  - injection Hr as <- <-. injection Hc as <-.
    destruct fuel as [|fuel]; [lia|].
    unfold ParseDefault, call, bind at 1.
    rewrite (ReadPath_reads s bad l2 Hbad). rewrite Hne.
    unfold bind at 1.
    rewrite (ParseDefault_paths_unknown fuel bad (set_lexer l2 s) p bits) by assumption.
    simpl. unfold set_defaults. rewrite app_nil_r. destruct s as [? ? ? ? []]; reflexivity.
  - apply next_paths_S in Hr as (path & evals' & l0 & -> & Hr0 & Hne0 & Hr).
    unfold ParseDefault, call, bind at 1.
    rewrite (ReadPath_reads s path l0 Hr0). rewrite Hne0.
    replace fuel with (k + S (S (fuel - S (S k))))%nat by lia.
    unfold bind at 1.
    rewrite (ParseDefault_paths_known k (S (fuel - S (S k))) (set_lexer l0 s)
               path evals' l1 ps bad l2) by assumption.
    cbv zeta. rewrite Hne.
    rewrite (ParseDefault_paths_unknown _ bad _ p bits); [reflexivity| |exact Hnone].
    rewrite <- Hp. f_equal. apply Evaluate_scopes. reflexivity.
Qed.

Lemma defaults_grow_refl s : defaults_grow s s [].
Proof. unfold defaults_grow. rewrite app_nil_r. repeat split. constructor. Qed.

Lemma defaults_grow_same_store s0 s s' added :
  defaults_grow s0 s added -> same_store s s' -> defaults_grow s0 s' added.
Proof.
  unfold defaults_grow, same_store. intros (?&?&?&?&?&?&?) (Hst&Henv&_).
  rewrite Hst, Henv. auto 10.
Qed.

Lemma defaults_grow_trans s1 s2 s3 a b :
  defaults_grow s1 s2 a -> defaults_grow s2 s3 b -> defaults_grow s1 s3 (a ++ b).
Proof.
  unfold defaults_grow.
  intros (Hp&Hpo&He&Hs&Hen&Hd&Hk) (Hp'&Hpo'&He'&Hs'&Hen'&Hd'&Hk').
  repeat split; try congruence.
  - rewrite Hd', Hd, app_assoc. reflexivity.
  - apply Forall_app. split; [exact Hk|]. rewrite <- Hp. exact Hk'.
Qed.

(** The loop of [ParseDefault]: whatever its outcome, the default targets
    have grown by paths that have a node; when it ends without leaving the
    function it has added one at least. *)
Lemma ParseDefault_paths_wp fuel : forall eval s,
  wp (ParseDefault_paths fuel eval)
     (fun _ s' => exists added, added <> [] /\ defaults_grow s s' added)
     (fun b s' => b = false /\ exists added, defaults_grow s s' added)
     (fun _ => False) True s.
Proof.
  induction fuel as [|fuel IH]; intros eval s; [exact I|].
  simpl. unfold wp at 1, bind at 1, get at 1. unfold bind at 1, Evaluate_, get at 1.
  destruct (CanonicalizePath (Evaluate (state_ s) (env_ s) eval)) as [[p bits]|path_err].
  2:{ split; [reflexivity|]. exists [].
      eapply defaults_grow_same_store; [apply defaults_grow_refl | repeat split]. }
  unfold bind at 1, get at 1. unfold AddDefault.
  destruct (paths_ (state_ s) !! p) as [node|] eqn:Hnode.
  2:{ split; [reflexivity|]. exists [].
      eapply defaults_grow_same_store; [apply defaults_grow_refl | repeat split]. }
  unfold bind at 1, modify at 1.
  set (s1 := set_state (set_defaults (fun d => d ++ [p]) (state_ s)) s).
  assert (H1 : defaults_grow s s1 [p]).
  { repeat split. constructor; [rewrite Hnode; eauto | constructor]. }
  clearbody s1. fold (wp (L:=L) (FR:=FR) (A:=unit)).
  apply wp_bind.
  eapply wp_lexer_only; [apply (lexer_only_ReadPath (fun b => b = false))| |];
    [|intros b s' -> Hs'; split; [reflexivity|];
      exists [p]; eapply defaults_grow_same_store; eassumption].
  intros [next|] s2 Hs2.
  2:{ split; [reflexivity|]. exists [p]. eapply defaults_grow_same_store; eassumption. }
  pose proof (defaults_grow_same_store s s1 s2 [p] H1 Hs2) as H2.
  destruct (empty next).
  { exists [p]. split; [discriminate | exact H2]. }
  eapply wp_mono; [apply IH| | | |]; simpl; [| |auto|auto].
  - intros _ s' (added & _ & Ha). exists ([p] ++ added).
    split; [discriminate|]. eapply defaults_grow_trans; eassumption.
  - intros b s' (-> & added & Ha). split; [reflexivity|].
    exists ([p] ++ added). eapply defaults_grow_trans; eassumption.
Qed.

(** A default statement as a whole: the default targets grow by paths
    that have a node, by one at least when it succeeds. *)
Lemma ParseDefault_wp fuel s :
  wp (ParseDefault fuel)
     (fun b s' => exists added, defaults_grow s s' added /\ (b = true -> added <> []))
     (fun _ _ => False) (fun _ => False) True s.
Proof.
  unfold ParseDefault. apply wp_call, wp_bind.
  eapply wp_lexer_only; [apply (lexer_only_ReadPath (fun b => b = false))| |].
  2:{ intros b0 s0 -> Hs0. exists []. split; [|discriminate].
      eapply defaults_grow_same_store; [apply defaults_grow_refl | exact Hs0]. }
  intros [eval|] s1 Hs1.
  2:{ exists []. split; [|discriminate].
      eapply defaults_grow_same_store; [apply defaults_grow_refl | exact Hs1]. }
  pose proof (defaults_grow_same_store s s s1 [] (defaults_grow_refl s) Hs1) as H1.
  destruct (empty eval).
  { apply wp_return_Error. exists []. split; [|discriminate].
    eapply defaults_grow_same_store; [exact H1 | repeat split]. }
  apply wp_bind.
  eapply wp_mono; [apply ParseDefault_paths_wp| | | |]; simpl; [| |auto|auto].
  2:{ intros b0 s2 (-> & added & Ha). exists ([] ++ added). split; [|discriminate].
      eapply defaults_grow_trans; eassumption. }
  intros _ s2 (added & Hne & Ha).
  pose proof (defaults_grow_trans s s1 s2 [] added H1 Ha) as H2. simpl in H2.
  apply wp_bind.
  eapply wp_lexer_only; [apply (lexer_only_ExpectToken (fun b => b = false))| |].
  2:{ intros b0 s0 -> Hs0. exists added. split; [|discriminate].
      eapply defaults_grow_same_store; eassumption. }
  intros expected s3 Hs3.
  pose proof (defaults_grow_same_store s s2 s3 added H2 Hs3) as H3.
  destruct expected; simpl.
  - exists added. auto.
  - exists added. split; [exact H3 | discriminate].
Qed.

(** X7: a default statement never creates a node. Whatever its outcome,
    the nodes, pools, edges and scopes of the store are the ones of before
    and the default targets have only grown, by paths that have a node; a
    statement that succeeds has added one target at least. *)
Theorem ParseDefault_only_known_targets fuel s b s' :
  ParseDefault fuel s = Val b s' ->
  exists added,
    defaults_grow s s' added /\ (b = true -> added <> []).
Proof.
  intros Hrun. pose proof (ParseDefault_wp fuel s) as Hwp.
  unfold wp in Hwp. rewrite Hrun in Hwp.
  destruct Hwp as (added & Hgrow & Hne). exists added. split; assumption.
Qed.

(** *** Build statements: reading the statement *)

Lemma ParseEdge_paths_wp fuel on_error : forall paths count s,
  wp (ParseEdge_paths fuel on_error paths count)
     (fun r s' => same_store s s' /\
                  exists added, r = (paths ++ added, count + Z.of_nat (length added)))
     (fun b s' => b = on_error /\ same_store s s')
     (fun _ => False) True s.
Proof.
  induction fuel as [|fuel IH]; intros paths count s; [exact I|].
  simpl. apply wp_bind.
  eapply wp_lexer_only; [apply (lexer_only_ReadPath (fun b => b = on_error))| |]; [|auto].
  intros [path|] s1 Hs1; [|split; [reflexivity | exact Hs1]].
  destruct (empty path).
  - split; [exact Hs1|]. exists []. rewrite app_nil_r. f_equal. simpl. lia.
  - eapply wp_mono; [apply IH| | | |]; simpl; [| |auto|auto].
    + intros r s' (Hs' & added & ->). split; [eauto using same_store_trans|].
      exists (path :: added). rewrite <- app_assoc. f_equal. simpl length. lia.
    + intros b s' (-> & Hs'). eauto using same_store_trans.
Qed.

Lemma ParseEdge_explicit_outs_wp fuel : forall outs out s,
  wp (ParseEdge_explicit_outs fuel outs out)
     (fun r s' => same_store s s' /\ exists added, r = outs ++ added)
     (fun b s' => b = false /\ same_store s s')
     (fun _ => False) True s.
Proof.
  induction fuel as [|fuel IH]; intros outs out s; [exact I|].
  simpl. destruct (empty out).
  { split; [apply same_store_refl|]. exists []. rewrite app_nil_r. reflexivity. }
  apply wp_bind.
  eapply wp_lexer_only; [apply (lexer_only_ReadPath (fun b => b = false))| |]; [|auto].
  intros [out'|] s1 Hs1; [|split; [reflexivity | exact Hs1]].
  eapply wp_mono; [apply IH| | | |]; simpl; [| |auto|auto].
  - intros r s' (Hs' & added & ->). split; [eauto using same_store_trans|].
    exists (out :: added). rewrite <- app_assoc. reflexivity.
  - intros b s' (-> & Hs'). eauto using same_store_trans.
Qed.

Lemma same_store_parser s s' : same_store s s' -> same_parser s s'.
Proof. intros (_ & H). exact H. Qed.

Lemma same_parser_trans s1 s2 s3 :
  same_parser s1 s2 -> same_parser s2 s3 -> same_parser s1 s3.
Proof.
  unfold same_parser. intros (?&?&?&?&?) (?&?&?&?&?). repeat split; congruence.
Qed.

(** The loop over the bindings of a build statement whose scope is the
    last one of the store: it changes that scope only, and neither its
    parent nor its rules. *)
Lemma ParseEdge_bindings_wp fuel : forall has_indent_token s scopes0 be,
  scopes_ (state_ s) = scopes0 ++ [be] ->
  let inv s' :=
    same_parser s s' /\
    paths_ (state_ s') = paths_ (state_ s) /\ pools_ (state_ s') = pools_ (state_ s) /\
    edges_ (state_ s') = edges_ (state_ s) /\ defaults_ (state_ s') = defaults_ (state_ s) /\
    exists be', scopes_ (state_ s') = scopes0 ++ [be'] /\
                parent_ be' = parent_ be /\ rules_ be' = rules_ be in
  wp (ParseEdge_bindings fuel (length scopes0) has_indent_token)
     (fun _ s' => inv s') (fun b s' => b = false /\ inv s')
     (fun _ => False) True s.
Proof.
  induction fuel as [|fuel IH]; intros has_indent_token s scopes0 be Hsc inv; [exact I|].
  assert (Hinv : forall s', same_store s s' -> inv s').
  { intros s' (Hst & Hp). split; [exact Hp|]. rewrite Hst.
    repeat split. exists be. auto. }
  simpl. destruct has_indent_token; simpl; [|apply Hinv, same_store_refl].
  apply wp_bind.
  eapply wp_lexer_only; [apply (lexer_only_ParseLet (fun b => b = false))| |]; [|auto].
  intros [[key value]|] s1 Hs1; [|split; [reflexivity | apply Hinv, Hs1]].
  unfold wp at 1, bind at 1, get at 1. unfold bind at 1, Evaluate_, get at 1.
  unfold bind at 1, modify_state, modify at 1.
  set (s2 := set_state _ s1).
  fold (wp (L:=L) (FR:=FR) (A:=unit)).
  destruct Hs1 as (Hst1 & Hp1).
  assert (Hsc2 : scopes_ (state_ s2) = scopes0 ++
            [mkBindingEnv (<[key := Evaluate (state_ s1) (env_ s1) value]> (bindings_ be))
                          (rules_ be) (parent_ be) (rel_path_ be) (abs_path_ be)]).
  { unfold s2. simpl. rewrite Hst1, Hsc.
    exact (alter_app_last _ scopes0 be). }
  assert (H2 : same_parser s s2 /\
    paths_ (state_ s2) = paths_ (state_ s) /\ pools_ (state_ s2) = pools_ (state_ s) /\
    edges_ (state_ s2) = edges_ (state_ s) /\ defaults_ (state_ s2) = defaults_ (state_ s)).
  { unfold s2. simpl. rewrite Hst1. repeat split; apply Hp1. }
  clearbody s2.
  apply wp_bind.
  eapply wp_lexer_only; [apply (lexer_only_lex (fun _ => False))| |];
    [|intros b s' []].
  intros has s3 (Hst3 & Hp3).
  assert (Hsc3 : scopes_ (state_ s3) = scopes0 ++
            [mkBindingEnv (<[key := Evaluate (state_ s1) (env_ s1) value]> (bindings_ be))
                          (rules_ be) (parent_ be) (rel_path_ be) (abs_path_ be)])
    by (rewrite Hst3; exact Hsc2).
  destruct H2 as (Hpar & Hpa & Hpo & He & Hd).
  assert (Hpar3 : same_parser s s3) by (eapply same_parser_trans; eassumption).
  eapply wp_mono; [apply (IH has s3 scopes0 _ Hsc3)| | | |]; cbv zeta; [| |auto|auto].
  - intros _ s' (Hpar' & Hpa' & Hpo' & He' & Hd' & be' & Hsc' & Hparent & Hrules).
    split; [eapply same_parser_trans; eassumption|].
    rewrite Hpa', Hpo', He', Hd', Hst3. repeat split; try assumption.
    exists be'. auto.
  - intros b s' (-> & Hpar' & Hpa' & Hpo' & He' & Hd' & be' & Hsc' & Hparent & Hrules).
    split; [reflexivity|].
    split; [eapply same_parser_trans; eassumption|].
    rewrite Hpa', Hpo', He', Hd', Hst3. repeat split; try assumption.
    exists be'. auto.
Qed.

Lemma ParseEdge_optional_paths_wp fuel on_error (present : bool) paths s :
  wp (if present then ParseEdge_paths fuel on_error paths 0 else val (paths, 0))
     (fun r s' => same_store s s' /\
                  exists added, r = (paths ++ added, Z.of_nat (length added)))
     (fun b s' => b = on_error /\ same_store s s')
     (fun _ => False) True s.
Proof.
  destruct present.
  - eapply wp_mono; [apply ParseEdge_paths_wp| | | |]; simpl; auto.
  - split; [apply same_store_refl|]. exists []. rewrite app_nil_r. reflexivity.
Qed.

(** Lines 243-306: from the colon of a build statement to the end of its
    bindings. *)
Lemma ParseEdge_read_rule_wp fuel outs0 n0 s :
  wp (ParseEdge_read_rule fuel outs0 n0)
     (fun v s' =>
        same_parser s s' /\ outs v = outs0 /\ implicit_outs v = n0 /\
        (exists explicit implicit_ins order_only_ins,
           ins v = explicit ++ implicit_ins ++ order_only_ins /\
           implicit v = Z.of_nat (length implicit_ins) /\
           order_only v = Z.of_nat (length order_only_ins)) /\
        (exists name, LookupRule (state_ s) (env_ s) name = Some (rule v)) /\
        edge_scope_of s (env v) s')
     (fun b s' =>
        same_parser s s' /\
        (state_ s' = state_ s \/
         (b = false /\ scope_added (env_ s) (state_ s) (state_ s'))))
     (fun _ => False) True s.
Proof.
  assert (Hfail : forall s', same_store s s' ->
            same_parser s s' /\
            (state_ s' = state_ s \/
             (false = false /\ scope_added (env_ s) (state_ s) (state_ s')))).
  { intros s' Hs'. split; [apply same_store_parser, Hs' | left; apply Hs']. }
  assert (Hret : forall b s', same_store s s' ->
            same_parser s s' /\
            (state_ s' = state_ s \/
             (b = false /\ scope_added (env_ s) (state_ s) (state_ s')))).
  { intros b s' Hs'. split; [apply same_store_parser, Hs' | left; apply Hs']. }
  unfold ParseEdge_read_rule. apply wp_bind.
  eapply wp_lexer_only; [apply (lexer_only_ExpectToken (fun b => b = false))| |];
    [|intros b s' -> ?; auto].
  intros expected s1 Hs1. apply wp_bind.
  eapply wp_lexer_only; [apply (lexer_only_require (fun b => b = false)); reflexivity| |];
    [|intros b s' -> ?; eauto using same_store_trans].
  intros _ s2 Hs2%(same_store_trans _ _ _ Hs1). apply wp_bind.
  eapply wp_lexer_only; [apply (lexer_only_lex (fun _ => False))| |]; [|intros b s' []].
  intros [rule_name|] s3 Hs3%(same_store_trans _ _ _ Hs2).
  2:{ apply wp_return_Error. apply Hfail, same_store_set_err, Hs3. }
  unfold wp at 1, bind at 1, get at 1. unfold bind at 1, get at 1.
  destruct (LookupRule (state_ s3) (env_ s3) rule_name) as [rule0|] eqn:Hrule.
  2:{ apply wp_return_Error. apply Hfail, same_store_set_err, Hs3. }
  fold (wp (L:=L) (FR:=FR) (A:=EdgeLocals)).
  assert (Hrule' : LookupRule (state_ s) (env_ s) rule_name = Some rule0).
  { destruct Hs3 as (Hst & Henv & _). rewrite <- Hst, <- Henv. exact Hrule. }
  assert (Henv3 : env_ s3 = env_ s) by apply Hs3.
  rewrite Henv3. clear Hrule.
  apply wp_bind.
  eapply wp_mono; [apply ParseEdge_paths_wp| | | |]; simpl; [| |auto|auto].
  2:{ intros b s' (-> & Hs'). eauto using same_store_trans. }
  intros r s4 (Hs4%(same_store_trans _ _ _ Hs3) & explicit & ->). simpl.
  apply wp_bind.
  eapply wp_lexer_only; [apply (lexer_only_lex (fun _ => False))| |]; [|intros b s' []].
  intros pipe s5 Hs5%(same_store_trans _ _ _ Hs4). apply wp_bind.
  eapply wp_mono; [apply ParseEdge_optional_paths_wp| | | |]; simpl; [| |auto|auto].
  2:{ intros b s' (_ & Hs'). apply Hret. eauto using same_store_trans. }
  intros r s6 (Hs6%(same_store_trans _ _ _ Hs5) & implicit_ins & ->).
  apply wp_bind.
  eapply wp_lexer_only; [apply (lexer_only_lex (fun _ => False))| |]; [|intros b s' []].
  intros pipe2 s7 Hs7%(same_store_trans _ _ _ Hs6). apply wp_bind.
  eapply wp_mono; [apply ParseEdge_optional_paths_wp| | | |]; simpl; [| |auto|auto].
  2:{ intros b s' (_ & Hs'). apply Hret. eauto using same_store_trans. }
  intros r s8 (Hs8%(same_store_trans _ _ _ Hs7) & order_only_ins & ->).
  apply wp_bind.
  eapply wp_lexer_only; [apply (lexer_only_ExpectToken (fun b => b = false))| |];
    [|intros b s' -> ?; eauto using same_store_trans].
  intros expected' s9 Hs9%(same_store_trans _ _ _ Hs8). apply wp_bind.
  eapply wp_lexer_only; [apply (lexer_only_require (fun b => b = false)); reflexivity| |];
    [|intros b s' -> ?; eauto using same_store_trans].
  intros _ s10 Hs10%(same_store_trans _ _ _ Hs9). apply wp_bind.
  eapply wp_lexer_only; [apply (lexer_only_lex (fun _ => False))| |]; [|intros b s' []].
  intros has_indent_token s11 Hs11%(same_store_trans _ _ _ Hs10).
  assert (Hblocks : exists explicit0 implicit0 order_only0,
            (([] ++ explicit) ++ implicit_ins) ++ order_only_ins =
              explicit0 ++ implicit0 ++ order_only0 /\
            Z.of_nat (length implicit_ins) = Z.of_nat (length implicit0) /\
            Z.of_nat (length order_only_ins) = Z.of_nat (length order_only0)).
  { exists explicit, implicit_ins, order_only_ins. simpl. rewrite <- app_assoc. auto. }
  destruct has_indent_token.
  - unfold wp at 1, bind at 1. unfold new_BindingEnv.
    set (s12 := set_state _ s11).
    fold (wp (L:=L) (FR:=FR) (A:=EdgeLocals)).
    destruct Hs11 as (Hst11 & Hpar11).
    assert (Hsc12 : scopes_ (state_ s12) =
              scopes_ (state_ s) ++ [mkBindingEnv ∅ ∅ (Some (env_ s)) EmptyString EmptyString]).
    { unfold s12. simpl. rewrite Hst11. reflexivity. }
    assert (H12 : same_parser s s12 /\
      paths_ (state_ s12) = paths_ (state_ s) /\ pools_ (state_ s12) = pools_ (state_ s) /\
      edges_ (state_ s12) = edges_ (state_ s) /\ defaults_ (state_ s12) = defaults_ (state_ s)).
    { unfold s12. simpl. rewrite Hst11. repeat split; apply Hpar11. }
    assert (Hlen : length (scopes_ (state_ s11)) = length (scopes_ (state_ s)))
      by (rewrite Hst11; reflexivity).
    rewrite Hlen. clearbody s12.
    destruct H12 as (Hpar & Hpa & Hpo & He & Hd).
    apply wp_bind.
    eapply wp_mono; [apply (ParseEdge_bindings_wp fuel true s12 _ _ Hsc12)| | | |];
      cbv zeta; [| |auto|auto].
    + intros _ s' (Hpar' & Hpa' & Hpo' & He' & Hd' & be' & Hsc' & Hparent & Hrules).
      unfold wp, val. simpl.
      split; [eapply same_parser_trans; eassumption|].
      split; [reflexivity|]. split; [reflexivity|]. split; [exact Hblocks|].
      split; [eauto|]. right. split; [reflexivity|].
      unfold scope_added. rewrite Hpa', Hpo', He', Hd'. repeat split; try assumption.
      exists be'. auto.
    + intros b s' (-> & Hpar' & Hpa' & Hpo' & He' & Hd' & be' & Hsc' & Hparent & Hrules).
      split; [eapply same_parser_trans; eassumption|].
      right. split; [reflexivity|].
      unfold scope_added. rewrite Hpa', Hpo', He', Hd'. repeat split; try assumption.
      exists be'. auto.
  - unfold wp at 1, bind at 1, val at 1. unfold wp, bind.
    destruct fuel as [|fuel]; [exact I|]. simpl.
    split; [apply same_store_parser, Hs11|].
    split; [reflexivity|]. split; [reflexivity|]. split; [exact Hblocks|].
    split; [eauto|]. left. split; [reflexivity | apply Hs11].
Qed.

(** Lines 211-306: the reading of a build statement. *)
Lemma ParseEdge_read_wp fuel s :
  wp (ParseEdge_read fuel)
     (fun v s' =>
        same_parser s s' /\ locals_well_formed v /\
        (exists name, LookupRule (state_ s) (env_ s) name = Some (rule v)) /\
        edge_scope_of s (env v) s')
     (fun b s' =>
        same_parser s s' /\
        (state_ s' = state_ s \/
         (b = false /\ scope_added (env_ s) (state_ s) (state_ s'))))
     (fun _ => False) True s.
Proof.
  assert (Hret : forall b s', same_store s s' ->
            same_parser s s' /\
            (state_ s' = state_ s \/
             (b = false /\ scope_added (env_ s) (state_ s) (state_ s')))).
  { intros b s' Hs'. split; [apply same_store_parser, Hs' | left; apply Hs']. }
  unfold ParseEdge_read. apply wp_bind.
  eapply wp_lexer_only; [apply (lexer_only_ReadPath (fun _ => False))| |]; [|intros b s' []].
  intros [out|] s1 Hs1; [|apply Hret, Hs1].
  apply wp_bind.
  eapply wp_mono; [apply ParseEdge_explicit_outs_wp| | | |]; simpl; [| |auto|auto].
  2:{ intros b s' (_ & Hs'). apply Hret. eauto using same_store_trans. }
  intros r s2 (Hs2%(same_store_trans _ _ _ Hs1) & explicit & ->). simpl.
  apply wp_bind.
  eapply wp_lexer_only; [apply (lexer_only_lex (fun _ => False))| |]; [|intros b s' []].
  intros pipe s3 Hs3%(same_store_trans _ _ _ Hs2). apply wp_bind.
  eapply wp_mono; [apply ParseEdge_optional_paths_wp| | | |]; simpl; [| |auto|auto].
  2:{ intros b s' (_ & Hs'). apply Hret. eauto using same_store_trans. }
  intros r s4 (Hs4%(same_store_trans _ _ _ Hs3) & implicit_outs0 & ->).
  case_bool_decide as Hempty.
  { apply wp_return_Error. apply Hret, same_store_set_err, Hs4. }
  destruct Hs4 as (Hst4 & Hpar4).
  eapply wp_mono; [apply ParseEdge_read_rule_wp| | | |]; simpl; [| |auto|auto].
  - intros v s' (Hpar' & Houts & Hn & Hblocks & Hrule & Hscope).
    split; [eapply same_parser_trans; eassumption|].
    split.
    { unfold locals_well_formed. rewrite Houts, Hn.
      split; [exact Hempty|]. split; [|exact Hblocks].
      rewrite length_app. lia. }
    destruct Hpar4 as (Henv4 & _).
    rewrite Hst4, Henv4 in Hrule. split; [exact Hrule|].
    unfold edge_scope_of in *. rewrite Hst4, Henv4 in Hscope. exact Hscope.
  - intros b s' (Hpar' & Hstate).
    split; [eapply same_parser_trans; eassumption|].
    destruct Hpar4 as (Henv4 & _). rewrite Hst4, Henv4 in Hstate. exact Hstate.
Qed.


(** X9: reading a build statement does not touch the graph, and a scope
    is made for the edge only when the edge uses it. However the reading
    ends, the nodes, pools, edges, default targets and scopes of the store
    are the ones of before, apart from at most one new scope, a child of the
    scope of the parser without rules. When the statement has been read, its
    edge gets either the scope of the parser, the store being the one of
    before, or that new scope, the last of the store. When the reading makes
    [ParseEdge] return true the store is the one of before the statement. *)
Theorem ParseEdge_read_scope fuel s :
  (forall v s',
     ParseEdge_read fuel s = Val v s' ->
     (env v = env_ s /\ state_ s' = state_ s) \/
     (env v = length (scopes_ (state_ s)) /\
      scope_added (env_ s) (state_ s) (state_ s'))) /\
  (forall b s',
     ParseEdge_read fuel s = Ret b s' ->
     (state_ s' = state_ s \/ scope_added (env_ s) (state_ s) (state_ s')) /\
     (b = true -> state_ s' = state_ s)).
Proof.
  pose proof (ParseEdge_read_wp fuel s) as Hwp. unfold wp in Hwp.
  split.
  - intros v s' Hrun. rewrite Hrun in Hwp.
    destruct Hwp as (_ & _ & _ & Hscope). exact Hscope.
  - intros b s' Hrun. rewrite Hrun in Hwp.
    destruct Hwp as (_ & [Hsame | (Hb & Hadded)]).
    + auto.
    + split; [right; exact Hadded|]. intros ->. discriminate.
Qed.

(** *** Build statements: the bindings of an edge *)

(** A lookup that starts in an older scope than the one that changes does
    not see the change. *)
Lemma LookupVariable_from_older scopes (f : BindingEnv -> BindingEnv) env var :
  scopes_wf scopes ->
  forall n penv, (penv < env)%nat ->
    LookupVariable_from n (alter f env scopes) penv var =
    LookupVariable_from n scopes penv var.
Proof.
  intros Hwf. induction n as [|n IH]; intros penv Hlt; [reflexivity|].
  simpl. rewrite list_lookup_alter_ne by lia.
  destruct (scopes !! penv) as [be|] eqn:Hbe; [|reflexivity].
  destruct (bindings_ be !! var); [reflexivity|].
  destruct (parent_ be) as [p|] eqn:Hp; [|reflexivity].
  apply IH. specialize (Hwf penv be p Hbe Hp). lia.
Qed.

Lemma Evaluate_AddBinding_older st env penv key v value :
  scopes_wf (scopes_ st) -> (penv < env)%nat ->
  Evaluate (AddBinding env key v st) penv value = Evaluate st penv value.
Proof.
  intros Hwf Hlt. induction value as [|[text|var] value IH]; simpl; [reflexivity| |].
  - rewrite IH. reflexivity.
  - rewrite IH. f_equal. unfold LookupVariable, AddBinding, map_env. simpl.
    rewrite length_alter. apply LookupVariable_from_older; assumption.
Qed.

Lemma scopes_wf_AddBinding st env key v :
  scopes_wf (scopes_ st) -> scopes_wf (scopes_ (AddBinding env key v st)).
Proof.
  intros Hwf i be p. unfold AddBinding, map_env. simpl.
  destruct (decide (i = env)) as [->|Hne].
  - rewrite list_lookup_alter_eq.
    destruct (scopes_ st !! env) as [be0|] eqn:Hbe; [|discriminate].
    simpl. intros [= <-]. simpl. apply (Hwf env be0 p Hbe).
  - rewrite list_lookup_alter_ne by congruence. apply Hwf.
Qed.

Lemma foldl_AddBinding_ext env (f g : EvalString -> string) bs : forall st,
  (forall value, f value = g value) ->
  foldl (fun st b => AddBinding env b.1 (f b.2) st) st bs =
  foldl (fun st b => AddBinding env b.1 (g b.2) st) st bs.
Proof.
  induction bs as [|b bs IH]; intros st Hfg; [reflexivity|].
  simpl. rewrite Hfg. apply IH, Hfg.
Qed.

(** X10: the bindings of a build statement are evaluated in the scope of
    the parser, not in the scope of the edge that receives them. With the
    edge scope younger than the scope of the parser, every indented line is
    stored under its key in the edge scope with its value evaluated against
    the store of before the first line: a reference to a key of an earlier
    line of the same statement reads what the enclosing scope has. *)
Theorem ParseEdge_bindings_evaluated (n : nat) :
  forall (fuel : nat) s (env : nat) key0 value0 l1 l2 l3 l4 l5 bs,
  ReadIdent (lexer_ s) = (Some key0, l1) ->
  ReadToken l1 = (EQUALS, l2) ->
  ReadVarValue l2 = (inl value0, l3) ->
  read_lets n l3 = Some (bs, l4) ->
  PeekToken INDENT l4 = (false, l5) ->
  scopes_wf (scopes_ (state_ s)) ->
  (env_ s < env)%nat ->
  (S n < fuel)%nat ->
  ParseEdge_bindings fuel env true s =
    Val tt (set_state
              (foldl (fun st b => AddBinding env b.1 (Evaluate (state_ s) (env_ s) b.2) st)
                     (state_ s) ((key0, value0) :: bs))
              (set_lexer l5 s)).
Proof.
  induction n as [|n IH];
    intros fuel s env key0 value0 l1 l2 l3 l4 l5 bs H1 H2 H3 Hr Hp Hwf Hlt Hf;
    (destruct fuel as [|fuel]; [lia|]); simpl ParseEdge_bindings; unfold bind at 1;
    rewrite (ParseLet_reads s key0 value0 l1 l2 l3) by assumption;
    unfold bind at 1, get at 1; unfold bind at 1, Evaluate_, get at 1;
    unfold bind at 1, modify_state, modify at 1; unfold bind at 1, lex at 1; simpl.
  - injection Hr as <- <-. rewrite Hp.
    destruct fuel as [|fuel]; [lia|]. reflexivity.
  - apply read_lets_S in Hr
      as (key & value & bs' & l1' & l2' & l3' & l4' & -> & Hi & H1' & H2' & H3' & Hr).
    rewrite Hi.
    rewrite (IH fuel _ env key value l2' l3' l4' l4 l5 bs'); try assumption; try lia.
    + unfold set_state, set_lexer. simpl. f_equal. f_equal.
      rewrite (Evaluate_AddBinding_older (state_ s) env (env_ s)) by assumption.
      apply foldl_AddBinding_ext. intros v.
      apply Evaluate_AddBinding_older; assumption.
    + simpl. apply scopes_wf_AddBinding, Hwf.
Qed.

(** *** What a piece of the parser keeps of the store *)

Local Abbreviation ends_in := (ends_in (L:=L) (FR:=FR)).
Local Abbreviation keeps := (keeps (L:=L) (FR:=FR)).

Section Frame.

Variable G : State -> State -> Prop.
Hypothesis G_refl : forall st, G st st.
Hypothesis G_trans : forall st1 st2 st3, G st1 st2 -> G st2 st3 -> G st1 st3.

Lemma ends_in_bind {A B} (m : M A) (k : A -> M B) st0 s :
  keeps G m -> G st0 (state_ s) ->
  (forall a s1, G st0 (state_ s1) -> ends_in (G st0) (k a) s1) ->
  ends_in (G st0) (x <- m ;; k x) s.
Proof.
  intros Hm H0 Hk. unfold ends_in. apply wp_bind.
  eapply wp_mono; [apply Hm| | | |]; simpl; eauto.
  intros a s1 H1. apply Hk. eauto.
Qed.

Lemma ends_in_keeps {A} (m : M A) st0 s :
  keeps G m -> G st0 (state_ s) -> ends_in (G st0) m s.
Proof.
  intros Hm H0. unfold ends_in. eapply wp_mono; [apply Hm| | | |]; simpl; eauto.
Qed.

Lemma keeps_bind {A B} (m : M A) (k : A -> M B) :
  keeps G m -> (forall a, keeps G (k a)) -> keeps G (x <- m ;; k x).
Proof.
  intros Hm Hk s. apply ends_in_bind; [exact Hm | apply G_refl|].
  intros a s1 H1. apply ends_in_keeps; [apply Hk | exact H1].
Qed.

Lemma keeps_lexer_only {A} Rb (m : M A) : lexer_only_by Rb m -> keeps G m.
Proof.
  intros Hm s. unfold ends_in. eapply wp_lexer_only; [apply Hm| |].
  - intros a s' (-> & _). apply G_refl.
  - intros b s' _ (-> & _). apply G_refl.
Qed.

Lemma keeps_val {A} (a : A) : keeps G (val a).
Proof. intros s. apply G_refl. Qed.

Lemma keeps_return {A} b : keeps G (return_ b : M A).
Proof. intros s. apply G_refl. Qed.

Lemma keeps_get {A} (f : PState L FR -> A) : keeps G (get f).
Proof. intros s. apply G_refl. Qed.

Lemma keeps_return_Error {A} msg : keeps G (return_Error msg : M A).
Proof. intros s. apply G_refl. Qed.

Lemma keeps_lexer_Error msg : keeps G (lexer_Error msg).
Proof. intros s. apply G_refl. Qed.

Lemma keeps_Warning msg : keeps G (Warning msg).
Proof. intros s. apply G_refl. Qed.

Lemma keeps_modify_state (f : State -> State) :
  (forall st, G st (f st)) -> keeps G (modify_state f).
Proof. intros Hf s. apply Hf. Qed.

Lemma keeps_get_edge edge : keeps G (get_edge edge).
Proof.
  intros s. unfold ends_in, wp, get_edge.
  destruct (edges_ (state_ s) !! edge); apply G_refl.
Qed.

Lemma keeps_call (body : M bool) : keeps G body -> keeps G (call body).
Proof.
  intros Hb s. unfold ends_in. apply wp_call.
  eapply wp_mono; [apply Hb| | | |]; simpl; auto.
Qed.

End Frame.

(** *** Build statements: what the linking keeps *)

Lemma producers_kept_refl edge st : producers_kept edge st st.
Proof.
  intros q. destruct (paths_ st !! q) as [n|]; [eauto|discriminate].
Qed.

Lemma producers_kept_trans edge st1 st2 st3 :
  producers_kept edge st1 st2 -> producers_kept edge st2 st3 ->
  producers_kept edge st1 st3.
Proof.
  intros H12 H23 q. specialize (H12 q). specialize (H23 q).
  destruct (paths_ st1 !! q) as [n1|].
  - destruct H12 as (n2 & Hn2 & H12). rewrite Hn2 in H23.
    destruct H23 as (n3 & Hn3 & H23). exists n3. split; [exact Hn3|].
    destruct H12 as [H12|[H12 H12']], H23 as [H23|[H23 H23']];
      [left|right|right|]; try split; congruence.
  - intros n3 Hn3. destruct (paths_ st2 !! q) as [n2|].
    + specialize (H12 n2 eq_refl). destruct H23 as (n3' & Hn3' & H23).
      assert (n3' = n3) as -> by congruence.
      destruct H12 as [H12|H12], H23 as [H23|[H23 H23']]; [left|right|right|right];
        congruence.
    + apply H23, Hn3.
Qed.

Lemma link_inv_refl edge st : link_inv edge st st.
Proof. repeat split. apply producers_kept_refl. Qed.

Lemma link_inv_trans edge st1 st2 st3 :
  link_inv edge st1 st2 -> link_inv edge st2 st3 -> link_inv edge st1 st3.
Proof.
  intros (Hp&Hd&Hs&Hl&He&Hk) (Hp'&Hd'&Hs'&Hl'&He'&Hk').
  repeat split; try congruence.
  - intros i Hi. rewrite He', He by exact Hi. reflexivity.
  - eapply producers_kept_trans; eassumption.
Qed.

Lemma link_inv_map_edge (f : Edge -> Edge) edge st : link_inv edge st (map_edge f edge st).
Proof.
  repeat split; simpl.
  - apply length_alter.
  - intros i Hi. apply list_lookup_alter_ne. congruence.
  - exact (producers_kept_refl edge st).
Qed.

Lemma link_inv_GetNode edge path env slash_bits st :
  link_inv edge st (GetNode path env slash_bits st).
Proof.
  unfold GetNode. destruct (paths_ st !! path) eqn:E; [apply link_inv_refl|].
  repeat split. intros q. simpl.
  destruct (decide (path = q)) as [<-|Hne].
  - rewrite E, lookup_insert_eq. intros n' [= <-]. left. reflexivity.
  - rewrite lookup_insert_ne by exact Hne.
    destruct (paths_ st !! q); [eauto|discriminate].
Qed.

(** An update of a node that leaves its producer as it is. *)
Lemma link_inv_map_node (f : Node -> Node) edge path st :
  (forall n, in_edge_ (f n) = in_edge_ n) -> link_inv edge st (map_node f path st).
Proof.
  intros Hf. repeat split. intros q. simpl.
  destruct (decide (path = q)) as [<-|Hne].
  - rewrite lookup_alter_eq. destruct (paths_ st !! path) as [n|]; simpl.
    + exists (f n). split; [reflexivity|]. left. apply Hf.
    + discriminate.
  - rewrite lookup_alter_ne by exact Hne.
    destruct (paths_ st !! q); [eauto|discriminate].
Qed.

Lemma link_inv_AddIn edge path slash_bits st :
  link_inv edge st (AddIn edge path slash_bits st).
Proof.
  unfold AddIn.
  eapply link_inv_trans; [apply link_inv_GetNode|].
  eapply link_inv_trans; [apply link_inv_map_edge|].
  apply link_inv_map_node. reflexivity.
Qed.

(** [AddOut] makes the edge the producer of a node only when the node has
    none. *)
Lemma link_inv_AddOut edge path slash_bits st :
  link_inv edge st (AddOut edge path slash_bits st).2.
Proof.
  unfold AddOut.
  set (st1 := GetNode path (env_of_edge st edge) slash_bits st).
  assert (H1 : link_inv edge st st1) by apply link_inv_GetNode.
  destruct (has_in_edge st1 path) eqn:Hhas; [exact H1|]. simpl.
  eapply link_inv_trans; [exact H1|].
  eapply link_inv_trans; [apply link_inv_map_edge|].
  repeat split. intros q. simpl.
  unfold has_in_edge in Hhas.
  destruct (decide (path = q)) as [<-|Hne].
  - rewrite lookup_alter_eq. destruct (paths_ st1 !! path) as [n|]; simpl.
    + exists (set_in_edge edge n). split; [reflexivity|]. right.
      destruct (in_edge_ n); [discriminate|]. auto.
    + discriminate.
  - rewrite lookup_alter_ne by exact Hne.
    destruct (paths_ st1 !! q); [eauto|discriminate].
Qed.

Lemma ends_in_bind_gen {A B} (P Q : State -> Prop) (m : M A) (k : A -> M B) s :
  ends_in P m s ->
  (forall st, P st -> Q st) ->
  (forall a s1, P (state_ s1) -> ends_in Q (k a) s1) ->
  ends_in Q (x <- m ;; k x) s.
Proof.
  intros Hm HPQ Hk. unfold ends_in. apply wp_bind.
  eapply wp_mono; [apply Hm| | | |]; simpl; eauto.
Qed.

(** A step that replaces the store by one that [G] relates to it. *)
Lemma ends_in_update {A B} (G : State -> State -> Prop) (F : State -> A * State)
    (k : A -> M B) st0 s :
  (forall st1 st2 st3, G st1 st2 -> G st2 st3 -> G st1 st3) ->
  (forall st, G st (F st).2) ->
  G st0 (state_ s) ->
  (forall a s1, G st0 (state_ s1) -> ends_in (G st0) (k a) s1) ->
  ends_in (G st0)
    (st <- get state_ ;; let '(a, st') := F st in modify (set_state st') ;;; k a) s.
Proof.
  intros Htrans HF H0 Hk. unfold ends_in, wp at 1, bind at 1, get at 1.
  specialize (HF (state_ s)). destruct (F (state_ s)) as [a st'].
  unfold bind at 1, modify at 1. apply Hk. simpl. eauto.
Qed.

Local Ltac link_side edge :=
  first [exact (link_inv_refl edge) | exact (link_inv_refl edge _)
        | exact (link_inv_trans edge) | assumption].

Lemma keeps_ParseEdge_pool edge : keeps (link_inv edge) (ParseEdge_pool edge).
Proof.
  intros s. unfold ParseEdge_pool, ends_in, wp, bind, get.
  destruct (negb _); [|apply link_inv_refl].
  destruct (LookupPool _ _); [apply link_inv_map_edge | apply link_inv_refl].
Qed.

Lemma keeps_ParseEdge_outputs edge env e rest : forall i n,
  keeps (link_inv edge) (ParseEdge_outputs edge env e i n rest).
Proof.
  induction rest as [|out rest IH]; intros i n s; [apply link_inv_refl|].
  simpl. apply ends_in_bind;
    [link_side edge | apply keeps_get; link_side edge | link_side edge |].
  intros path s1 H1.
  destruct (CanonicalizePath path) as [[p slash_bits]|path_err];
    [|apply ends_in_keeps; [link_side edge | apply keeps_return_Error; link_side edge
                           | exact H1]].
  eapply (ends_in_update (link_inv edge) (AddOut edge p slash_bits));
    [link_side edge | intros st; apply link_inv_AddOut | exact H1 |].
  intros added s2 H2. destruct added; simpl.
  { apply ends_in_keeps; [link_side edge | apply IH | exact H2]. }
  apply ends_in_bind;
    [link_side edge | apply keeps_get; link_side edge | exact H2 |].
  intros opts s3 H3. destruct (dupe_edge_action_ opts).
  - apply ends_in_bind;
      [link_side edge | apply keeps_get; link_side edge | exact H3 |].
    intros quiet s4 H4.
    apply ends_in_bind; [link_side edge | | exact H4 |].
    { destruct (negb quiet); [apply keeps_Warning | apply keeps_val]; link_side edge. }
    intros _ s5 H5. apply ends_in_keeps; [link_side edge | apply IH | exact H5].
  - apply ends_in_keeps; [link_side edge | | exact H3].
    apply keeps_bind; [link_side edge | link_side edge
                      | apply keeps_lexer_Error; link_side edge |].
    intros _. apply keeps_return; link_side edge.
Qed.

Lemma keeps_ParseEdge_inputs edge env ins :
  keeps (link_inv edge) (ParseEdge_inputs edge env ins).
Proof.
  induction ins as [|i ins IH]; [apply keeps_val; link_side edge|].
  simpl. apply keeps_bind;
    [link_side edge | link_side edge | apply keeps_get; link_side edge |].
  intros path. destruct (CanonicalizePath path) as [[p slash_bits]|path_err];
    [|apply keeps_return_Error; link_side edge].
  apply keeps_bind; [link_side edge | link_side edge | |intros _; exact IH].
  apply keeps_modify_state. intros st. apply link_inv_AddIn.
Qed.

Lemma keeps_ParseEdge_phonycycle edge : keeps (link_inv edge) (ParseEdge_phonycycle edge).
Proof.
  unfold ParseEdge_phonycycle.
  apply keeps_bind;
    [link_side edge | link_side edge | apply keeps_get; link_side edge |].
  intros opts. apply keeps_bind;
    [link_side edge | link_side edge | apply keeps_get_edge; link_side edge |].
  intros e. destruct (phony_cycle_action_ opts); [|apply keeps_val; link_side edge].
  destruct (maybe_phonycycle_diagnostic e); [|apply keeps_val; link_side edge].
  destruct (outputs_ e) as [|out outs']; [apply keeps_val; link_side edge|].
  destruct (negb _); [|apply keeps_val; link_side edge].
  apply keeps_bind; [link_side edge | link_side edge | |].
  { apply keeps_modify_state. intros st. apply link_inv_map_edge. }
  intros _. apply keeps_bind;
    [link_side edge | link_side edge | apply keeps_get; link_side edge |].
  intros quiet. destruct (negb quiet); [apply keeps_Warning | apply keeps_val];
    link_side edge.
Qed.

Lemma keeps_ParseEdge_deps edge : keeps (link_inv edge) (ParseEdge_deps edge).
Proof.
  unfold ParseEdge_deps.
  apply keeps_bind;
    [link_side edge | link_side edge | apply keeps_get; link_side edge |].
  intros st. apply keeps_bind;
    [link_side edge | link_side edge | apply keeps_get_edge; link_side edge |].
  intros e. destruct (_ && _);
    [apply keeps_return_Error | apply keeps_val]; link_side edge.
Qed.

Lemma keeps_ParseEdge_dyndep edge env : keeps (link_inv edge) (ParseEdge_dyndep edge env).
Proof.
  intros s. unfold ParseEdge_dyndep, ends_in, wp at 1, bind at 1, get at 1.
  destruct (negb _); [|apply link_inv_refl].
  destruct (CanonicalizePath _) as [[dyndep slash_bits]|canon_err];
    [|apply link_inv_refl].
  change (ends_in (link_inv edge (state_ s))
            (modify_state (GetNode dyndep env slash_bits) ;;;
             modify_state (map_edge (set_dyndep (Some dyndep)) edge) ;;;
             modify_state (map_node (set_dyndep_pending true) dyndep) ;;;
             e <- get_edge edge ;;
             if bool_decide (dyndep ∈ inputs_ e) then val tt
             else return_Error ("dyndep '" +:+ dyndep +:+ "' is not an input")) s).
  apply ends_in_keeps; [link_side edge | | apply link_inv_refl].
  apply keeps_bind; [link_side edge | link_side edge | |intros _].
  { apply keeps_modify_state. intros st. apply link_inv_GetNode. }
  apply keeps_bind; [link_side edge | link_side edge | |intros _].
  { apply keeps_modify_state. intros st. apply link_inv_map_edge. }
  apply keeps_bind; [link_side edge | link_side edge | |intros _].
  { apply keeps_modify_state. intros st. apply link_inv_map_node. reflexivity. }
  apply keeps_bind;
    [link_side edge | link_side edge | apply keeps_get_edge; link_side edge |].
  intros e. case_bool_decide; [apply keeps_val | apply keeps_return_Error];
    link_side edge.
Qed.

Lemma ends_in_mono {A} (P Q : State -> Prop) (m : M A) s :
  ends_in P m s -> (forall st, P st -> Q st) -> ends_in Q m s.
Proof.
  intros Hm HPQ. unfold ends_in. eapply wp_mono; [apply Hm| | | |]; simpl; auto.
Qed.

(** The store after the linking of the new edge, seen from the store of
    before the edge was added; and the same store with the edge taken off
    again. *)
Lemma link_inv_build st0 r st' :
  link_inv (length (edges_ st0)) (AddEdge r st0).2 st' ->
  build_inv st0 st' /\ build_inv st0 (set_edges (fun es => removelast es) st').
Proof.
  intros (Hp & Hd & Hs & Hl & He & Hk). simpl in Hp, Hd, Hs, Hl, He.
  assert (Hedges : exists e, edges_ st' = edges_ st0 ++ [e]).
  { destruct (exists_last (l := edges_ st')) as (l' & a & Hla).
    { intros Hnil. rewrite Hnil, length_app in Hl. simpl in Hl. lia. }
    exists a. rewrite Hla. f_equal.
    rewrite Hla, !length_app in Hl. simpl in Hl.
    apply list_eq. intros i.
    destruct (decide (i < length (edges_ st0))%nat) as [Hlt|Hge].
    - specialize (He i ltac:(lia)). rewrite Hla in He.
      rewrite !lookup_app_l in He by lia. exact He.
    - rewrite !lookup_ge_None_2 by lia. reflexivity. }
  destruct Hedges as [e Hedges].
  split; repeat split; simpl; try assumption.
  - right. eauto.
  - left. rewrite Hedges. apply removelast_last.
Qed.

(** Lines 343-409 after the outputs of the new edge have been added. *)
Lemma ParseEdge_link_ends v n st0 s :
  link_inv (length (edges_ st0)) (AddEdge (rule v) st0).2 (state_ s) ->
  ends_in (build_inv st0) (ParseEdge_link (length (edges_ st0)) v n) s.
Proof.
  set (edge := length (edges_ st0)). set (st1 := (AddEdge (rule v) st0).2).
  intros H0. unfold ParseEdge_link.
  apply (ends_in_bind_gen (link_inv edge st1) (build_inv st0)).
  { apply ends_in_keeps; [link_side edge | apply keeps_get_edge; link_side edge | exact H0]. }
  { intros st Hst. apply (link_inv_build st0 (rule v) st Hst). }
  intros e s1 H1. case_bool_decide.
  - unfold ends_in, wp, bind, modify_state, modify, return_. simpl.
    apply (link_inv_build st0 (rule v) (state_ s1) H1).
  - apply (ends_in_mono (link_inv edge st1)).
    2:{ intros st Hst. apply (link_inv_build st0 (rule v) st Hst). }
    apply ends_in_keeps; [link_side edge| |exact H1].
    apply keeps_bind; [link_side edge | link_side edge | |intros _].
    { apply keeps_modify_state. intros st. apply link_inv_map_edge. }
    apply keeps_bind; [link_side edge | link_side edge
                      | apply keeps_ParseEdge_inputs |intros _].
    apply keeps_bind; [link_side edge | link_side edge | |intros _].
    { apply keeps_modify_state. intros st. apply link_inv_map_edge. }
    apply keeps_bind; [link_side edge | link_side edge
                      | apply keeps_ParseEdge_phonycycle |intros _].
    apply keeps_bind; [link_side edge | link_side edge
                      | apply keeps_ParseEdge_deps |intros _].
    apply keeps_bind; [link_side edge | link_side edge
                      | apply keeps_ParseEdge_dyndep |intros _].
    apply keeps_return. link_side edge.
Qed.

(** Lines 308-409: the building of the edge. *)
Lemma ParseEdge_build_ends v s :
  ends_in (build_inv (state_ s)) (ParseEdge_build v) s.
Proof.
  unfold ParseEdge_build, ends_in, wp at 1, bind at 1.
  set (edge := length (edges_ (state_ s))).
  set (st1 := (AddEdge (rule v) (state_ s)).2).
  change (ends_in (build_inv (state_ s))
            (modify_state (map_edge (set_edge_env (env v)) edge) ;;;
             ParseEdge_pool edge ;;;
             implicit_outs <- ParseEdge_outputs edge (env v) (Z.of_nat (length (outs v))) 0
                                (implicit_outs v) (outs v) ;;
             ParseEdge_link edge v implicit_outs)
            (set_state st1 s)).
  apply (ends_in_bind_gen (link_inv edge st1) (build_inv (state_ s))).
  { apply ends_in_keeps; [link_side edge| |apply link_inv_refl].
    apply keeps_modify_state. intros st. apply link_inv_map_edge. }
  { intros st Hst. apply (link_inv_build (state_ s) (rule v) st Hst). }
  intros _ s1 H1.
  apply (ends_in_bind_gen (link_inv edge st1) (build_inv (state_ s))).
  { apply ends_in_keeps; [link_side edge | apply keeps_ParseEdge_pool | exact H1]. }
  { intros st Hst. apply (link_inv_build (state_ s) (rule v) st Hst). }
  intros _ s2 H2.
  apply (ends_in_bind_gen (link_inv edge st1) (build_inv (state_ s))).
  { apply ends_in_keeps; [link_side edge | apply keeps_ParseEdge_outputs | exact H2]. }
  { intros st Hst. apply (link_inv_build (state_ s) (rule v) st Hst). }
  intros n s3 H3. apply ParseEdge_link_ends. exact H3.
Qed.

(** X11: a build statement never takes a node from its producer and never
    touches another edge. Whatever the statement and its outcome, under
    either policy for duplicate outputs: the pools and the default targets
    are the ones of before; the edges are the ones of before, followed by at
    most one new edge; every node of before is still there, with the
    producing edge it had, or with the new edge when it had none; and a new
    node has no producing edge or the new one. *)
Theorem ParseEdge_keeps_graph fuel s b s' :
  ParseEdge fuel s = Val b s' ->
  pools_ (state_ s') = pools_ (state_ s) /\
  defaults_ (state_ s') = defaults_ (state_ s) /\
  (edges_ (state_ s') = edges_ (state_ s) \/
   exists e, edges_ (state_ s') = edges_ (state_ s) ++ [e]) /\
  producers_kept (length (edges_ (state_ s))) (state_ s) (state_ s').
Proof.
  intros Hrun.
  set (T := fun st' =>
    pools_ st' = pools_ (state_ s) /\ defaults_ st' = defaults_ (state_ s) /\
    (edges_ st' = edges_ (state_ s) \/ exists e, edges_ st' = edges_ (state_ s) ++ [e]) /\
    producers_kept (length (edges_ (state_ s))) (state_ s) st').
  assert (Hsame : forall st1,
            paths_ st1 = paths_ (state_ s) -> pools_ st1 = pools_ (state_ s) ->
            edges_ st1 = edges_ (state_ s) -> defaults_ st1 = defaults_ (state_ s) ->
            forall st', build_inv st1 st' -> T st').
  { intros st1 Hpa Hpo He Hd st' (Hp' & Hd' & _ & He' & Hk). unfold T.
    rewrite Hp', Hd', Hpo, Hd. rewrite He in He', Hk.
    repeat split; try assumption.
    intros q. specialize (Hk q). rewrite Hpa in Hk. exact Hk. }
  assert (Hread : forall s1,
            state_ s1 = state_ s \/ scope_added (env_ s) (state_ s) (state_ s1) ->
            paths_ (state_ s1) = paths_ (state_ s) /\ pools_ (state_ s1) = pools_ (state_ s) /\
            edges_ (state_ s1) = edges_ (state_ s) /\
            defaults_ (state_ s1) = defaults_ (state_ s)).
  { intros s1 [->|(Hpa & Hpo & He & Hd & _)]; auto. }
  assert (Hwp : ends_in T (ParseEdge fuel) s).
  { unfold ParseEdge, ends_in. apply wp_call, wp_bind.
    eapply wp_mono; [apply ParseEdge_read_wp| | | |]; simpl; [| |intros ? []|auto].
    - intros v s1 (_ & _ & _ & Hscope).
      assert (Hs1 : state_ s1 = state_ s \/ scope_added (env_ s) (state_ s) (state_ s1)).
      { destruct Hscope as [[_ H]|[_ H]]; auto. }
      apply Hread in Hs1 as (Hpa & Hpo & He & Hd).
      eapply wp_mono; [apply (ParseEdge_build_ends v s1)| | | |]; simpl; auto;
        intros; eapply Hsame; eassumption.
    - intros b0 s1 (_ & Hstate).
      assert (Hs1 : state_ s1 = state_ s \/ scope_added (env_ s) (state_ s) (state_ s1)).
      { destruct Hstate as [H|[_ H]]; auto. }
      apply Hread in Hs1 as (Hpa & Hpo & He & Hd).
      apply (Hsame (state_ s1) Hpa Hpo He Hd).
      repeat split. { left. reflexivity. } apply producers_kept_refl. }
  unfold ends_in, wp in Hwp. rewrite Hrun in Hwp. exact Hwp.
Qed.

(** *** Build statements: the inputs *)

Lemma AddIn_scopes edge path slash_bits st :
  scopes_ (AddIn edge path slash_bits st) = scopes_ st.
Proof. unfold AddIn. simpl. apply GetNode_scopes. Qed.

Lemma AddIn_edge edge path slash_bits st ed :
  edges_ st !! edge = Some ed ->
  edges_ (AddIn edge path slash_bits st) !! edge =
    Some (set_inputs (fun i => i ++ [path]) ed).
Proof.
  intros He. unfold AddIn. simpl.
  rewrite list_lookup_alter_eq, GetNode_edges, He. reflexivity.
Qed.

Lemma AddIn_consumes edge path slash_bits st :
  consumes (AddIn edge path slash_bits st) edge path.
Proof.
  unfold consumes, AddIn. simpl. rewrite lookup_alter_eq.
  destruct (GetNode_lookup path (env_of_edge st edge) slash_bits st) as [node ->].
  exists (AddOutEdge edge node). split; [reflexivity|].
  simpl. apply elem_of_app. right. apply list_elem_of_here.
Qed.

Lemma AddIn_consumes_mono edge path slash_bits st e q :
  consumes st e q -> consumes (AddIn edge path slash_bits st) e q.
Proof.
  intros (node & Hnode & He). unfold consumes, AddIn. simpl.
  assert (Hg : paths_ (GetNode path (env_of_edge st edge) slash_bits st) !! q = Some node).
  { unfold GetNode. destruct (paths_ st !! path) eqn:E; [exact Hnode|]. simpl.
    rewrite lookup_insert_ne by congruence. exact Hnode. }
  destruct (decide (path = q)) as [<-|Hne].
  - rewrite lookup_alter_eq, Hg. exists (AddOutEdge edge node). split; [reflexivity|].
    simpl. apply elem_of_app. left. exact He.
  - rewrite lookup_alter_ne by exact Hne. exists node. auto.
Qed.

(** X12: the inputs of a build statement are linked in their order, none
    of them dropped. When each input has a canonical form, the loop over the
    inputs succeeds, the inputs of the edge are the ones it had followed by
    the canonical paths in the order of the statement, a path that occurs
    twice being there twice, and the edge is recorded among the consumers of
    the node of every input. *)
Theorem ParseEdge_inputs_links edge env ins : forall s ps ed,
  canonical_outs (state_ s) env ins = Some ps ->
  edges_ (state_ s) !! edge = Some ed ->
  exists st',
    ParseEdge_inputs edge env ins s = Val tt (set_state st' s) /\
    edges_ st' !! edge = Some (set_inputs (fun i => i ++ map fst ps) ed) /\
    (forall p, p ∈ map fst ps -> consumes st' edge p) /\
    (forall q, consumes (state_ s) edge q -> consumes st' edge q).
Proof.
  induction ins as [|i ins IH]; intros s ps ed Hc He.
  - injection Hc as <-. exists (state_ s). split; [destruct s; reflexivity|].
    split.
    { rewrite He. f_equal. destruct ed. unfold set_inputs. simpl.
      rewrite app_nil_r. reflexivity. }
    split; [|auto]. intros p Hp. inversion Hp.
  - apply canonical_outs_cons in Hc as ([p slash_bits] & ps' & -> & Hp & Hps).
    set (st1 := AddIn edge p slash_bits (state_ s)).
    destruct (IH (set_state st1 s) ps' (set_inputs (fun i => i ++ [p]) ed))
      as (st' & Hrun & He' & Hin & Hmono).
    { simpl. rewrite <- Hps. apply canonical_outs_scopes, AddIn_scopes. }
    { simpl. apply AddIn_edge, He. }
    exists st'. split; [|split; [|split]].
    + simpl. unfold bind at 1, Evaluate_, get at 1. rewrite Hp.
      unfold bind at 1, modify_state, modify at 1. fold st1.
      rewrite Hrun. reflexivity.
    + rewrite He'. f_equal. unfold set_inputs. simpl. rewrite <- app_assoc. reflexivity.
    + intros q Hq. simpl in Hq. apply elem_of_cons in Hq as [->|Hq].
      * apply Hmono. simpl. apply AddIn_consumes.
      * apply Hin, Hq.
    + intros q Hq. apply Hmono. simpl. apply AddIn_consumes_mono, Hq.
Qed.

(** *** The top-level loop: success *)

Lemma wp_any {A} (m : M A) (Q : A -> PState L FR -> Prop) R E (F : Prop) s :
  (forall a s', Q a s') -> (forall b s', R b s') -> (forall s', E s') -> F ->
  wp m Q R E F s.
Proof. intros HQ HR HE HF. unfold wp. destruct (m s); auto. Qed.

(** The loop of [Parse] ends only by a [return], and by [return true]
    only at the end of the input. *)
Lemma Parse_statements_wp parse fuel : forall s,
  wp (Parse_statements parse fuel)
     (fun _ _ => False)
     (fun b s' => b = true -> exists l, ReadToken l = (TEOF, lexer_ s'))
     (fun _ => True) True s.
Proof.
  induction fuel as [|fuel IH]; intros s; [exact I|].
  assert (Hnext : forall (parsed : bool) s1,
            wp (require parsed ;;; Parse_statements parse fuel)
               (fun _ _ => False)
               (fun b s' => b = true -> exists l, ReadToken l = (TEOF, lexer_ s'))
               (fun _ => True) True s1).
  { intros [] s1; [apply IH | discriminate]. }
  assert (Hcall : forall (handler : M bool) s1,
            wp (parsed <- call handler ;; require parsed ;;; Parse_statements parse fuel)
               (fun _ _ => False)
               (fun b s' => b = true -> exists l, ReadToken l = (TEOF, lexer_ s'))
               (fun _ => True) True s1).
  { intros handler s1. apply wp_bind, wp_call, wp_any; auto. }
  simpl. unfold wp at 1, bind at 1, lex at 1.
  destruct (ReadToken (lexer_ s)) as [token l1] eqn:Htoken.
  fold (wp (L:=L) (FR:=FR) (A:=bool)).
  destruct token; try (apply wp_return_Error; discriminate).
  - apply Hcall.
  - apply Hcall.
  - apply wp_bind.
    eapply wp_lexer_only; [apply (lexer_only_lex (fun _ => False))| |]; [|intros ? ? []].
    intros _ s1 _. apply wp_bind, wp_call_out, wp_any; auto; [|discriminate].
    intros [name let_value] s2.
    unfold wp at 1, bind at 1, get at 1. unfold bind at 1, Evaluate_, get at 1.
    fold (wp (L:=L) (FR:=FR) (A:=bool)).
    apply wp_bind.
    destruct (String.eqb name "ninja_required_version");
      [destruct (CheckNinjaVersion _)|]; try exact I;
      (apply wp_bind; apply IH).
  - apply Hcall.
  - apply IH.
  - apply Hcall.
  - apply Hcall.
  - apply Hcall.
  - intros _. exists (lexer_ s). exact Htoken.
Qed.

(** X13: [Parse] answers true only at the end of the input. Whatever the
    manifest and the nested files, when [Parse] returns true the last token
    that its lexer has read is the end of the input: no statement handler
    and no error path makes it stop early with success. *)
Theorem Parse_true_at_eof fuel filename input s s' :
  Parse fuel filename input s = Val true s' ->
  exists l, ReadToken l = (TEOF, lexer_ s').
Proof.
  destruct fuel as [|fuel]; [discriminate|]. simpl.
  unfold call, bind at 1, modify at 1.
  pose proof (Parse_statements_wp (Parse fuel) fuel
                (set_lexer (Start filename input) s)) as Hwp.
  unfold wp in Hwp.
  destruct (Parse_statements (Parse fuel) fuel (set_lexer (Start filename input) s))
    as [b s1|b s1|s1|]; try discriminate; [contradiction|].
  intros [= -> ->]. apply Hwp. reflexivity.
Qed.

(** *** Inclusion: the indented lines and the quiet flag *)

Lemma ExpectToken_reads s t l' :
  ReadToken (lexer_ s) = (t, l') -> ExpectToken t s = Val true (set_lexer l' s).
Proof.
  intros Hr. unfold ExpectToken, call, bind, lex. rewrite Hr.
  rewrite bool_decide_eq_true_2 by reflexivity. reflexivity.
Qed.

(** The head of an include or subninja statement: its path and the end of
    its line. *)
Lemma ParseFileInclude_head parse fuel new_scope s eval l1 l2 :
  ReadPath (lexer_ s) = (inl eval, l1) ->
  ReadToken l1 = (NEWLINE, l2) ->
  ParseFileInclude parse fuel new_scope s =
    call (ParseFileInclude_from parse fuel new_scope
            (Evaluate (state_ s) (env_ s) eval) (AsString (state_ s) (env_ s))
            (mkIncludeLocals false EmptyString EmptyString true))
         (set_lexer l2 s).
Proof.
  intros H1 H2. unfold ParseFileInclude, call, bind at 1.
  rewrite (ReadPath_reads s eval l1 H1).
  unfold bind at 1, get at 1. unfold bind at 1, Evaluate_, get at 1.
  unfold bind at 1.
  rewrite (ExpectToken_reads (set_lexer l1 s) NEWLINE l2) by exact H2.
  reflexivity.
Qed.

(** An indented line of an include statement ends the loop with [ok]
    false, whatever it holds. *)
Lemma ParseFileInclude_bindings_include fuel v s l1 :
  PeekToken INDENT (lexer_ s) = (true, l1) ->
  exists s',
    ParseFileInclude_bindings (S fuel) false v s = Val (not_ok v) s' /\
    same_store s s' /\
    (forall l2 l3 l4 value,
       ReadIdent l1 = (Some "chdir", l2) ->
       ReadToken l2 = (EQUALS, l3) ->
       ReadVarValue l3 = (inl value, l4) ->
       err_ s' = Error "invalid use of 'chdir' in include line" l4).
Proof.
  intros Hp. simpl. unfold bind at 1, lex at 1. rewrite Hp. simpl.
  unfold bind at 1.
  assert (Hs1 : same_store s (set_lexer l1 s)) by (repeat split).
  destruct (ParseLet_total (set_lexer l1 s))
    as (o & s2 & Hlet & Hs2%(same_store_trans _ _ _ Hs1)).
  rewrite Hlet.
  destruct o as [[key value]|]; simpl.
  2:{ exists s2. split; [reflexivity|]. split; [exact Hs2|].
      intros l2 l3 l4 value Hi He Hv.
      rewrite (ParseLet_reads (set_lexer l1 s) "chdir" value l2 l3 l4) in Hlet
        by assumption.
      discriminate. }
  destruct (String.eqb key "chdir") eqn:Hkey; simpl.
  - eexists. split; [reflexivity|]. split; [apply same_store_set_err, Hs2|].
    intros l2 l3 l4 value' Hi He Hv.
    rewrite (ParseLet_reads (set_lexer l1 s) "chdir" value' l2 l3 l4) in Hlet
      by assumption.
    injection Hlet as _ _ <-. reflexivity.
  - eexists. split; [reflexivity|]. split; [apply same_store_set_err, Hs2|].
    intros l2 l3 l4 value' Hi He Hv.
    rewrite (ParseLet_reads (set_lexer l1 s) "chdir" value' l2 l3 l4) in Hlet
      by assumption.
    injection Hlet as <- _ _. discriminate.
Qed.

(** X14: an include statement takes no indented line. When the line of an
    include statement is followed by an indented line, whatever that line
    holds, the statement fails without reading the file, without a nested
    parse and without a change of directory: the store, the file reader and
    the warnings are the ones of before. For a [chdir] line the error is the
    one of a chdir in an include line. *)
Theorem ParseFileInclude_include_takes_no_binding parse fuel s eval l1 l2 l3 :
  ReadPath (lexer_ s) = (inl eval, l1) ->
  ReadToken l1 = (NEWLINE, l2) ->
  PeekToken INDENT l2 = (true, l3) ->
  exists s',
    ParseFileInclude parse (S fuel) false s = Val false s' /\
    same_store s s' /\
    (forall l4 l5 l6 value,
       ReadIdent l3 = (Some "chdir", l4) ->
       ReadToken l4 = (EQUALS, l5) ->
       ReadVarValue l5 = (inl value, l6) ->
       err_ s' = Error "invalid use of 'chdir' in include line" l6).
Proof.
  intros H1 H2 Hp.
  rewrite (ParseFileInclude_head parse (S fuel) false s eval l1 l2 H1 H2).
  destruct (ParseFileInclude_bindings_include fuel
              (mkIncludeLocals false EmptyString EmptyString true) (set_lexer l2 s) l3 Hp)
    as (s' & Hloop & Hs' & Herr).
  exists s'. split; [|split; [|exact Herr]].
  - unfold call, ParseFileInclude_from, bind at 1. rewrite Hloop.
    reflexivity.
  - eapply same_store_trans; [|exact Hs']. repeat split.
Qed.

Local Abbreviation quiet_blind := (quiet_blind (L:=L) (FR:=FR)).

Lemma quiet_blind_val {A} (a : A) : quiet_blind (val a).
Proof. intros q s. reflexivity. Qed.

Lemma quiet_blind_return {A} b : quiet_blind (return_ b : M A).
Proof. intros q s. reflexivity. Qed.

Lemma quiet_blind_bind {A B} (m : M A) (k : A -> M B) :
  quiet_blind m -> (forall a, quiet_blind (k a)) -> quiet_blind (x <- m ;; k x).
Proof.
  intros Hm Hk q s. unfold bind. rewrite Hm.
  destruct (m s) as [a s1|b s1|s1|]; simpl; [apply Hk|reflexivity..].
Qed.

Lemma quiet_blind_get {A} (f : PState L FR -> A) :
  (forall q s, f (set_quiet q s) = f s) -> quiet_blind (get f).
Proof. intros Hf q s. unfold get. rewrite Hf. reflexivity. Qed.

Lemma quiet_blind_modify (f : PState L FR -> PState L FR) :
  (forall q s, f (set_quiet q s) = set_quiet q (f s)) -> quiet_blind (modify f).
Proof. intros Hf q s. unfold modify. rewrite Hf. reflexivity. Qed.

Lemma quiet_blind_lex {A} (f : L -> A * L) : quiet_blind (lex f).
Proof. intros q s. unfold lex. simpl. destruct (f (lexer_ s)). reflexivity. Qed.

Lemma quiet_blind_call (body : M bool) : quiet_blind body -> quiet_blind (call body).
Proof.
  intros Hb q s. unfold call. rewrite Hb. destruct (body s); reflexivity.
Qed.

Lemma quiet_blind_call_out {A} (body : M A) :
  quiet_blind body -> quiet_blind (call_out body).
Proof.
  intros Hb q s. unfold call_out. rewrite Hb. destruct (body s); reflexivity.
Qed.

Lemma quiet_blind_return_Error {A} msg : quiet_blind (return_Error msg : M A).
Proof. intros q s. reflexivity. Qed.

Lemma quiet_blind_lexer_Error msg : quiet_blind (lexer_Error msg).
Proof. intros q s. reflexivity. Qed.

Lemma quiet_blind_require b : quiet_blind (require b).
Proof. destruct b; [apply quiet_blind_val | apply quiet_blind_return]. Qed.

Lemma quiet_blind_ReadPath : quiet_blind ReadPath_.
Proof.
  apply quiet_blind_bind; [apply quiet_blind_lex|].
  intros [path|e]; [apply quiet_blind_val|]. intros q s. reflexivity.
Qed.

Lemma quiet_blind_ReadVarValue : quiet_blind ReadVarValue_.
Proof.
  apply quiet_blind_bind; [apply quiet_blind_lex|].
  intros [path|e]; [apply quiet_blind_val|]. intros q s. reflexivity.
Qed.

Lemma quiet_blind_ExpectToken t : quiet_blind (ExpectToken t).
Proof.
  apply quiet_blind_call, quiet_blind_bind; [apply quiet_blind_lex|].
  intros token. case_bool_decide;
    [apply quiet_blind_return | apply quiet_blind_return_Error].
Qed.

Lemma quiet_blind_ParseLet : quiet_blind ParseLet.
Proof.
  apply quiet_blind_call_out, quiet_blind_bind; [apply quiet_blind_lex|].
  intros [key|]; [|apply quiet_blind_return_Error].
  apply quiet_blind_bind; [apply quiet_blind_ExpectToken|]. intros expected.
  apply quiet_blind_bind; [apply quiet_blind_require|]. intros _.
  apply quiet_blind_bind; [apply quiet_blind_ReadVarValue|].
  intros [value|]; [apply quiet_blind_val | apply quiet_blind_return].
Qed.

Lemma quiet_blind_Chdir dir : quiet_blind (Chdir_ dir).
Proof.
  intros q s. unfold Chdir_. simpl. destruct (Chdir dir (file_reader_ s)). reflexivity.
Qed.

Lemma quiet_blind_Getcwd : quiet_blind Getcwd_.
Proof.
  intros q s. unfold Getcwd_. simpl. destruct (Getcwd (file_reader_ s)). reflexivity.
Qed.

Lemma quiet_blind_ParseFileInclude_bindings fuel new_scope : forall v,
  quiet_blind (ParseFileInclude_bindings fuel new_scope v).
Proof.
  induction fuel as [|fuel IH]; intros v; [intros q s; reflexivity|].
  simpl. apply quiet_blind_bind; [apply quiet_blind_lex|].
  intros indent. destruct (negb indent); [apply quiet_blind_val|].
  apply quiet_blind_bind; [apply quiet_blind_ParseLet|].
  intros [[key let_value]|]; [|apply quiet_blind_val].
  destruct (negb (String.eqb key "chdir")).
  { apply quiet_blind_bind; [apply quiet_blind_lexer_Error|].
    intros _. apply quiet_blind_val. }
  destruct (negb new_scope).
  { apply quiet_blind_bind; [apply quiet_blind_lexer_Error|].
    intros _. apply quiet_blind_val. }
  destruct (has_chdir v).
  { apply quiet_blind_bind; [apply quiet_blind_lexer_Error|].
    intros _. apply quiet_blind_val. }
  apply quiet_blind_bind; [apply quiet_blind_get; reflexivity|]. intros penv.
  apply quiet_blind_bind; [apply quiet_blind_get; reflexivity|]. intros rel.
  apply quiet_blind_bind; [apply quiet_blind_Getcwd|].
  intros [cwd0|dir_err].
  2:{ apply quiet_blind_bind; [apply quiet_blind_modify; reflexivity|].
      intros _. apply quiet_blind_return. }
  apply quiet_blind_bind; [apply quiet_blind_Chdir|].
  intros [dir_err|]; [|apply IH].
  apply quiet_blind_bind; [apply quiet_blind_modify; reflexivity|].
  intros _. apply quiet_blind_return.
Qed.

(** The nested parser is made with [quiet_] false, whatever the flag of
    the parser that makes it. *)
Lemma quiet_blind_subparser env (m : M bool) : quiet_blind (subparser env m).
Proof.
  intros q s. unfold subparser. simpl.
  destruct (m _) as [b s'|b s'|s'|]; reflexivity.
Qed.

Lemma quiet_blind_ParseFileInclude_nested parse new_scope path parent_path v :
  quiet_blind (ParseFileInclude_nested parse new_scope path parent_path v).
Proof.
  unfold ParseFileInclude_nested. destruct (ok v); [|apply quiet_blind_val].
  apply quiet_blind_bind; [apply quiet_blind_get; reflexivity|]. intros penv.
  apply quiet_blind_bind; [|intros sub_env; apply quiet_blind_subparser].
  destruct new_scope; [|apply quiet_blind_val].
  apply quiet_blind_bind.
  { intros q s. simpl. reflexivity. }
  intros e. apply quiet_blind_bind; [|intros _; apply quiet_blind_val].
  destruct (negb _); [|apply quiet_blind_val].
  apply quiet_blind_bind; [apply quiet_blind_modify; reflexivity|]. intros _.
  apply quiet_blind_bind; [apply quiet_blind_get; reflexivity|]. intros st.
  apply quiet_blind_modify. reflexivity.
Qed.

Lemma quiet_blind_ParseFileInclude_restore v ok :
  quiet_blind (ParseFileInclude_restore v ok).
Proof.
  unfold ParseFileInclude_restore. destruct (has_chdir v); [|apply quiet_blind_return].
  apply quiet_blind_bind; [apply quiet_blind_Chdir|].
  intros [dir_err|]; [|apply quiet_blind_return].
  destruct ok; [|apply quiet_blind_return].
  apply quiet_blind_bind; [apply quiet_blind_modify; reflexivity|].
  intros _. apply quiet_blind_return.
Qed.

(** X15: an inclusion does not pass on the quiet flag. An include or
    subninja statement runs in the same way on a parser that is quiet and on
    one that is not, and leaves the flag of that parser as it is: the nested
    parser is always made with the flag off, so what the included file warns
    about is printed whatever the flag of the including parser. *)
Theorem ParseFileInclude_ignores_quiet parse fuel new_scope q s :
  ParseFileInclude parse fuel new_scope (set_quiet q s) =
  with_state (set_quiet q) (ParseFileInclude parse fuel new_scope s).
Proof.
  revert q s. change (quiet_blind (ParseFileInclude parse fuel new_scope)).
  unfold ParseFileInclude.
  apply quiet_blind_call, quiet_blind_bind; [apply quiet_blind_ReadPath|].
  intros [eval|]; [|apply quiet_blind_return].
  apply quiet_blind_bind; [apply quiet_blind_get; reflexivity|]. intros penv.
  apply quiet_blind_bind; [apply quiet_blind_get; reflexivity|]. intros path.
  apply quiet_blind_bind; [apply quiet_blind_ExpectToken|]. intros expected.
  apply quiet_blind_bind; [apply quiet_blind_require|]. intros _.
  apply quiet_blind_bind; [apply quiet_blind_get; reflexivity|]. intros st.
  unfold ParseFileInclude_from.
  apply quiet_blind_bind; [apply quiet_blind_ParseFileInclude_bindings|]. intros v.
  apply quiet_blind_bind; [apply quiet_blind_ParseFileInclude_nested|]. intros nested_ok.
  apply quiet_blind_ParseFileInclude_restore.
Qed.

(** The line [chdir = value] of a subninja statement, whatever the file
    reader answers. *)
Lemma ParseFileInclude_bindings_chdir_line fuel v s l1 l2 l3 l4 value :
  has_chdir v = false ->
  PeekToken INDENT (lexer_ s) = (true, l1) ->
  ReadIdent l1 = (Some "chdir", l2) ->
  ReadToken l2 = (EQUALS, l3) ->
  ReadVarValue l3 = (inl value, l4) ->
  ParseFileInclude_bindings (S fuel) true v s =
    let dir := Evaluate (state_ s) (env_ s) value in
    match Getcwd (file_reader_ s) with
    | (inr dir_err, fr1) =>
      Ret false (set_err ("Getcwd: " +:+ dir_err) (set_file_reader fr1 (set_lexer l4 s)))
    | (inl prev_cwd, fr1) =>
      match Chdir dir fr1 with
      | (Some dir_err, fr2) =>
        Ret false (set_err ("Chdir to '" +:+ dir +:+ "': " +:+ dir_err)
                           (set_file_reader fr2 (set_lexer l4 s)))
      | (None, fr2) =>
        ParseFileInclude_bindings fuel true
          (mkIncludeLocals true prev_cwd (dir +:+ "/") (ok v))
          (set_file_reader fr2 (set_lexer l4 s))
      end
    end.
Proof.
  intros Hv Hp H1 H2 H3. simpl.
  unfold bind at 1, lex at 1. rewrite Hp. simpl. unfold bind at 1.
  rewrite (ParseLet_reads (set_lexer l1 s) "chdir" value l2 l3 l4) by assumption.
  simpl. rewrite Hv.
  unfold bind at 1, get at 1. unfold bind at 1, Evaluate_, get at 1. simpl.
  unfold bind at 1, Getcwd_ at 1. simpl.
  destruct (Getcwd (file_reader_ s)) as [[prev_cwd|dir_err] fr1]; simpl; [|reflexivity].
  unfold bind at 1, Chdir_ at 1. simpl.
  destruct (Chdir _ fr1) as [[dir_err|] fr2]; reflexivity.
Qed.

(** X16: a subninja statement whose change of directory fails loads
    nothing. When the working directory cannot be read, or the directory of
    the [chdir] line cannot be entered, the statement fails at once with the
    message of the file reader: there is no nested parse and no attempt to
    set the directory back, so the store is the one of before and the file
    reader is left as the failing call left it. *)
Theorem ParseFileInclude_chdir_failure parse fuel s eval l1 l2 l3 l4 l5 l6 value :
  ReadPath (lexer_ s) = (inl eval, l1) ->
  ReadToken l1 = (NEWLINE, l2) ->
  PeekToken INDENT l2 = (true, l3) ->
  ReadIdent l3 = (Some "chdir", l4) ->
  ReadToken l4 = (EQUALS, l5) ->
  ReadVarValue l5 = (inl value, l6) ->
  let dir := Evaluate (state_ s) (env_ s) value in
  ParseFileInclude parse (S fuel) true s =
    match Getcwd (file_reader_ s) with
    | (inr dir_err, fr1) =>
      Val false (set_err ("Getcwd: " +:+ dir_err) (set_file_reader fr1 (set_lexer l6 s)))
    | (inl prev_cwd, fr1) =>
      match Chdir dir fr1 with
      | (Some dir_err, fr2) =>
        Val false (set_err ("Chdir to '" +:+ dir +:+ "': " +:+ dir_err)
                           (set_file_reader fr2 (set_lexer l6 s)))
      | (None, fr2) =>
        call (ParseFileInclude_from parse fuel true
                (Evaluate (state_ s) (env_ s) eval) (AsString (state_ s) (env_ s))
                (mkIncludeLocals true prev_cwd (dir +:+ "/") true))
             (set_file_reader fr2 (set_lexer l6 s))
      end
    end.
Proof.
  intros H1 H2 Hp Hi He Hv dir.
  rewrite (ParseFileInclude_head parse (S fuel) true s eval l1 l2 H1 H2).
  unfold call, ParseFileInclude_from, bind at 1.
  rewrite (ParseFileInclude_bindings_chdir_line fuel
             (mkIncludeLocals false EmptyString EmptyString true) (set_lexer l2 s)
             l3 l4 l5 l6 value eq_refl Hp Hi He Hv).
  simpl. fold dir.
  destruct (Getcwd (file_reader_ s)) as [[prev_cwd|dir_err] fr1]; [|reflexivity].
  destruct (Chdir dir fr1) as [[dir_err|] fr2]; reflexivity.
Qed.

(** X17: a build statement whose [pool] binding names no pool fails after
    its edge has been added, and the edge is not taken away: the store is the
    one of before with the new edge, in its scope and without outputs or
    inputs, at the end of the edges. *)
Theorem ParseEdge_build_unknown_pool v s :
  let edge := length (edges_ (state_ s)) in
  let name := Edge_GetBinding (edge_added v (state_ s)) edge "pool" in
  name <> EmptyString ->
  LookupPool (edge_added v (state_ s)) name = None ->
  ParseEdge_build v s =
    Ret false (set_err (Error ("unknown pool name '" +:+ name +:+ "'") (lexer_ s))
                       (set_state (edge_added v (state_ s)) s)) /\
  edges_ (edge_added v (state_ s)) =
    edges_ (state_ s) ++ [mkEdge (rule v) kDefaultPool (env v) [] [] 0 0 0 None].
Proof.
  intros edge name Hname Hpool. split; [|apply edge_added_edges].
  unfold ParseEdge_build, bind at 1. simpl.
  unfold bind at 1, modify_state, modify at 1. simpl.
  unfold bind at 1, ParseEdge_pool, bind at 1, get at 1. simpl.
  change (map_edge (set_edge_env (env v)) (length (edges_ (state_ s)))
            (set_edges (fun es => es ++ [mkEdge (rule v) kDefaultPool 0%nat [] [] 0 0 0 None])
                       (state_ s)))
    with (edge_added v (state_ s)).
  fold edge. fold name.
  apply String.eqb_neq in Hname. rewrite Hname. simpl. rewrite Hpool. reflexivity.
Qed.

(** *** Bindings *)

(** X18: [ParseLet] reads one [key = value] binding and touches nothing
    but the lexer and the error string. It always returns; it returns true
    with a key and a value exactly when the lexer yields an identifier, the
    equals sign and a value, and then the error string is as it was and the
    lexer stands after the value; in every case the store, the file reader
    and the warnings are the ones of before. *)
Theorem ParseLet_outcome s :
  exists o s',
    ParseLet s = Val o s' /\ same_store s s' /\
    forall key value,
      o = Some (key, value) <->
      exists l1 l2 l3,
        ReadIdent (lexer_ s) = (Some key, l1) /\ ReadToken l1 = (EQUALS, l2) /\
        ReadVarValue l2 = (inl value, l3) /\ s' = set_lexer l3 s.
Proof.
  unfold ParseLet, call_out, ExpectToken, call, ReadVarValue_, return_Error, lexer_Error,
    bind, lex, modify, val, return_.
  destruct (ReadIdent (lexer_ s)) as [[key0|] l1] eqn:H1; simpl.
  2:{ eexists None, _. split; [reflexivity|]. split; [repeat split|].
      intros key value. split; [discriminate|].
      intros (? & ? & ? & [=] & _). }
  destruct (ReadToken l1) as [token l2] eqn:H2; simpl.
  case_bool_decide as Htoken; simpl.
  2:{ eexists None, _. split; [reflexivity|]. split; [repeat split|].
      intros key value. split; [discriminate|].
      intros (l1' & l2' & l3' & [= -> ->] & Ht & _).
      rewrite H2 in Ht. injection Ht as -> _. congruence. }
  subst token.
  destruct (ReadVarValue l2) as [[value0|e] l3] eqn:H3; simpl.
  - eexists (Some (key0, value0)), _. split; [reflexivity|]. split; [repeat split|].
    intros key value. split.
    + intros [= <- <-]. exists l1, l2, l3. auto.
    + intros (l1' & l2' & l3' & [= -> ->] & Ht & Hv & _).
      rewrite H2 in Ht. injection Ht as ->. rewrite H3 in Hv. injection Hv as -> _.
      reflexivity.
  - eexists None, _. split; [reflexivity|]. split; [repeat split|].
    intros key value. split; [discriminate|].
    intros (l1' & l2' & l3' & [= -> ->] & Ht & Hv & _).
    rewrite H2 in Ht. injection Ht as ->. rewrite H3 in Hv. discriminate.
Qed.

(** *** What parsing never undoes *)

Lemma graph_mono_refl st : graph_mono st st.
Proof.
  repeat split; eauto.
  - exists []. rewrite app_nil_r. reflexivity.
  - exists []. rewrite app_nil_r. reflexivity.
Qed.

Lemma graph_mono_trans st1 st2 st3 :
  graph_mono st1 st2 -> graph_mono st2 st3 -> graph_mono st1 st3.
Proof.
  intros (Hp & Hs & [ae He] & [ad Hd] & Hn) (Hp' & Hs' & [ae' He'] & [ad' Hd'] & Hn').
  repeat split.
  - eauto.
  - intros env be Hbe. destruct (Hs env be Hbe) as (be2 & Hbe2 & Hpar & Hrules).
    destruct (Hs' env be2 Hbe2) as (be3 & Hbe3 & Hpar' & Hrules').
    exists be3. split; [exact Hbe3|]. split; [congruence | eauto].
  - exists (ae ++ ae'). rewrite He', He, app_assoc. reflexivity.
  - exists (ad ++ ad'). rewrite Hd', Hd, app_assoc. reflexivity.
  - intros q n Hq. destruct (Hn q n Hq) as (n2 & Hq2 & Hin).
    destruct (Hn' q n2 Hq2) as (n3 & Hq3 & Hin'). exists n3. split; [exact Hq3 | eauto].
Qed.

(** A change of the pools, of the scopes or of the nodes alone. *)
Lemma graph_mono_pools st f :
  (forall name p, pools_ st !! name = Some p -> f (pools_ st) !! name = Some p) ->
  graph_mono st (set_pools f st).
Proof.
  intros Hf. destruct (graph_mono_refl st) as (_ & Hs & He & Hd & Hn).
  repeat split; assumption.
Qed.

Lemma graph_mono_scopes st f :
  (forall env be, scopes_ st !! env = Some be ->
     exists be', f (scopes_ st) !! env = Some be' /\ parent_ be' = parent_ be /\
       forall name r, rules_ be !! name = Some r -> rules_ be' !! name = Some r) ->
  graph_mono st (set_scopes f st).
Proof.
  intros Hf. destruct (graph_mono_refl st) as (Hp & _ & He & Hd & Hn).
  repeat split; assumption.
Qed.

Lemma graph_mono_paths st f :
  (forall q n, paths_ st !! q = Some n ->
     exists n', f (paths_ st) !! q = Some n' /\
       forall e, in_edge_ n = Some e -> in_edge_ n' = Some e) ->
  graph_mono st (set_paths f st).
Proof.
  intros Hf. destruct (graph_mono_refl st) as (Hp & Hs & He & Hd & _).
  repeat split; assumption.
Qed.

Lemma graph_mono_AddPool p st :
  LookupPool st (pool_name_ p) = None -> graph_mono st (AddPool p st).
Proof.
  intros Hnew. apply graph_mono_pools. intros name p' Hp'.
  rewrite lookup_insert_ne; [exact Hp'|].
  intros <-. unfold LookupPool in Hnew. congruence.
Qed.

Lemma graph_mono_AddRule env r st :
  LookupRuleCurrentScope st env (rule_name_ r) = None -> graph_mono st (AddRule env r st).
Proof.
  intros Hnew. apply graph_mono_scopes. intros env' be Hbe.
  destruct (decide (env' = env)) as [->|Hne].
  - rewrite list_lookup_alter_eq, Hbe. simpl. eexists. split; [reflexivity|].
    split; [reflexivity|]. simpl. intros name r' Hr'.
    rewrite lookup_insert_ne; [exact Hr'|].
    intros <-. unfold LookupRuleCurrentScope in Hnew. rewrite Hbe in Hnew. congruence.
  - rewrite list_lookup_alter_ne by congruence. eauto.
Qed.

Lemma graph_mono_AddBinding env key v st : graph_mono st (AddBinding env key v st).
Proof.
  apply graph_mono_scopes. intros env' be Hbe.
  destruct (decide (env' = env)) as [->|Hne].
  - rewrite list_lookup_alter_eq, Hbe. simpl. eexists. split; [reflexivity|]. auto.
  - rewrite list_lookup_alter_ne by congruence. eauto.
Qed.

Lemma graph_mono_new_BindingEnv parent rel abs st :
  graph_mono st (new_BindingEnv parent rel abs st).2.
Proof.
  apply graph_mono_scopes. intros env be Hbe.
  exists be. rewrite lookup_app_l by (eapply lookup_lt_Some, Hbe). auto.
Qed.

Lemma graph_mono_rehome abs_path env st : graph_mono st (rehome abs_path env st).
Proof.
  apply graph_mono_paths. intros q n Hq.
  rewrite map_lookup_imap, Hq. simpl. eexists. split; [reflexivity|].
  destruct (String.prefix abs_path q); auto.
Qed.

Lemma graph_mono_scope_added penv st st' : scope_added penv st st' -> graph_mono st st'.
Proof.
  intros (Hpa & Hpo & He & Hd & be & Hsc & _).
  destruct (graph_mono_refl st) as (Hp0 & _ & He0 & Hd0 & Hn0).
  unfold graph_mono. rewrite Hpa, Hpo, He, Hd, Hsc.
  repeat split; try assumption.
  intros env be0 Hbe. exists be0.
  rewrite lookup_app_l by (eapply lookup_lt_Some, Hbe). auto.
Qed.

Lemma graph_mono_defaults_grow s s' added :
  defaults_grow s s' added -> graph_mono (state_ s) (state_ s').
Proof.
  intros (Hpa & Hpo & He & Hsc & _ & Hd & _).
  destruct (graph_mono_refl (state_ s)) as (Hp0 & Hs0 & He0 & _ & Hn0).
  unfold graph_mono. rewrite Hpa, Hpo, He, Hsc, Hd.
  repeat split; try assumption. eauto.
Qed.

Lemma graph_mono_build_inv st st' : build_inv st st' -> graph_mono st st'.
Proof.
  intros (Hpo & Hd & Hsc & He & Hk).
  destruct (graph_mono_refl st) as (Hp0 & Hs0 & _ & Hd0 & _).
  unfold graph_mono. rewrite Hpo, Hd, Hsc.
  repeat split; try assumption.
  - destruct He as [->|[e ->]]; [exists []; rewrite app_nil_r|]; eauto.
  - intros q n Hq. specialize (Hk q). rewrite Hq in Hk.
    destruct Hk as (n' & Hq' & [Hin|[Hin _]]); exists n'; (split; [exact Hq'|]);
      intros e He'; congruence.
Qed.

Local Ltac mono_side :=
  first [exact graph_mono_refl | exact (graph_mono_refl _) | exact graph_mono_trans
        | assumption].

Lemma keeps_same_state {A} (G : State -> State -> Prop) (m : M A) :
  (forall st, G st st) ->
  (forall s, wp m (fun _ s' => state_ s' = state_ s) (fun _ s' => state_ s' = state_ s)
                  (fun s' => state_ s' = state_ s) True s) ->
  keeps G m.
Proof.
  intros Hrefl Hm s. unfold ends_in.
  eapply wp_mono; [apply Hm| | | |]; simpl; try (intros; exact I);
    intros; match goal with H : state_ _ = state_ _ |- _ => rewrite H end; apply Hrefl.
Qed.

Lemma keeps_mono_ParsePool fuel : keeps graph_mono (ParsePool fuel).
Proof.
  intros s. unfold ends_in.
  eapply wp_mono; [apply ParsePool_wp| | | |]; simpl; [|intros ? ? []|intros ? []|auto].
  intros [] s'; unfold ParsePool_post.
  - intros (name & l1 & depth & _ & Hnew & _ & ->). apply graph_mono_AddPool, Hnew.
  - intros ->. apply graph_mono_refl.
Qed.

Lemma keeps_mono_ParseRule fuel : keeps graph_mono (ParseRule fuel).
Proof.
  intros s. unfold ends_in.
  eapply wp_mono; [apply ParseRule_wp| | | |]; simpl; [|intros ? ? []|intros ? []|auto].
  intros [] s'; unfold ParseRule_post.
  - intros (rule & -> & Hnew & _). apply graph_mono_AddRule, Hnew.
  - intros ->. apply graph_mono_refl.
Qed.

Lemma keeps_mono_ParseDefault fuel : keeps graph_mono (ParseDefault fuel).
Proof.
  intros s. unfold ends_in.
  eapply wp_mono; [apply ParseDefault_wp| | | |]; simpl; [|intros ? ? []|intros ? []|auto].
  intros b s' (added & Hgrow & _). eapply graph_mono_defaults_grow, Hgrow.
Qed.

Lemma keeps_mono_ParseEdge fuel : keeps graph_mono (ParseEdge fuel).
Proof.
  intros s. unfold ParseEdge, ends_in. apply wp_call, wp_bind.
  eapply wp_mono; [apply ParseEdge_read_wp| | | |]; simpl; [| |intros ? []|auto].
  - intros v s1 (_ & _ & _ & Hscope).
    assert (H1 : graph_mono (state_ s) (state_ s1)).
    { destruct Hscope as [[_ ->]|[_ H]];
        [apply graph_mono_refl | eapply graph_mono_scope_added, H]. }
    eapply wp_mono; [apply (ParseEdge_build_ends v s1)| | | |]; simpl; auto;
      intros;
      (eapply graph_mono_trans; [exact H1 | apply graph_mono_build_inv; assumption]).
  - intros b s1 (_ & [->|[_ H]]);
      [apply graph_mono_refl | eapply graph_mono_scope_added, H].
Qed.

Lemma keeps_mono_ParseFileInclude_bindings fuel new_scope : forall v,
  keeps graph_mono (ParseFileInclude_bindings fuel new_scope v).
Proof.
  induction fuel as [|fuel IH]; intros v; [intros s; exact I|].
  simpl. apply keeps_bind; [mono_side | mono_side | |].
  { apply (keeps_lexer_only _ graph_mono_refl (fun _ => False)), lexer_only_lex. }
  intros indent. destruct (negb indent); [apply keeps_val; mono_side|].
  apply keeps_bind; [mono_side | mono_side | |].
  { apply (keeps_lexer_only _ graph_mono_refl (fun _ => False)), lexer_only_ParseLet. }
  intros [[key let_value]|]; [|apply keeps_val; mono_side].
  destruct (negb (String.eqb key "chdir")).
  { apply keeps_bind; [mono_side | mono_side | apply keeps_lexer_Error; mono_side|].
    intros _. apply keeps_val; mono_side. }
  destruct (negb new_scope).
  { apply keeps_bind; [mono_side | mono_side | apply keeps_lexer_Error; mono_side|].
    intros _. apply keeps_val; mono_side. }
  destruct (has_chdir v).
  { apply keeps_bind; [mono_side | mono_side | apply keeps_lexer_Error; mono_side|].
    intros _. apply keeps_val; mono_side. }
  apply keeps_bind; [mono_side | mono_side | apply keeps_get; mono_side|]. intros penv.
  apply keeps_bind; [mono_side | mono_side | apply keeps_get; mono_side|]. intros rel.
  apply keeps_bind; [mono_side | mono_side | |].
  { apply keeps_same_state; [mono_side|]. intros s. unfold wp, Getcwd_.
    destruct (Getcwd (file_reader_ s)). reflexivity. }
  intros [cwd0|dir_err].
  2:{ apply keeps_bind; [mono_side | mono_side | |intros _; apply keeps_return; mono_side].
      apply keeps_same_state; [mono_side|]. intros s. reflexivity. }
  apply keeps_bind; [mono_side | mono_side | |].
  { apply keeps_same_state; [mono_side|]. intros s. unfold wp, Chdir_.
    destruct (Chdir rel (file_reader_ s)). reflexivity. }
  intros [dir_err|]; [|apply IH].
  apply keeps_bind; [mono_side | mono_side | |intros _; apply keeps_return; mono_side].
  apply keeps_same_state; [mono_side|]. intros s. reflexivity.
Qed.

Lemma keeps_subparser (G : State -> State -> Prop) env (m : M bool) :
  keeps G m -> keeps G (subparser env m).
Proof.
  intros Hm s. unfold ends_in, wp, subparser.
  specialize (Hm (mkPState (lexer_ s) env (options_ s) false (state_ s) (file_reader_ s)
                           (err_ s) (warnings_ s))).
  unfold ends_in, wp in Hm. simpl in Hm.
  destruct (m _) as [b s'|b s'|s'|]; simpl; auto.
Qed.

Lemma keeps_mono_Load parse filename :
  (forall f input, keeps graph_mono (parse f input)) ->
  keeps graph_mono (Load parse filename).
Proof.
  intros Hparse. unfold Load. apply keeps_call.
  apply keeps_bind; [mono_side | mono_side | |].
  { apply keeps_same_state; [mono_side|]. intros s. unfold wp, ReadFile_.
    destruct (ReadFile filename (file_reader_ s)). reflexivity. }
  intros [contents|read_err]; [|apply keeps_return_Error; mono_side].
  apply keeps_bind; [mono_side | mono_side | apply Hparse|].
  intros b. apply keeps_return; mono_side.
Qed.

Lemma keeps_mono_ParseFileInclude_nested parse new_scope path parent_path v :
  (forall f input, keeps graph_mono (parse f input)) ->
  keeps graph_mono (ParseFileInclude_nested parse new_scope path parent_path v).
Proof.
  intros Hparse. unfold ParseFileInclude_nested.
  destruct (ok v); [|apply keeps_val; mono_side].
  intros s. unfold ends_in, wp at 1, bind at 1, get at 1.
  apply (ends_in_bind_gen (graph_mono (state_ s)) (graph_mono (state_ s))); [|auto|].
  2:{ intros sub_env s1 H1. apply ends_in_keeps; [mono_side| |exact H1].
      apply keeps_subparser, keeps_mono_Load, Hparse. }
  destruct new_scope; [|apply graph_mono_refl].
  unfold ends_in, wp at 1, bind at 1.
  set (st1 := (new_BindingEnv (env_ s) (rel_path v) (parent_path +:+ rel_path v)
                 (state_ s)).2).
  assert (H1 : graph_mono (state_ s) st1) by apply graph_mono_new_BindingEnv.
  simpl. fold st1.
  destruct (negb (String.eqb (rel_path v) EmptyString)); [|exact H1].
  unfold bind, modify_state, modify, get, val. simpl.
  eapply graph_mono_trans; [exact H1|].
  eapply graph_mono_trans; [|apply graph_mono_rehome].
  apply graph_mono_AddRule. unfold LookupRuleCurrentScope, st1. simpl.
  rewrite lookup_app_r by lia. rewrite Nat.sub_diag. reflexivity.
Qed.

Lemma keeps_mono_ParseFileInclude_restore v ok :
  keeps graph_mono (ParseFileInclude_restore v ok).
Proof.
  unfold ParseFileInclude_restore.
  destruct (has_chdir v); [|apply keeps_return; mono_side].
  apply keeps_bind; [mono_side | mono_side | |].
  { apply keeps_same_state; [mono_side|]. intros s. unfold wp, Chdir_.
    destruct (Chdir (prev_cwd v) (file_reader_ s)). reflexivity. }
  intros [dir_err|]; [|apply keeps_return; mono_side].
  destruct ok; [|apply keeps_return; mono_side].
  apply keeps_bind; [mono_side | mono_side | |intros _; apply keeps_return; mono_side].
  apply keeps_same_state; [mono_side|]. intros s. reflexivity.
Qed.

Lemma keeps_mono_ParseFileInclude parse fuel new_scope :
  (forall f input, keeps graph_mono (parse f input)) ->
  keeps graph_mono (ParseFileInclude parse fuel new_scope).
Proof.
  intros Hparse. unfold ParseFileInclude. apply keeps_call.
  apply keeps_bind; [mono_side | mono_side | |].
  { apply (keeps_lexer_only _ graph_mono_refl (fun _ => False)), lexer_only_ReadPath. }
  intros [eval|]; [|apply keeps_return; mono_side].
  apply keeps_bind; [mono_side | mono_side | apply keeps_get; mono_side|]. intros penv.
  apply keeps_bind; [mono_side | mono_side | apply keeps_get; mono_side|]. intros path.
  apply keeps_bind; [mono_side | mono_side | |].
  { apply (keeps_lexer_only _ graph_mono_refl (fun _ => False)), lexer_only_ExpectToken. }
  intros expected. apply keeps_bind; [mono_side | mono_side | |].
  { destruct expected; [apply keeps_val | apply keeps_return]; mono_side. }
  intros _. apply keeps_bind; [mono_side | mono_side | apply keeps_get; mono_side|].
  intros st. unfold ParseFileInclude_from.
  apply keeps_bind; [mono_side | mono_side | apply keeps_mono_ParseFileInclude_bindings|].
  intros v'. apply keeps_bind; [mono_side | mono_side | |].
  { apply keeps_mono_ParseFileInclude_nested, Hparse. }
  intros nested_ok. apply keeps_mono_ParseFileInclude_restore.
Qed.

Lemma keeps_mono_Parse_statements parse fuel :
  (forall f input, keeps graph_mono (parse f input)) ->
  keeps graph_mono (Parse_statements parse fuel).
Proof.
  intros Hparse. induction fuel as [|fuel IH]; [intros s; exact I|].
  assert (Hnext : forall (handler : M bool),
            keeps graph_mono handler ->
            keeps graph_mono
              (parsed <- handler ;; require parsed ;;; Parse_statements parse fuel)).
  { intros handler Hh. apply keeps_bind; [mono_side | mono_side | exact Hh|].
    intros parsed. apply keeps_bind; [mono_side | mono_side | |intros _; exact IH].
    destruct parsed; [apply keeps_val | apply keeps_return]; mono_side. }
  simpl. apply keeps_bind; [mono_side | mono_side | |].
  { apply (keeps_lexer_only _ graph_mono_refl (fun _ => False)), lexer_only_lex. }
  intros token. destruct token; try (apply keeps_return_Error; mono_side).
  - apply keeps_bind; [mono_side | mono_side | apply keeps_get; mono_side|].
    intros d. apply keeps_return_Error; mono_side.
  - apply Hnext, keeps_mono_ParseEdge.
  - apply Hnext, keeps_mono_ParseDefault.
  - apply keeps_bind; [mono_side | mono_side | |].
    { apply (keeps_lexer_only _ graph_mono_refl (fun _ => False)), lexer_only_lex. }
    intros _. apply keeps_bind; [mono_side | mono_side | |].
    { apply (keeps_lexer_only _ graph_mono_refl (fun _ => False)), lexer_only_ParseLet. }
    intros [[name let_value]|]; [|apply keeps_return; mono_side].
    apply keeps_bind; [mono_side | mono_side | apply keeps_get; mono_side|]. intros penv.
    apply keeps_bind; [mono_side | mono_side | apply keeps_get; mono_side|]. intros value.
    apply keeps_bind; [mono_side | mono_side | |].
    { destruct (String.eqb name "ninja_required_version");
        [destruct (CheckNinjaVersion value)|]; try (apply keeps_val; mono_side).
      intros s. apply graph_mono_refl. }
    intros _. apply keeps_bind; [mono_side | mono_side | |intros _; exact IH].
    apply keeps_modify_state. intros st. apply graph_mono_AddBinding.
  - apply Hnext, keeps_mono_ParseFileInclude, Hparse.
  - exact IH.
  - apply Hnext, keeps_mono_ParsePool.
  - apply Hnext, keeps_mono_ParseRule.
  - apply Hnext, keeps_mono_ParseFileInclude, Hparse.
  - apply keeps_return; mono_side.
Qed.

Lemma keeps_mono_Parse fuel : forall filename input,
  keeps graph_mono (Parse fuel filename input).
Proof.
  induction fuel as [|fuel IH]; intros filename input; [intros s; exact I|].
  simpl. apply keeps_call.
  apply keeps_bind; [mono_side | mono_side | |intros _].
  { apply keeps_same_state; [mono_side|]. intros s. reflexivity. }
  apply keeps_mono_Parse_statements, IH.
Qed.

(** X19: parsing never undoes what is in the graph. Whatever the manifest
    and the files it includes, and whatever [Parse] answers: a pool that was
    declared is still declared, with its depth; a scope is still in its
    place, with its parent and with every rule it had; the edges and the
    default targets of before are still there, in their order and unchanged,
    followed by the new ones; and a node of before is still a node, with the
    producing edge it had. *)
Theorem Parse_keeps_graph fuel filename input s b s' :
  Parse fuel filename input s = Val b s' ->
  (forall name p,
     pools_ (state_ s) !! name = Some p -> pools_ (state_ s') !! name = Some p) /\
  (forall env be,
     scopes_ (state_ s) !! env = Some be ->
     exists be', scopes_ (state_ s') !! env = Some be' /\ parent_ be' = parent_ be /\
       forall name r, rules_ be !! name = Some r -> rules_ be' !! name = Some r) /\
  (exists added, edges_ (state_ s') = edges_ (state_ s) ++ added) /\
  (exists added, defaults_ (state_ s') = defaults_ (state_ s) ++ added) /\
  (forall q n,
     paths_ (state_ s) !! q = Some n ->
     exists n', paths_ (state_ s') !! q = Some n' /\
       forall e, in_edge_ n = Some e -> in_edge_ n' = Some e).
Proof.
  intros Hrun. pose proof (keeps_mono_Parse fuel filename input s) as Hwp.
  unfold ends_in, wp in Hwp. rewrite Hrun in Hwp. exact Hwp.
Qed.

End Properties.

(** * Concrete runs *)

Lemma ParsePool_last_depth_wins_witness :
  ParsePool (lexer := replay_lexer no_scripts)
            5 (new_parser warn_options pool_two_depths empty_disk) =
  Val true (set_state (AddPool (mkPool "p" 5) new_State)
                      (new_parser warn_options [] empty_disk)).
Proof.
  refine (proj1 (ParsePool_last_depth_wins (lexer := replay_lexer no_scripts) 5 2
            (new_parser warn_options pool_two_depths empty_disk) "p"
            (tl pool_two_depths) (tl (tl pool_two_depths)) [] []
            [("depth", [RAW "3"]); ("depth", [RAW "5"])] _ _ _ _ _ _ _) _).
  - reflexivity.
  - reflexivity.
  - reflexivity.
  - reflexivity.
  - reflexivity.
  - repeat constructor.
  - lia.
  - repeat constructor; vm_compute; discriminate.
Defined.

(** The value [abc] is not an integer, and the pool statement with
    [depth = abc] is accepted, with depth 0. *)
Lemma ParsePool_accepts_non_integer_depth :
  parses_as_non_negative_integer "abc" = false /\
  ParsePool (lexer := replay_lexer no_scripts)
            5 (new_parser warn_options pool_depth_abc empty_disk) =
  Val true (set_state (AddPool (mkPool "p" 0) new_State)
                      (new_parser warn_options [] empty_disk)).
Proof. split; vm_compute; reflexivity. Qed.

Lemma ParsePool_depth_checked_witness :
  exists s',
    ParsePool (lexer := replay_lexer no_scripts)
              5 (new_parser warn_options pool_depth_abc empty_disk) = Val true s' /\
    ([("depth", [RAW "abc"])] = [] -> err_ s' = "expected 'depth =' line") /\
    (Exists (fun b => pool_depth (new_parser warn_options pool_depth_abc empty_disk) b.2 < 0)
            [("depth", [RAW "abc"])] ->
     exists l : list Reply, err_ s' = "invalid pool depth").
Proof.
  refine (ParsePool_depth_checked (lexer := replay_lexer no_scripts) 5 1
            (new_parser warn_options pool_depth_abc empty_disk) "p"
            (tl pool_depth_abc) (tl (tl pool_depth_abc)) [] []
            [("depth", [RAW "abc"])] _ _ _ _ _ _ _).
  - reflexivity.
  - reflexivity.
  - reflexivity.
  - reflexivity.
  - reflexivity.
  - repeat constructor.
  - lia.
Defined.

Lemma ParseRule_atomic_witness :
  state_ (set_err "expected 'command =' line" (new_parser warn_options [] empty_disk)) =
  state_ (new_parser warn_options rule_without_command empty_disk).
Proof.
  refine (proj1 (ParseRule_atomic (lexer := replay_lexer no_scripts) 5
                   (new_parser warn_options rule_without_command empty_disk) false
                   (set_err "expected 'command =' line"
                            (new_parser warn_options [] empty_disk)) _) _).
  - vm_compute. reflexivity.
  - reflexivity.
Defined.

Lemma ParseEdge_duplicate_outputs_witness :
  (exists s',
     ParseEdge_build (lexer := replay_lexer no_scripts) (externals := simple_externals)
       build_out_from_b (after_build_out error_options) = Ret false s' /\
     err_ s' = "multiple rules generate out [-w dupbuild=err]") /\
  (exists s',
     ParseEdge_build (lexer := replay_lexer no_scripts) (externals := simple_externals)
       build_out_from_b (after_build_out warn_options) = Ret true s' /\
     state_ s' = state_ (after_build_out warn_options)) /\
  (exists s' e',
     ParseEdge_build (lexer := replay_lexer no_scripts) (externals := simple_externals)
       build_four_outputs (after_build_out warn_options) =
       ParseEdge_link (lexer := replay_lexer no_scripts) (externals := simple_externals)
         1 build_four_outputs 1 s' /\
     edges_ (state_ s') !! 1%nat = Some e' /\
     outputs_ e' = ["x"; "y"] /\
     (forall p, has_in_edge (state_ (after_build_out warn_options)) p = true ->
                p ∉ outputs_ e') /\
     (["x"; "y"] <> [] ->
      exists b s_end e_end,
        ParseEdge_build (lexer := replay_lexer no_scripts) (externals := simple_externals)
          build_four_outputs (after_build_out warn_options) = Ret b s_end /\
        edges_ (state_ s_end) !! 1%nat = Some e_end /\
        outputs_ e_end = ["x"; "y"] /\
        implicit_outs_ e_end = 1)).
Proof.
  split; [|split].
  3:{ refine (proj1 (proj2 (ParseEdge_duplicate_outputs (lexer := replay_lexer no_scripts)
                     (externals := simple_externals)
                     build_four_outputs (after_build_out warn_options)
                     [("x", 0); ("out", 0); ("y", 0); ("out", 0)] _ _ _)) _).
      - left. vm_compute. reflexivity.
      - vm_compute. reflexivity.
      - simpl. lia.
      - vm_compute. reflexivity. }
  - refine (proj1 (ParseEdge_duplicate_outputs (lexer := replay_lexer no_scripts)
                     (externals := simple_externals)
                     build_out_from_b (after_build_out error_options) [("out", 0)] _ _ _)
                  _ "out" _).
    + left. vm_compute. reflexivity.
    + vm_compute. reflexivity.
    + simpl. lia.
    + vm_compute. reflexivity.
    + vm_compute. reflexivity.
  - refine (proj2 (proj2 (ParseEdge_duplicate_outputs (lexer := replay_lexer no_scripts)
                     (externals := simple_externals)
                     build_out_from_b (after_build_out warn_options) [("out", 0)] _ _ _))
                  _ _).
    + left. vm_compute. reflexivity.
    + vm_compute. reflexivity.
    + simpl. lia.
    + vm_compute. reflexivity.
    + vm_compute. reflexivity.
Defined.

(** A build statement with no explicit output and one implicit output is
    accepted: its edge is in the store, with that output. *)
Lemma ParseEdge_accepts_implicit_only :
  let r := ParseEdge (lexer := replay_lexer no_scripts) (externals := simple_externals)
             5 (new_parser warn_options build_implicit_only empty_disk) in
  answer r = Some true /\
  (fun s => (fun e => (outputs_ e, implicit_outs_ e)) <$> edges_ (state_ s)) <$> final_state r =
    Some [(["imp"], 1)].
Proof. split; vm_compute; reflexivity. Qed.

Lemma ParseEdge_requires_an_output_witness :
  ParseEdge (lexer := replay_lexer no_scripts) (externals := simple_externals)
            5 (new_parser warn_options build_no_output empty_disk) =
  Val false (set_err "expected path" (new_parser warn_options build_no_output empty_disk)).
Proof.
  refine (proj1 (ParseEdge_requires_an_output (lexer := replay_lexer no_scripts)
                   (externals := simple_externals) 4
                   (new_parser warn_options build_no_output empty_disk)
                   build_no_output _) build_no_output _).
  - reflexivity.
  - left. reflexivity.
Defined.

(** C3: on both manifests [Parse] answers true, with the text of the
    lexical error in the error string and no edge in the store. *)
Lemma Parse_succeeds_after_path_error :
  let run filename :=
    Parse (lexer := replay_lexer bad_path_scripts) (file_reader := disk_reader)
          (externals := simple_externals) 5 filename EmptyString
          (new_parser warn_options [] empty_disk) in
  let report r :=
    (answer r, err_ <$> final_state r, (fun s => edges_ (state_ s)) <$> final_state r) in
  report (run "bad_implicit_out.ninja") =
    (Some true, Some "bad $-escape (literal $ must be written as $$)", Some []) /\
  report (run "bad_implicit_in.ninja") =
    (Some true, Some "bad $-escape (literal $ must be written as $$)", Some []).
Proof. split; vm_compute; reflexivity. Qed.

Lemma ParseEdge_phonycycle_strips_witness :
  ParseEdge_phonycycle (L := list Reply) (FR := Disk) O self_referencing =
  Val tt (add_warning "phony target 'a' names itself as an input; ignoring [-w phonycycle=warn]"
            (set_state
               (set_edges (fun _ => [mkEdge (mkRule "cc" ∅) kDefaultPool O ["b"] ["a"]
                                            0 0 0 None]) new_State)
               (new_parser warn_options [] empty_disk))).
Proof.
  refine (proj2 (proj2 (ParseEdge_phonycycle_strips (L := list Reply) (FR := Disk)
            O self_referencing
            (mkEdge (mkRule "cc" ∅) kDefaultPool O ["a"; "b"; "a"] ["a"] 0 0 0 None)
            "a" _ _ _ _))).
  - reflexivity.
  - reflexivity.
  - reflexivity.
  - apply list_elem_of_here.
Defined.


Lemma ParseFileInclude_restores_cwd_witness :
  let parse := Parse (lexer := replay_lexer no_scripts) (file_reader := disk_reader)
                     (externals := simple_externals) 3 in
  let s := new_parser warn_options subninja_chdir_line sub_disk in
  let v := mkIncludeLocals false EmptyString EmptyString true in
  exists v' s1,
    ParseFileInclude_bindings (lexer := replay_lexer no_scripts)
      (file_reader := disk_reader) 2 true v s = Val v' s1 /\
    file_reader_ s1 = mkDisk "sub" ["sub"] ["sub.ninja"] /\
    forall nested_ok s2,
      ParseFileInclude_nested (lexer := replay_lexer no_scripts)
        (file_reader := disk_reader) parse true "sub.ninja" EmptyString v' s1 =
        Val nested_ok s2 ->
      ParseFileInclude_from (lexer := replay_lexer no_scripts)
        (file_reader := disk_reader) parse 2 true "sub.ninja" EmptyString v s =
        match Chdir (FileReader := disk_reader) "/build" (file_reader_ s2) with
        | (None, fr) => Ret nested_ok (set_file_reader fr s2)
        | (Some dir_err, fr) =>
          Ret false
              (if nested_ok
               then set_err ("restore cwd = '" +:+ "/build" +:+ "': " +:+ dir_err)
                            (set_file_reader fr s2)
               else set_file_reader fr s2)
        end.
Proof.
  intros parse s v.
  refine (ParseFileInclude_restores_cwd (lexer := replay_lexer no_scripts)
            (file_reader := disk_reader) parse 0 "sub.ninja" EmptyString v s
            (tl subninja_chdir_line) (tl (tl subninja_chdir_line)) [RValue (inl [RAW "sub"])] []
            [RAW "sub"] "/build" sub_disk (mkDisk "sub" ["sub"] ["sub.ninja"])
            _ _ _ _ _ _ _).
  - reflexivity.
  - reflexivity.
  - reflexivity.
  - reflexivity.
  - reflexivity.
  - reflexivity.
  - vm_compute. reflexivity.
Defined.

(** The whole statement [subninja sub.ninja] with [chdir = sub] on that
    disk: the nested parse succeeds, the directory cannot be set back, and
    the statement fails with the message of that failure. *)
Example ParseFileInclude_restore_failure :
  let r := ParseFileInclude (lexer := replay_lexer no_scripts) (file_reader := disk_reader)
             (Parse (lexer := replay_lexer no_scripts) (file_reader := disk_reader)
                    (externals := simple_externals) 3)
             3 true
             (new_parser warn_options
                ([RPath (inl [RAW "sub.ninja"]); RToken NEWLINE] ++ subninja_chdir_line)
                sub_disk) in
  (answer r, err_ <$> final_state r) =
  (Some false, Some "restore cwd = '/build': No such file or directory").
Proof. vm_compute. reflexivity. Qed.

Lemma Parse_checks_required_version_first_witness :
  Parse_statements (lexer := replay_lexer no_scripts) (file_reader := disk_reader)
    (externals := simple_externals) (fun _ _ => val true) 5
    (new_parser warn_options required_version_then_garbage empty_disk) =
  Exit (new_parser warn_options [RToken ERROR; RToken ERROR] empty_disk).
Proof.
  refine (Parse_checks_required_version_first (lexer := replay_lexer no_scripts)
            (file_reader := disk_reader) (externals := simple_externals)
            (fun _ _ => val true) 4
            (new_parser warn_options required_version_then_garbage empty_disk)
            (tl required_version_then_garbage)
            (tl (tl required_version_then_garbage))
            [RValue (inl [RAW "9.9"]); RToken ERROR; RToken ERROR]
            [RToken ERROR; RToken ERROR] [RAW "9.9"] _ _ _ _).
  - reflexivity.
  - reflexivity.
  - reflexivity.
  - reflexivity.
Defined.

(** The manifest with two statements for the same output, parsed from its
    start: a failure with the duplicate-output error under the error
    policy; under the warn policy a success with one warning and the first
    edge only. *)
Example Parse_same_output_twice :
  parse_report twice_scripts error_options "twice.ninja" =
    (Some false, Some "multiple rules generate out [-w dupbuild=err]",
     Some [["out"]; []], Some []) /\
  parse_report twice_scripts warn_options "twice.ninja" =
    (Some true, Some EmptyString, Some [["out"]],
     Some ["multiple rules generate out. " +:+
           "builds involving this target will not be correct; " +:+
           "continuing anyway [-w dupbuild=warn]"]).
Proof. split; vm_compute; reflexivity. Qed.

Lemma ParsePool_atomic_witness :
  exists name depth,
    LookupPool new_State name = None /\
    0 <= depth < 2 ^ 31 /\
    state_ after_pool_two_depths = AddPool (mkPool name depth) new_State.
Proof.
  refine (proj2 (ParsePool_atomic (lexer := replay_lexer no_scripts) 5
                   (new_parser warn_options pool_two_depths empty_disk) true
                   after_pool_two_depths _) eq_refl).
  vm_compute. reflexivity.
Defined.

Lemma ParsePool_declares_once_witness :
  exists name l1 depth,
    ReadIdent (Lexer := replay_lexer no_scripts) pool_two_depths = (Some name, l1) /\
    LookupPool (state_ after_pool_two_depths) name = Some (mkPool name depth) /\
    forall fuel2 (s2 : PState (list Reply) Disk) l1' l2',
      state_ s2 = state_ after_pool_two_depths ->
      ReadIdent (Lexer := replay_lexer no_scripts) (lexer_ s2) = (Some name, l1') ->
      ReadToken (Lexer := replay_lexer no_scripts) l1' = (NEWLINE, l2') ->
      ParsePool (lexer := replay_lexer no_scripts) fuel2 s2 =
        Val false (set_err (Error (Lexer := replay_lexer no_scripts)
                              ("duplicate pool '" +:+ name +:+ "'") l2')
                           (set_lexer l2' s2)).
Proof.
  refine (ParsePool_declares_once (lexer := replay_lexer no_scripts) 5
            (new_parser warn_options pool_two_depths empty_disk)
            after_pool_two_depths _).
  vm_compute. reflexivity.
Defined.

Lemma ParsePool_only_depth_witness :
  ParsePool (lexer := replay_lexer no_scripts)
            5 (new_parser warn_options pool_then_width empty_disk) =
  Val false (set_err "unexpected variable 'width'" (new_parser warn_options [] empty_disk)).
Proof.
  refine (ParsePool_only_depth (lexer := replay_lexer no_scripts) 5 1
            (new_parser warn_options pool_then_width empty_disk) "p"
            (tl pool_then_width) (tl (tl pool_then_width))
            (drop 6 pool_then_width) (drop 7 pool_then_width) (drop 8 pool_then_width)
            (drop 9 pool_then_width) []
            [("depth", [RAW "3"])] "width" [RAW "1"] _ _ _ _ _ _ _ _ _ _ _ _).
  - reflexivity.
  - reflexivity.
  - reflexivity.
  - reflexivity.
  - repeat constructor.
  - repeat constructor; vm_compute; discriminate.
  - reflexivity.
  - reflexivity.
  - reflexivity.
  - reflexivity.
  - discriminate.
  - lia.
Defined.

Lemma ParseRule_declares_once_witness :
  exists name l1 rule,
    ReadIdent (Lexer := replay_lexer no_scripts) rule_cat = (Some name, l1) /\
    rule_name_ rule = name /\
    LookupRuleCurrentScope (state_ after_rule_cat) O name = Some rule /\
    LookupRule (state_ after_rule_cat) O name = Some rule /\
    forall fuel2 (s2 : PState (list Reply) Disk) l1' l2',
      state_ s2 = state_ after_rule_cat -> env_ s2 = O ->
      ReadIdent (Lexer := replay_lexer no_scripts) (lexer_ s2) = (Some name, l1') ->
      ReadToken (Lexer := replay_lexer no_scripts) l1' = (NEWLINE, l2') ->
      ParseRule (lexer := replay_lexer no_scripts) fuel2 s2 =
        Val false (set_err (Error (Lexer := replay_lexer no_scripts)
                              ("duplicate rule '" +:+ name +:+ "'") l2')
                           (set_lexer l2' s2)).
Proof.
  refine (ParseRule_declares_once (lexer := replay_lexer no_scripts) 5
            (new_parser warn_options rule_cat empty_disk) after_rule_cat _ _).
  - vm_compute. reflexivity.
  - simpl. lia.
Defined.

Lemma ParseDefault_appends_witness :
  ParseDefault (lexer := replay_lexer no_scripts) (externals := simple_externals)
               5 default_out_a =
  Val true (set_state (set_defaults (fun d => d ++ ["out"; "a"]) (state_ default_out_a))
                      (set_lexer [] default_out_a)).
Proof.
  refine (ParseDefault_appends (lexer := replay_lexer no_scripts)
            (externals := simple_externals) 5 2 default_out_a
            [[RAW "out"]; [RAW "a"]] [RToken NEWLINE] [RToken NEWLINE] []
            [("out", 0); ("a", 0)] _ _ _ _ _ _).
  - reflexivity.
  - reflexivity.
  - reflexivity.
  - reflexivity.
  - repeat constructor; vm_compute; eauto.
  - lia.
Defined.

Lemma ParseDefault_unknown_target_witness :
  ParseDefault (lexer := replay_lexer no_scripts) (externals := simple_externals)
               5 default_out_nope =
  Val false (set_err "unknown target 'nope'"
               (set_state (set_defaults (fun d => d ++ ["out"]) (state_ default_out_nope))
                          (set_lexer [RToken NEWLINE] default_out_nope))).
Proof.
  refine (ParseDefault_unknown_target (lexer := replay_lexer no_scripts)
            (externals := simple_externals) 5 1 default_out_nope
            [[RAW "out"]] [RPath (inl [RAW "nope"]); RToken NEWLINE] [RToken NEWLINE]
            [("out", 0)] [RAW "nope"] "nope" 0 _ _ _ _ _ _ _ _).
  - reflexivity.
  - reflexivity.
  - reflexivity.
  - reflexivity.
  - repeat constructor; vm_compute; eauto.
  - reflexivity.
  - vm_compute. reflexivity.
  - lia.
Defined.

Lemma ParseDefault_only_known_targets_witness :
  exists added,
    defaults_grow default_out_nope
      (set_err "unknown target 'nope'"
         (set_state (set_defaults (fun d => d ++ ["out"]) (state_ default_out_nope))
                    (set_lexer [RToken NEWLINE] default_out_nope)))
      added /\
    (false = true -> added <> []).
Proof.
  refine (ParseDefault_only_known_targets (lexer := replay_lexer no_scripts)
            (externals := simple_externals) 5 default_out_nope false _ _).
  vm_compute. reflexivity.
Defined.


Lemma ParseEdge_read_scope_witness :
  (env locals_of_build_with_binding = O /\
   state_ read_build_with_binding = new_State) \/
  (env locals_of_build_with_binding = length (scopes_ new_State) /\
   scope_added O new_State (state_ read_build_with_binding)).
Proof.
  refine (proj1 (ParseEdge_read_scope (lexer := replay_lexer no_scripts) 5
                   (new_parser warn_options build_with_binding empty_disk))
                locals_of_build_with_binding read_build_with_binding _).
  vm_compute. reflexivity.
Defined.

Lemma two_scopes_wf : scopes_wf (scopes_ two_scopes).
Proof.
  intros i be p Hi Hp. destruct i as [|[|i]]; simpl in Hi; try discriminate;
    injection Hi as <-; simpl in Hp; [discriminate|]. injection Hp as <-. lia.
Qed.

Lemma ParseEdge_bindings_evaluated_witness :
  ParseEdge_bindings (lexer := replay_lexer no_scripts) 5 1 true x_then_y =
  Val tt (set_state (AddBinding 1 "y" "outer" (AddBinding 1 "x" "inner" two_scopes))
                    (set_lexer [] x_then_y)).
Proof.
  refine (ParseEdge_bindings_evaluated (lexer := replay_lexer no_scripts) 1 5
            x_then_y 1 "x" [RAW "inner"]
            (drop 1 (lexer_ x_then_y)) (drop 2 (lexer_ x_then_y)) (drop 3 (lexer_ x_then_y))
            [] [] [("y", [SPECIAL "x"])] _ _ _ _ _ _ _ _).
  - reflexivity.
  - reflexivity.
  - reflexivity.
  - reflexivity.
  - reflexivity.
  - exact two_scopes_wf.
  - simpl. lia.
  - lia.
Defined.

Lemma ParseEdge_keeps_graph_witness :
  pools_ (state_ (after_build_out warn_options)) = pools_ new_State /\
  defaults_ (state_ (after_build_out warn_options)) = defaults_ new_State /\
  (edges_ (state_ (after_build_out warn_options)) = edges_ new_State \/
   exists e, edges_ (state_ (after_build_out warn_options)) = edges_ new_State ++ [e]) /\
  producers_kept (length (edges_ new_State)) new_State (state_ (after_build_out warn_options)).
Proof.
  refine (ParseEdge_keeps_graph (lexer := replay_lexer no_scripts)
            (externals := simple_externals) 5
            (new_parser warn_options build_out_from_a empty_disk) true
            (after_build_out warn_options) _).
  vm_compute. reflexivity.
Defined.

Lemma ParseEdge_inputs_links_witness :
  exists st',
    ParseEdge_inputs (lexer := replay_lexer no_scripts) (externals := simple_externals)
      O O [[RAW "b"]; [RAW "b"]] (after_build_out warn_options) =
      Val tt (set_state st' (after_build_out warn_options)) /\
    edges_ st' !! O =
      Some (set_inputs (fun i => i ++ ["b"; "b"])
              (mkEdge kPhonyRule kDefaultPool O ["a"] ["out"] 0 0 0 None)) /\
    (forall p, p ∈ ["b"; "b"] -> consumes st' O p) /\
    (forall q, consumes (state_ (after_build_out warn_options)) O q -> consumes st' O q).
Proof.
  refine (ParseEdge_inputs_links (lexer := replay_lexer no_scripts)
            (externals := simple_externals) O O [[RAW "b"]; [RAW "b"]]
            (after_build_out warn_options) [("b", 0); ("b", 0)]
            (mkEdge kPhonyRule kDefaultPool O ["a"] ["out"] 0 0 0 None) _ _).
  - reflexivity.
  - vm_compute. reflexivity.
Defined.

Lemma Parse_true_at_eof_witness :
  exists l, ReadToken (Lexer := replay_lexer twice_scripts) l = (TEOF, lexer_ after_twice).
Proof.
  refine (Parse_true_at_eof (lexer := replay_lexer twice_scripts)
            (file_reader := disk_reader) (externals := simple_externals)
            5 "twice.ninja" EmptyString (new_parser warn_options [] empty_disk)
            after_twice _).
  vm_compute. reflexivity.
Defined.

Lemma ParseFileInclude_include_takes_no_binding_witness :
  let s := new_parser warn_options inclusion_with_chdir sub_disk in
  exists s',
    ParseFileInclude (lexer := replay_lexer no_scripts) (file_reader := disk_reader)
      (Parse (lexer := replay_lexer no_scripts) (file_reader := disk_reader)
             (externals := simple_externals) 3) 2 false s = Val false s' /\
    same_store s s' /\
    (forall l4 l5 l6 value,
       ReadIdent (Lexer := replay_lexer no_scripts) (drop 3 inclusion_with_chdir) =
         (Some "chdir", l4) ->
       ReadToken (Lexer := replay_lexer no_scripts) l4 = (EQUALS, l5) ->
       ReadVarValue (Lexer := replay_lexer no_scripts) l5 = (inl value, l6) ->
       err_ s' = Error (Lexer := replay_lexer no_scripts)
                   "invalid use of 'chdir' in include line" l6).
Proof.
  intros s.
  refine (ParseFileInclude_include_takes_no_binding (lexer := replay_lexer no_scripts)
            (file_reader := disk_reader) _ 1 s [RAW "x.ninja"]
            (drop 1 inclusion_with_chdir) (drop 2 inclusion_with_chdir)
            (drop 3 inclusion_with_chdir) _ _ _).
  - reflexivity.
  - reflexivity.
  - reflexivity.
Defined.

Lemma ParseFileInclude_chdir_failure_witness :
  let s := new_parser warn_options inclusion_with_chdir sub_disk in
  ParseFileInclude (lexer := replay_lexer no_scripts) (file_reader := disk_reader)
    (Parse (lexer := replay_lexer no_scripts) (file_reader := disk_reader)
           (externals := simple_externals) 3) 2 true s =
  Val false (set_err "Chdir to 'nowhere': No such file or directory" (set_lexer [] s)).
Proof.
  intros s.
  refine (ParseFileInclude_chdir_failure (lexer := replay_lexer no_scripts)
            (file_reader := disk_reader) _ 1 s [RAW "x.ninja"]
            (drop 1 inclusion_with_chdir) (drop 2 inclusion_with_chdir)
            (drop 3 inclusion_with_chdir) (drop 4 inclusion_with_chdir)
            (drop 5 inclusion_with_chdir) [] [RAW "nowhere"] _ _ _ _ _ _).
  - reflexivity.
  - reflexivity.
  - reflexivity.
  - reflexivity.
  - reflexivity.
  - reflexivity.
Defined.

Lemma ParseEdge_build_unknown_pool_witness :
  ParseEdge_build (lexer := replay_lexer no_scripts) (externals := simple_externals)
    build_x_in_scope pool_nope =
    Ret false (set_err "unknown pool name 'nope'"
                 (set_state (edge_added build_x_in_scope (state_ pool_nope)) pool_nope)) /\
  edges_ (edge_added build_x_in_scope (state_ pool_nope)) =
    [] ++ [mkEdge kPhonyRule kDefaultPool 1%nat [] [] 0 0 0 None].
Proof.
  refine (ParseEdge_build_unknown_pool (lexer := replay_lexer no_scripts)
            (externals := simple_externals) build_x_in_scope pool_nope _ _).
  - vm_compute. discriminate.
  - vm_compute. reflexivity.
Defined.

Lemma Parse_keeps_graph_witness : graph_mono new_State (state_ after_twice).
Proof.
  refine (Parse_keeps_graph (lexer := replay_lexer twice_scripts)
            (file_reader := disk_reader) (externals := simple_externals)
            5 "twice.ninja" EmptyString (new_parser warn_options [] empty_disk)
            true after_twice _).
  vm_compute. reflexivity.
Defined.
